(** * Art Studio site script (js/script.js): cart store, cart view, gallery modal,
      navigation, form validation, initialization

    A shallow embedding of [js/script.js] (the scrolling listener
    apart, which only calls the browser) together with the properties
    its specification states and further properties of the same code.

    Layout:
    - [Num]: the JavaScript number type (IEEE-754 binary64) and the
      built-in conversions the script relies on ([parseFloat],
      [Number.prototype.toFixed], [Number::toString]);
    - [Js]: plain data values, their coercions, [JSON.stringify] and
      [JSON.parse];
    - the page state ([World]) and a small state-and-exception monad;
    - the script's functions of the modal and the cart, in source order;
    - class lists, the navigation, the form validation and the
      initializers, with the whole page ([Site]);
    - the vocabulary of the properties and the sample pages;
    - the properties the specification states, then further properties
      of the same code. *)

From Stdlib Require Import ZArith NArith List String Ascii Bool Lia.
From Stdlib Require Import Floats.SpecFloat.
From stdpp Require Import base option list strings gmap.

Local Open Scope string_scope.
Local Open Scope Z_scope.

(* ===================================================================== *)
(** * Numbers *)
(* ===================================================================== *)

Module Num.

(** A JavaScript number is an IEEE-754 binary64 value.  [spec_float] is
    the Standard Library's executable specification of such values (one
    NaN, two zeros, two infinities, sign/mantissa/exponent triples). *)
Definition number := spec_float.

Definition prec : Z := 53.
Definition emax : Z := 1024.

Definition NaN : number := S754_nan.
Definition Infinity : number := S754_infinity false.
Definition zero : number := S754_zero false.
Definition negzero : number := S754_zero true.

(** The number written as the integer literal [z]. *)
Definition ofZ (z : Z) : number := binary_normalize prec emax z 0 false.

(** [x + y] on numbers: binary64 addition, round to nearest even. *)
Definition add (x y : number) : number := SFadd prec emax x y.

(** [x < y] and [x >= y] on numbers; both are false when an operand is NaN. *)
Definition ltb (x y : number) : bool := SFltb x y.
Definition geb (x y : number) : bool := SFleb y x.

Definition is_nan (x : number) : bool :=
  match x with S754_nan => true | _ => false end.

Definition is_finite (x : number) : bool :=
  match x with S754_zero _ | S754_finite _ _ _ => true | _ => false end.

Definition eqb (x y : number) : bool :=
  match x, y with
  | S754_zero a, S754_zero b => Bool.eqb a b
  | S754_infinity a, S754_infinity b => Bool.eqb a b
  | S754_nan, S754_nan => true
  | S754_finite a m e, S754_finite b n f =>
      Bool.eqb a b && Pos.eqb m n && Z.eqb e f
  | _, _ => false
  end.

(** The value of a binary64 number is well formed when its mantissa and
    exponent are in canonical form. *)
Definition valid (x : number) : bool := valid_binary prec emax x.

(** ** Decimal digits *)

Definition digitChar (d : Z) : ascii := ascii_of_N (Z.to_N (48 + d)).

(** Digits of [n >= 0] in radix [r], most significant first; zero has
    no digits. *)
Fixpoint digitsAux (fuel : nat) (r n : Z) (acc : list Z) : list Z :=
  match fuel with
  | O => acc
  | S fuel' =>
      if n <=? 0 then acc
      else digitsAux fuel' r (n / r) ((n mod r) :: acc)
  end.

Definition digitsOf (r n : Z) : list Z :=
  digitsAux (S (Z.to_nat (Z.log2 n))) r n [].

Definition decDigits (n : Z) : string :=
  string_of_list_ascii (map digitChar (digitsOf 10 n)).

(** The decimal numeral of [n >= 0]; zero is written "0". *)
Definition decString (n : Z) : string :=
  if n <=? 0 then "0" else decDigits n.

Fixpoint zeros (n : nat) : string :=
  match n with O => "" | S n' => String "0" (zeros n') end.

(** ** Rounding an exact decimal to binary64 *)

(** The binary64 number nearest to [(-1)^neg * d * 10^e], for [d >= 0]
    (ties to even, overflow to infinity, underflow to zero).  Decimal
    literals far outside the binary64 range are answered without
    building the power of ten. *)
Definition ofDecimal (neg : bool) (d e : Z) : number :=
  if d <=? 0 then S754_zero neg
  else
    let len := Z.of_nat (List.length (digitsOf 10 d)) in
    if 310 <=? len + e then S754_infinity neg
    else if len + e <=? -325 then S754_zero neg
    else if 0 <=? e then
      binary_normalize prec emax (if neg then - (d * 10 ^ e) else d * 10 ^ e) 0 neg
    else
      let '(q, e', l) := SFdiv_core_binary prec emax d 0 (10 ^ (- e)) 0 in
      binary_round_aux prec emax neg q e' l.

(** ** Exact scaling *)

(** [scaled m e p] is the fraction [(num, den)] equal to
    [m * 2^e * 10^p]. *)
Definition scaled (m : positive) (e p : Z) : Z * Z :=
  (Z.pos m * (if 0 <=? e then 2 ^ e else 1) * (if 0 <=? p then 10 ^ p else 1),
   (if 0 <=? e then 1 else 2 ^ (- e)) * (if 0 <=? p then 1 else 10 ^ (- p))).

(** The integer [n] with [10^(n-1) <= m * 2^e < 10^n]. *)
Fixpoint decExponentFrom (fuel : nat) (m : positive) (e n : Z) : Z :=
  match fuel with
  | O => n
  | S fuel' =>
      let '(num, den) := scaled m e (- n) in
      if num <? den then n else decExponentFrom fuel' m e (n + 1)
  end.

Definition decExponent (m : positive) (e : Z) : Z :=
  decExponentFrom 4 m e (((Z.log2 (Z.pos m) + e) * 30103) / 100000).

(** ** Number::toString (radix 10) *)

(** The shortest decimal [s * 10^q] that reads back as [x = m * 2^e];
    among those of the fewest digits the one nearest to [x], the even
    one on a tie.  With [n] the integer such that
    [10^(n-1) <= x < 10^n], the two decimals of [k] digits around [x]
    are tried for [k = 1, 2, ...]; the search ends at the latest with
    the decimal expansion of [x] itself.  Returned as [(s, q)]. *)
Fixpoint shortestFrom (fuel : nat) (x : number) (m : positive) (e n k : Z)
  : Z * Z :=
  let '(num, den) := scaled m e (k - n) in
  let lo := num / den in
  let r := num mod den in
  let hi := lo + 1 in
  let norm s := if s =? 10 ^ k then (10 ^ (k - 1), n + 1 - k) else (s, n - k) in
  let reads := fun '(s, q) => eqb (ofDecimal false s q) x in
  let nearest :=
    match Z.compare (2 * r) den with
    | Lt => norm lo
    | Gt => norm hi
    | Eq => if Z.even lo then norm lo else norm hi
    end in
  if r =? 0 then (lo, n - k)
  else
    match fuel with
    | O => nearest
    | S fuel' =>
        match reads (norm lo), reads (norm hi) with
        | true, true => nearest
        | true, false => norm lo
        | false, true => norm hi
        | false, false => shortestFrom fuel' x m e n (k + 1)
        end
    end.

(** The decimal expansion of [m * 2^e] has no digit after the
    [- e]-th behind the point. *)
Definition shortest (m : positive) (e : Z) : Z * Z :=
  let n := decExponent m e in
  shortestFrom (Z.to_nat (n + Z.max 0 (- e))) (S754_finite false m e) m e n 1.

Definition substring_from (i : nat) (s : string) : string :=
  String.substring i (String.length s - i) s.

(** Steps 6 to 10 of Number::toString: lay out the digits [ds] of [s]
    with decimal exponent [n]. *)
Definition layoutDigits (ds : string) (n : Z) : string :=
  let k := Z.of_nat (String.length ds) in
  if (k <=? n) && (n <=? 21) then
    ds +:+ zeros (Z.to_nat (n - k))
  else if (0 <? n) && (n <=? 21) then
    String.substring 0 (Z.to_nat n) ds +:+ "." +:+ substring_from (Z.to_nat n) ds
  else if (-6 <? n) && (n <=? 0) then
    "0." +:+ zeros (Z.to_nat (- n)) +:+ ds
  else
    let ex := n - 1 in
    let exs := (if ex <? 0 then "-" else "+") +:+ decString (Z.abs ex) in
    if k =? 1 then ds +:+ "e" +:+ exs
    else String.substring 0 1 ds +:+ "." +:+ substring_from 1 ds +:+ "e" +:+ exs.

Definition toStringPos (m : positive) (e : Z) : string :=
  let '(s, q) := shortest m e in
  let ds := decDigits s in
  layoutDigits ds (q + Z.of_nat (String.length ds)).

(** [String(x)], radix 10. *)
Definition toString (x : number) : string :=
  match x with
  | S754_nan => "NaN"
  | S754_zero _ => "0"
  | S754_infinity false => "Infinity"
  | S754_infinity true => "-Infinity"
  | S754_finite false m e => toStringPos m e
  | S754_finite true m e => "-" +:+ toStringPos m e
  end.

(** ** Number.prototype.toFixed *)

(** [toFixedPos f m e]: the numeral of [x = m * 2^e > 0] with [f]
    fraction digits.  From [10^21] on the result is [String(x)];
    below, [n] is the integer nearest to [x * 10^f], the larger one on
    a tie, written with a point before its last [f] digits. *)
Definition toFixedPos (f : nat) (m : positive) (e : Z) : string :=
  let '(num1, den1) := scaled m e 0 in
  if 10 ^ 21 * den1 <=? num1 then toStringPos m e
  else
    let '(num, den) := scaled m e (Z.of_nat f) in
    let n := (2 * num + den) / (2 * den) in
    let ds := decString n in
    match f with
    | O => ds
    | _ =>
        let k := String.length ds in
        let ds' := if (k <=? f)%nat then zeros (f + 1 - k) +:+ ds else ds in
        let k' := String.length ds' in
        String.substring 0 (k' - f) ds' +:+ "." +:+ substring_from (k' - f) ds'
    end.

Definition toFixed (f : nat) (x : number) : string :=
  match x with
  | S754_nan => "NaN"
  | S754_infinity false => "Infinity"
  | S754_infinity true => "-Infinity"
  | S754_zero _ =>
      match f with O => "0" | _ => "0." +:+ zeros f end
  | S754_finite false m e => toFixedPos f m e
  | S754_finite true m e => "-" +:+ toFixedPos f m e
  end.

(** ** Reading numerals: [parseFloat] and StringToNumber *)

Definition isDigit (c : ascii) : bool :=
  let n := N_of_ascii c in ((48 <=? n) && (n <=? 57))%N.

Definition digitVal (c : ascii) : Z := Z.of_N (N_of_ascii c) - 48.

(** Value in radix 16 of a hexadecimal digit, if [c] is one. *)
Definition hexVal (c : ascii) : option Z :=
  let n := Z.of_N (N_of_ascii c) in
  if (48 <=? n) && (n <=? 57) then Some (n - 48)
  else if (97 <=? n) && (n <=? 102) then Some (n - 87)
  else if (65 <=? n) && (n <=? 70) then Some (n - 55)
  else None.

(** Longest prefix of decimal digits: its value, its length, the rest. *)
Fixpoint spanDigits (s : string) (acc : Z) (len : Z) : Z * Z * string :=
  match s with
  | String c s' =>
      if isDigit c then spanDigits s' (10 * acc + digitVal c) (len + 1)
      else (acc, len, s)
  | EmptyString => (acc, len, s)
  end.

(** Length in bytes of the StrWhiteSpaceChar at the head of [s]
    (WhiteSpace and LineTerminator code points, in UTF-8), 0 if none. *)
Definition whiteSpaceLen (s : string) : nat :=
  match s with
  | String c s1 =>
      let n := N_of_ascii c in
      if ((9 <=? n) && (n <=? 13) || (n =? 32))%N then 1%nat
      else
        match s1 with
        | String c1 s2 =>
            let n1 := N_of_ascii c1 in
            if ((n =? 194) && (n1 =? 160))%N then 2%nat
            else
              match s2 with
              | String c2 _ =>
                  let n2 := N_of_ascii c2 in
                  if ((n =? 225) && (n1 =? 154) && (n2 =? 128)
                      || (n =? 226) && (n1 =? 128)
                           && ((128 <=? n2) && (n2 <=? 138)
                               || (n2 =? 168) || (n2 =? 169) || (n2 =? 175))
                      || (n =? 226) && (n1 =? 129) && (n2 =? 159)
                      || (n =? 227) && (n1 =? 128) && (n2 =? 128)
                      || (n =? 239) && (n1 =? 187) && (n2 =? 191))%N
                  then 3%nat else 0%nat
              | EmptyString => 0%nat
              end
        | EmptyString => 0%nat
        end
  | EmptyString => 0%nat
  end.

Fixpoint trimStartFuel (fuel : nat) (s : string) : string :=
  match fuel with
  | O => s
  | S fuel' =>
      match whiteSpaceLen s with
      | O => s
      | n => trimStartFuel fuel' (substring_from n s)
      end
  end.

Definition trimStart (s : string) : string :=
  trimStartFuel (String.length s) s.

(** [true] when [s] consists of white space only. *)
Definition allWhiteSpace (s : string) : bool :=
  match trimStart s with EmptyString => true | _ => false end.

(** The exponent part at the head of [s], if there is a complete one:
    its value and the rest. *)
Definition scanExponent (s : string) : Z * string :=
  match s with
  | String c s1 =>
      if (Ascii.eqb c "e" || Ascii.eqb c "E")%bool then
        let '(neg, s2) :=
          match s1 with
          | String "-" t => (true, t)
          | String "+" t => (false, t)
          | _ => (false, s1)
          end in
        let '(v, len, rest) := spanDigits s2 0 0 in
        if len =? 0 then (0, s) else ((if neg then - v else v), rest)
      else (0, s)
  | EmptyString => (0, s)
  end.

(** The longest prefix of [s] that is a StrDecimalLiteral: its value
    and the rest of [s]; [None] when no prefix is one. *)
Definition scanDecimal (s : string) : option (number * string) :=
  let '(neg, s1) :=
    match s with
    | String "-" t => (true, t)
    | String "+" t => (false, t)
    | _ => (false, s)
    end in
  if String.prefix "Infinity" s1 then
    Some (S754_infinity neg, substring_from 8 s1)
  else
    let '(iv, ilen, s2) := spanDigits s1 0 0 in
    let '(fv, flen, s3) :=
      match s2 with
      | String "." t =>
          let '(v, len, rest) := spanDigits t iv 0 in
          if (ilen =? 0) && (len =? 0) then (iv, 0, s2) else (v, len, rest)
      | _ => (iv, 0, s2)
      end in
    if (ilen =? 0) && (flen =? 0) then None
    else
      let '(ex, s4) := scanExponent s3 in
      Some (ofDecimal neg fv (ex - flen), s4).

(** [parseFloat(s)]: white space is skipped, then the longest decimal
    literal is read and whatever follows it is ignored. *)
Definition parseFloat (s : string) : number :=
  match scanDecimal (trimStart s) with
  | Some (x, _) => x
  | None => NaN
  end.

(** Longest prefix of digits of radix [r]: value, length, rest. *)
Fixpoint spanRadix (r : Z) (s : string) (acc : Z) (len : Z) : Z * Z * string :=
  match s with
  | EmptyString => (acc, len, s)
  | String c s' =>
      match hexVal c with
      | Some d =>
          if d <? r then spanRadix r s' (r * acc + d) (len + 1)
          else (acc, len, s)
      | None => (acc, len, s)
      end
  end.

Definition radixOfPrefix (p : ascii) : option Z :=
  if (Ascii.eqb p "x" || Ascii.eqb p "X")%bool then Some 16
  else if (Ascii.eqb p "o" || Ascii.eqb p "O")%bool then Some 8
  else if (Ascii.eqb p "b" || Ascii.eqb p "B")%bool then Some 2
  else None.

Definition wholeDecimal (t : string) : number :=
  match scanDecimal t with
  | Some (x, rest) => if allWhiteSpace rest then x else NaN
  | None => NaN
  end.

(** StringToNumber, the conversion behind [Number(s)]: the whole
    string, white space at both ends apart, must be a numeric literal
    (decimal, or an unsigned integer with prefix 0x, 0o or 0b); the
    empty string reads as [+0]. *)
Definition stringToNumber (s : string) : number :=
  let t := trimStart s in
  match t with
  | EmptyString => zero
  | String "0" (String p ds) =>
      match radixOfPrefix p with
      | Some r =>
          let '(v, len, rest) := spanRadix r ds 0 0 in
          if (0 <? len) && allWhiteSpace rest then ofZ v else NaN
      | None => wholeDecimal t
      end
  | _ => wholeDecimal t
  end.

End Num.

(* ===================================================================== *)
(** * Values *)
(* ===================================================================== *)

Module Js.

Import Num.

(** The values the script handles: the primitive values and plain data
    arrays and objects (what [JSON.parse] builds and what the script
    itself builds with literals).  Strings are byte strings, the UTF-8
    form of the script's strings.  The properties of an object are
    listed in property order, each key once. *)
#[warnings="-register-all"]
Inductive value : Type :=
  | VUndefined
  | VNull
  | VBool (b : bool)
  | VNum (x : number)
  | VStr (s : string)
  | VArr (elems : list value)
  | VObj (props : list (string * value)).

(** [typeof v === 'string'], [typeof v === 'number'] *)
Definition isString (v : value) : bool :=
  match v with VStr _ => true | _ => false end.
Definition isNumber (v : value) : bool :=
  match v with VNum _ => true | _ => false end.

(** ToBoolean: the truthiness tested by [if (v)] and [!v]. *)
Definition toBoolean (v : value) : bool :=
  match v with
  | VUndefined | VNull => false
  | VBool b => b
  | VNum (S754_zero _) | VNum S754_nan => false
  | VNum _ => true
  | VStr EmptyString => false
  | VStr _ => true
  | VArr _ | VObj _ => true
  end.

Fixpoint join (sep : string) (l : list string) : string :=
  match l with
  | [] => ""
  | [x] => x
  | x :: l' => x +:+ sep +:+ join sep l'
  end.

(** Whether a plain object has an own property [toString].  Such a
    property holds data, never a function, and it hides the method the
    object would inherit. *)
Definition ownToString (props : list (string * value)) : bool :=
  existsb (fun p => String.eqb (fst p) "toString") props.

(** ToString; [None] is the TypeError of a value that has no primitive
    form.  An array is the comma-joined list of its elements, with
    [undefined] and [null] elements written as nothing.  A plain object
    is "[object Object]" by the inherited [toString]; when an own
    property [toString] hides it, the conversion finds nothing to call
    that gives a primitive (an own [valueOf] is data as well, the
    inherited one returns the object itself) and throws. *)
Fixpoint toString (v : value) : option string :=
  match v with
  | VUndefined => Some "undefined"
  | VNull => Some "null"
  | VBool true => Some "true"
  | VBool false => Some "false"
  | VNum x => Some (Num.toString x)
  | VStr s => Some s
  | VArr l =>
      match
        (fix elements (l : list value) : option (list string) :=
           match l with
           | [] => Some []
           | e :: l' =>
               match match e with
                     | VUndefined | VNull => Some ""
                     | _ => toString e
                     end, elements l' with
               | Some s, Some ss => Some (s :: ss)
               | _, _ => None
               end
           end) l
      with
      | Some ss => Some (join "," ss)
      | None => None
      end
  | VObj props => if ownToString props then None else Some "[object Object]"
  end.

(** ToNumber, as applied by [isNaN(v)] and by [v < 0]: an array or an
    object is converted through its string form, and throws where that
    throws. *)
Definition toNumber (v : value) : option number :=
  match v with
  | VUndefined => Some NaN
  | VNull => Some zero
  | VBool true => Some (ofZ 1)
  | VBool false => Some zero
  | VNum x => Some x
  | VStr s => Some (stringToNumber s)
  | VArr _ | VObj _ => option_map stringToNumber (toString v)
  end.

(** The global [isNaN(v)]. *)
Definition isNaN (v : value) : option bool := option_map is_nan (toNumber v).

(** [v < 0] for a [v] that is not a string (a string operand would be
    compared after the same conversion, as the other operand is a
    number). *)
Definition ltZero (v : value) : option bool :=
  option_map (fun x => ltb x zero) (toNumber v).

(** ** Objects *)

Fixpoint lookupProp (k : string) (props : list (string * value)) : option value :=
  match props with
  | [] => None
  | (k', v) :: ps => if String.eqb k k' then Some v else lookupProp k ps
  end.

(** [Some i] when [k] is an array index: the canonical numeral of an
    integer below [2^32 - 1]. *)
Definition arrayIndex (k : string) : option Z :=
  let '(v, len, rest) := spanDigits k 0 0 in
  match rest with
  | EmptyString =>
      if (0 <? len) && (len <=? 10) && String.eqb (decString v) k
         && (v <? 2 ^ 32 - 1)
      then Some v else None
  | _ => None
  end.

(** Define or overwrite property [k].  An existing property keeps its
    place; a new array-index key goes among the index keys in ascending
    order, ahead of all other keys; any other new key goes last. *)
Fixpoint setProp (k : string) (v : value) (props : list (string * value))
  : list (string * value) :=
  match props with
  | [] => [(k, v)]
  | (k', v') :: ps =>
      if String.eqb k k' then (k, v) :: ps
      else
        match arrayIndex k, arrayIndex k' with
        | Some i, Some j =>
            if i <? j then (k, v) :: (k', v') :: ps
            else (k', v') :: setProp k v ps
        | Some _, None => (k, v) :: (k', v') :: ps
        | None, _ => (k', v') :: setProp k v ps
        end
  end.

(** ** JSON.stringify *)

Definition hexChar (d : Z) : ascii :=
  if d <? 10 then ascii_of_N (Z.to_N (48 + d)) else ascii_of_N (Z.to_N (87 + d)).

(** Four lower-case hexadecimal digits of a code unit. *)
Definition hex4 (n : Z) : string :=
  String (hexChar (n / 4096 mod 16)) (String (hexChar (n / 256 mod 16))
    (String (hexChar (n / 16 mod 16)) (String (hexChar (n mod 16)) ""))).

Definition byte (c : ascii) : Z := Z.of_N (N_of_ascii c).
Definition char (n : Z) : ascii := ascii_of_N (Z.to_N n).

(** The double quote character. *)
Definition dquote : ascii := char 34.

(** The JSON text of one byte inside a string literal. *)
Definition escapeChar (c : ascii) : string :=
  let n := byte c in
  if n =? 8 then "\b" else if n =? 9 then "\t" else if n =? 10 then "\n"
  else if n =? 12 then "\f" else if n =? 13 then "\r"
  else if n =? 34 then String "\" (String dquote "")
  else if n =? 92 then "\\"
  else if n <? 32 then "\u" +:+ hex4 n
  else String c "".

(** The characters of QuoteJSONString.  A three-byte sequence that
    encodes a surrogate code unit (one without its partner) is written
    as a \u escape. *)
Fixpoint quoteChars (s : string) : string :=
  match s with
  | EmptyString => ""
  | String c0 t =>
      match t with
      | String c1 (String c2 rest) =>
          if (byte c0 =? 237) && (160 <=? byte c1) && (byte c1 <=? 191)
             && (128 <=? byte c2) && (byte c2 <=? 191)
          then "\u" +:+ hex4 (53248 + (byte c1 mod 64) * 64 + byte c2 mod 64)
                 +:+ quoteChars rest
          else escapeChar c0 +:+ quoteChars t
      | _ => escapeChar c0 +:+ quoteChars t
      end
  end.

Definition quote (s : string) : string :=
  String dquote (quoteChars s +:+ String dquote "").

(** SerializeJSONProperty without replacer or indentation: [None] is
    the [undefined] result, which drops a property and is written
    "null" inside an array.  A number that is not finite is written
    "null". *)
Fixpoint serialize (v : value) : option string :=
  match v with
  | VUndefined => None
  | VNull => Some "null"
  | VBool true => Some "true"
  | VBool false => Some "false"
  | VNum x => Some (if is_finite x then Num.toString x else "null")
  | VStr s => Some (quote s)
  | VArr l =>
      Some ("[" +:+ join "," (map (fun e => default "null" (serialize e)) l) +:+ "]")
  | VObj ps =>
      Some ("{" +:+
            join ","
              (omap (fun p => match serialize (snd p) with
                              | Some t => Some (quote (fst p) +:+ ":" +:+ t)
                              | None => None
                              end) ps)
            +:+ "}")
  end.

(** [JSON.stringify(v)]; [None] when the result is [undefined]. *)
Definition stringify (v : value) : option string := serialize v.

(** ** JSON.parse *)

Definition isJsonWs (c : ascii) : bool :=
  let n := byte c in (n =? 32) || (n =? 9) || (n =? 10) || (n =? 13).

Fixpoint skipWs (s : string) : string :=
  match s with
  | String c t => if isJsonWs c then skipWs t else s
  | EmptyString => s
  end.

(** UTF-8 bytes of a code point. *)
Definition utf8 (cp : Z) : string :=
  if cp <? 128 then String (char cp) ""
  else if cp <? 2048 then
    String (char (192 + cp / 64)) (String (char (128 + cp mod 64)) "")
  else if cp <? 65536 then
    String (char (224 + cp / 4096))
      (String (char (128 + cp / 64 mod 64)) (String (char (128 + cp mod 64)) ""))
  else
    String (char (240 + cp / 262144))
      (String (char (128 + cp / 4096 mod 64))
         (String (char (128 + cp / 64 mod 64)) (String (char (128 + cp mod 64)) ""))).

(** What a string literal is made of: bytes copied from the text and
    code units written as \u escapes. *)
Inductive piece : Type :=
  | Raw (c : ascii)
  | Unit (u : Z).

Definition isHighSurrogate (u : Z) : bool := (55296 <=? u) && (u <=? 56319).
Definition isLowSurrogate (u : Z) : bool := (56320 <=? u) && (u <=? 57343).

(** The string denoted by the pieces; two escapes that form a
    surrogate pair denote one code point. *)
Fixpoint encodePieces (l : list piece) : string :=
  match l with
  | [] => ""
  | Raw c :: rest => String c (encodePieces rest)
  | Unit u :: rest =>
      match rest with
      | Unit u' :: rest' =>
          if isHighSurrogate u && isLowSurrogate u' then
            utf8 (65536 + (u - 55296) * 1024 + (u' - 56320)) +:+ encodePieces rest'
          else utf8 u +:+ encodePieces rest
      | _ => utf8 u +:+ encodePieces rest
      end
  end.

(** The character denoted by the one-letter escape [\e]. *)
Definition simpleEscape (e : ascii) : option ascii :=
  let n := byte e in
  if (n =? 34) || (n =? 92) || (n =? 47) then Some e
  else if n =? 98 then Some (char 8)
  else if n =? 102 then Some (char 12)
  else if n =? 110 then Some (char 10)
  else if n =? 114 then Some (char 13)
  else if n =? 116 then Some (char 9)
  else None.

(** The rest of a string literal after its opening quote, up to and
    including the closing quote. *)
Fixpoint parseStringBody (s : string) : option (list piece * string) :=
  match s with
  | EmptyString => None
  | String c t =>
      if byte c =? 34 then Some ([], t)
      else if byte c =? 92 then
        match t with
        | String e t' =>
            if byte e =? 117 then
              match t' with
              | String h1 (String h2 (String h3 (String h4 rest))) =>
                  match hexVal h1, hexVal h2, hexVal h3, hexVal h4 with
                  | Some a, Some b, Some c', Some d =>
                      match parseStringBody rest with
                      | Some (ps, r) =>
                          Some (Unit (((a * 16 + b) * 16 + c') * 16 + d) :: ps, r)
                      | None => None
                      end
                  | _, _, _, _ => None
                  end
              | _ => None
              end
            else
              match simpleEscape e, parseStringBody t' with
              | Some x, Some (ps, r) => Some (Raw x :: ps, r)
              | _, _ => None
              end
        | EmptyString => None
        end
      else if byte c <? 32 then None
      else
        match parseStringBody t with
        | Some (ps, r) => Some (Raw c :: ps, r)
        | None => None
        end
  end.

(** A JSON number: an optional minus sign; an integer part without
    leading zeros; an optional fraction, at least one digit after the
    point; an optional exponent, at least one digit in it. *)
Definition numSign (s : string) : bool * string :=
  match s with
  | String c t => if Ascii.eqb c "-" then (true, t) else (false, s)
  | EmptyString => (false, s)
  end.

Definition numInt (s : string) : option (Z * string) :=
  match s with
  | String c t =>
      if isDigit c then
        if Ascii.eqb c "0" then Some (0, t)
        else let '(iv, _, s2) := spanDigits s 0 0 in Some (iv, s2)
      else None
  | EmptyString => None
  end.

Definition numFrac (iv : Z) (s : string) : option (Z * Z * string) :=
  match s with
  | String c t =>
      if Ascii.eqb c "." then
        let '(v, len, rest) := spanDigits t iv 0 in
        if len =? 0 then None else Some (v, len, rest)
      else Some (iv, 0, s)
  | EmptyString => Some (iv, 0, s)
  end.

Definition numExp (s : string) : option (Z * string) :=
  match s with
  | String c t =>
      if (Ascii.eqb c "e" || Ascii.eqb c "E")%bool then
        let '(eneg, s4) :=
          match t with
          | String c' u =>
              if Ascii.eqb c' "-" then (true, u)
              else if Ascii.eqb c' "+" then (false, u)
              else (false, t)
          | EmptyString => (false, t)
          end in
        let '(ev, elen, s5) := spanDigits s4 0 0 in
        if elen =? 0 then None else Some ((if eneg then - ev else ev), s5)
      else Some (0, s)
  | EmptyString => Some (0, s)
  end.

Definition parseNumber (s : string) : option (number * string) :=
  let '(neg, s1) := numSign s in
  match numInt s1 with
  | Some (iv, s2) =>
      match numFrac iv s2 with
      | Some (fv, flen, s3) =>
          match numExp s3 with
          | Some (ev, s4) => Some (ofDecimal neg fv (ev - flen), s4)
          | None => None
          end
      | None => None
      end
  | None => None
  end.

Fixpoint parseValue (fuel : nat) (s : string) : option (value * string) :=
  match fuel with
  | O => None
  | S f =>
      match s with
      | EmptyString => None
      | String c t =>
          let n := byte c in
          if n =? 34 then
            match parseStringBody t with
            | Some (ps, rest) => Some (VStr (encodePieces ps), rest)
            | None => None
            end
          else if n =? 91 then
            match skipWs t with
            | String c1 t2 as t1 =>
                if byte c1 =? 93 then Some (VArr [], t2)
                else
                  match parseElements f t1 with
                  | Some (l, rest) => Some (VArr l, rest)
                  | None => None
                  end
            | EmptyString => None
            end
          else if n =? 123 then
            match skipWs t with
            | String c1 t2 as t1 =>
                if byte c1 =? 125 then Some (VObj [], t2)
                else
                  match parseMembers f t1 [] with
                  | Some (ps, rest) => Some (VObj ps, rest)
                  | None => None
                  end
            | EmptyString => None
            end
          else if String.prefix "true" s then Some (VBool true, substring_from 4 s)
          else if String.prefix "false" s then Some (VBool false, substring_from 5 s)
          else if String.prefix "null" s then Some (VNull, substring_from 4 s)
          else
            match parseNumber s with
            | Some (x, rest) => Some (VNum x, rest)
            | None => None
            end
      end
  end
with parseElements (fuel : nat) (s : string) : option (list value * string) :=
  match fuel with
  | O => None
  | S f =>
      match parseValue f s with
      | Some (v, rest) =>
          match skipWs rest with
          | String c t =>
              if byte c =? 44 then
                match parseElements f (skipWs t) with
                | Some (l, rest') => Some (v :: l, rest')
                | None => None
                end
              else if byte c =? 93 then Some ([v], t)
              else None
          | EmptyString => None
          end
      | None => None
      end
  end
with parseMembers (fuel : nat) (s : string) (acc : list (string * value))
  : option (list (string * value) * string) :=
  match fuel with
  | O => None
  | S f =>
      match s with
      | String q t =>
          if byte q =? 34 then
            match parseStringBody t with
            | Some (ks, rest) =>
                match skipWs rest with
                | String c1 t1 =>
                    if byte c1 =? 58 then
                      match parseValue f (skipWs t1) with
                      | Some (v, rest2) =>
                          let acc' := setProp (encodePieces ks) v acc in
                          match skipWs rest2 with
                          | String c2 t2 =>
                              if byte c2 =? 44 then parseMembers f (skipWs t2) acc'
                              else if byte c2 =? 125 then Some (acc', t2)
                              else None
                          | EmptyString => None
                          end
                      | None => None
                      end
                    else None
                | EmptyString => None
                end
            | None => None
            end
          else None
      | EmptyString => None
      end
  end.

(** [JSON.parse(text)]; [None] stands for the SyntaxError it throws. *)
Definition parse (text : string) : option value :=
  match parseValue (2 * String.length text + 2) (skipWs text) with
  | Some (v, rest) =>
      match skipWs rest with
      | EmptyString => Some v
      | _ => None
      end
  | None => None
  end.

(** ** The operator [+] *)

(** ToPrimitive on plain data: arrays and objects become their string
    form, or throw. *)
Definition toPrimitive (v : value) : option value :=
  match v with
  | VArr _ | VObj _ => option_map VStr (toString v)
  | _ => Some v
  end.

(** [a + b]: concatenation once either operand is (or becomes) a
    string, addition of numbers otherwise; [None] when an operand has
    no primitive form. *)
Definition plus (a b : value) : option value :=
  match toPrimitive a, toPrimitive b with
  | Some pa, Some pb =>
      if isString pa || isString pb then
        match toString pa, toString pb with
        | Some sa, Some sb => Some (VStr (sa +:+ sb))
        | _, _ => None
        end
      else
        match toNumber pa, toNumber pb with
        | Some x, Some y => Some (VNum (add x y))
        | _, _ => None
        end
  | _, _ => None
  end.

(** ** Array.prototype.splice(start, 1) *)

(** ToIntegerOrInfinity of a finite number: truncation toward zero. *)
Definition truncate (x : number) : Z :=
  match x with
  | S754_finite sg m e =>
      let q := if 0 <=? e then Z.pos m * 2 ^ e else Z.pos m / 2 ^ (- e) in
      if sg then - q else q
  | _ => 0
  end.

(** [l.splice(x, 1)] as it leaves [l]: the start index is [x]
    truncated (NaN counts as 0), taken from the end when negative and
    clamped to the array; one element is deleted there if there is one. *)
Definition spliceOne {A : Type} (x : number) (l : list A) : list A :=
  let len := Z.of_nat (length l) in
  let start :=
    match x with
    | S754_infinity false => len
    | S754_infinity true => 0
    | _ =>
        let r := truncate x in
        if r <? 0 then Z.max (len + r) 0 else Z.min r len
    end in
  delete (Z.to_nat start) l.

End Js.

(* ===================================================================== *)
(** * The page *)
(* ===================================================================== *)

Import Num Js.

(** Errors the script's calls can raise. *)
Inductive Exn : Type :=
  | SyntaxError (text : string)    (* JSON.parse on text that is not JSON *)
  | TypeError (what : string)      (* property of null/undefined, call of a non-function *)
  | HostError (msg : string).      (* raised by the browser's storage *)

(** An argument passed to the console after the message. *)
Inductive LogArg : Type :=
  | LogValue (v : value)
  | LogErrorMessage (e : Exn)      (* [error.message] *)
  | LogElement.                    (* the element the handler is attached to *)

(** What the script shows to the outside, in the order it happens. *)
Inductive Effect : Type :=
  | Warn (msg : string) (args : list LogArg)   (* console.warn *)
  | Log (msg : string) (args : list LogArg)    (* console.log *)
  | Confirm (msg : string) (answer : bool)     (* confirm(msg) and its result *)
  | Alert (msg : string).                      (* alert(msg) *)

(** What reading [window.localStorage] gives. *)
Inductive StorageAccess : Type :=
  | StorageMissing                 (* undefined or null *)
  | StorageBlocked (msg : string)  (* the read itself throws *)
  | StoragePresent.

(** The storage of the browser.  Whether a write is taken is up to the
    host: it refuses what does not fit its quota, or every write when
    storing is disabled.  [setItemError key text held] is the error
    [setItem(key, text)] raises, if it does, on a storage that holds
    the pairs [held]. *)
Record Storage : Type := {
  storageInterface : bool;         (* typeof Storage !== 'undefined' *)
  access : StorageAccess;
  items : gmap string string;      (* the stored key/value pairs *)
  setItemError : string -> string -> gmap string string -> option string
}.

(** A host that takes every write, and one that takes none. *)
Definition acceptsAll : string -> string -> gmap string string -> option string :=
  fun _ _ _ => None.
Definition refusesAll (msg : string)
  : string -> string -> gmap string string -> option string :=
  fun _ _ _ => Some msg.

(** A host with a quota: it keeps at most [limit] characters, keys and
    values together. *)
Definition storedSize (held : gmap string string) : nat :=
  map_fold (fun key text n => (String.length key + String.length text + n)%nat)
           0%nat held.
Definition quota (limit : nat)
  : string -> string -> gmap string string -> option string :=
  fun key text held =>
    if (limit <? storedSize (<[key := text]> held))%nat
    then Some "QuotaExceededError" else None.

(** A row of [#cart-table]. *)
Inductive Row : Type :=
  | EmptyRow (text : string)       (* the single cell of class cart-empty *)
  | ItemRow (nameText priceText dataIndex ariaLabel : string) (removes : nat).
      (* name cell, price cell, and the Remove button with its data-index
         and aria-label; a click on the button calls [removeItem(removes)] *)

(** The elements of the document the cart and the modal use; [None]
    stands for an element the page does not have. *)
Record Dom : Type := {
  cartTable : option (list Row);           (* #cart-table and its rows *)
  cartTotal : option string;               (* #cart-total, its textContent *)
  modalOverlay : option string;            (* #modal-overlay, its style.display *)
  modalImage : option string;              (* #modal-image, its src *)
  modalCaption : option (string * string); (* #modal-caption: textContent, style.display *)
  modalClose : bool;                       (* #modal-close exists *)
  bodyOverflow : string;                   (* document.body.style.overflow *)
  focused : option string                  (* id of the element the script focused last *)
}.

Record World : Type := {
  cart : list value;               (* [let cart = []] *)
  storage : Storage;               (* window.localStorage *)
  page : Dom;                      (* document *)
  trace : list Effect              (* console output and dialogs so far *)
}.

(** ** Computations: state and exceptions *)

Inductive Completion (A : Type) : Type :=
  | Normal (a : A)
  | Throw (e : Exn).
Arguments Normal {A} a.
Arguments Throw {A} e.

Definition M (A : Type) : Type := World -> Completion A * World.

Definition ret {A} (a : A) : M A := fun w => (Normal a, w).

Definition bind {A B} (m : M A) (k : A -> M B) : M B :=
  fun w =>
    match m w with
    | (Normal a, w') => k a w'
    | (Throw e, w') => (Throw e, w')
    end.

Definition throw {A} (e : Exn) : M A := fun w => (Throw e, w).

(** [try { m } catch (error) { h error }] *)
Definition tryCatch {A} (m : M A) (h : Exn -> M A) : M A :=
  fun w =>
    match m w with
    | (Normal a, w') => (Normal a, w')
    | (Throw e, w') => h e w'
    end.

Definition gets {A} (f : World -> A) : M A := fun w => (Normal (f w), w).
Definition modify (f : World -> World) : M unit := fun w => (Normal tt, f w).

#[global] Instance M_ret : MRet M := @ret.
#[global] Instance M_bind : MBind M := fun A B k m => bind m k.

Definition setCart (c : list value) : M unit :=
  modify (fun w => {| cart := c; storage := storage w; page := page w; trace := trace w |}).

Definition setStorage (s : Storage) : M unit :=
  modify (fun w => {| cart := cart w; storage := s; page := page w; trace := trace w |}).

Definition setDom (d : Dom) : M unit :=
  modify (fun w => {| cart := cart w; storage := storage w; page := d; trace := trace w |}).

Definition emit (e : Effect) : M unit :=
  modify (fun w => {| cart := cart w; storage := storage w; page := page w;
                      trace := trace w ++ [e] |}).

Definition warn (msg : string) (args : list LogArg) : M unit := emit (Warn msg args).
Definition log (msg : string) (args : list LogArg) : M unit := emit (Log msg args).

(** Final state and completion of a run. *)
Definition exec {A} (m : M A) (w : World) : World := snd (m w).
Definition completion {A} (m : M A) (w : World) : Completion A := fst (m w).

(** ** Document updates *)

Definition withCartTable (rows : option (list Row)) (d : Dom) : Dom :=
  {| cartTable := rows; cartTotal := cartTotal d;
     modalOverlay := modalOverlay d; modalImage := modalImage d;
     modalCaption := modalCaption d; modalClose := modalClose d;
     bodyOverflow := bodyOverflow d; focused := focused d |}.

Definition withCartTotal (t : option string) (d : Dom) : Dom :=
  {| cartTable := cartTable d; cartTotal := t;
     modalOverlay := modalOverlay d; modalImage := modalImage d;
     modalCaption := modalCaption d; modalClose := modalClose d;
     bodyOverflow := bodyOverflow d; focused := focused d |}.

Definition withModal (overlay image : option string)
    (caption : option (string * string)) (overflow : string)
    (focus : option string) (d : Dom) : Dom :=
  {| cartTable := cartTable d; cartTotal := cartTotal d;
     modalOverlay := overlay; modalImage := image;
     modalCaption := caption; modalClose := modalClose d;
     bodyOverflow := overflow; focused := focus |}.

(** [if (s)] for a string-or-null [s], as [getAttribute] returns it. *)
Definition truthyAttr (s : option string) : bool :=
  match s with
  | Some (String _ _) => true
  | _ => false
  end.

(* ===================================================================== *)
(** * Gallery modal (script.js, lines 43-174) *)
(* ===================================================================== *)

Definition openModal (imageSrc : string) (caption : option string) : M unit :=
  d ← gets page;
  match modalOverlay d with
  | None => warn "Modal overlay (#modal-overlay) not found" []
  | Some _ =>
      match modalImage d with
      | None => warn "Modal image (#modal-image) not found" []
      | Some _ =>
          let cap :=
            match modalCaption d with
            | Some (text, _) =>
                match caption with
                | Some (String _ _ as c) => Some (c, "block")
                | _ => Some (text, "none")
                end
            | None => None
            end in
          setDom (withModal (Some "flex") (Some imageSrc) cap "hidden"
                    (if modalClose d then Some "modal-close" else focused d) d)
      end
  end.

Definition closeModal : M unit :=
  d ← gets page;
  match modalOverlay d with
  | None => warn "Modal overlay (#modal-overlay) not found" []
  | Some _ =>
      setDom (withModal (Some "none")
                (match modalImage d with Some _ => Some "" | None => None end)
                (modalCaption d) "" (focused d) d)
  end.

(** The click listener [initGalleryModal] puts on a [.gallery-item]
    whose attributes data-full and data-caption are [dataFull] and
    [dataCaption]. *)
Definition galleryItemClick (dataFull dataCaption : option string) : M unit :=
  match dataFull with
  | Some (String _ _ as fullImageSrc) => openModal fullImageSrc dataCaption
  | _ => warn "Gallery item missing data-full attribute" [LogElement]
  end.

(** The listeners of [setupModalCloseHandlers]: click on the close
    button; click inside the overlay, [onOverlay] telling whether the
    target is the overlay itself; key press anywhere in the document. *)
Definition closeButtonClick : M unit := closeModal.

Definition overlayClick (onOverlay : bool) : M unit :=
  if onOverlay then closeModal else ret tt.

Definition documentKeydown (key : string) : M unit :=
  if String.eqb key "Escape" then
    d ← gets page;
    match modalOverlay d with
    | Some display => if String.eqb display "flex" then closeModal else ret tt
    | None => ret tt
    end
  else ret tt.

(* ===================================================================== *)
(** * Shopping cart (script.js, lines 189-455) *)
(* ===================================================================== *)

Definition cartKey : string := "artStudioCart".

(** Reading [window.localStorage]. *)
Definition readLocalStorage : M bool :=
  st ← gets storage;
  match access st with
  | StorageMissing => ret false
  | StorageBlocked msg => throw (HostError msg)
  | StoragePresent => ret true
  end.

(** [localStorage.getItem(key)] *)
Definition getItem (key : string) : M (option string) :=
  st ← gets storage; ret (items st !! key).

(** [localStorage.setItem(key, text)] *)
Definition setItem (key text : string) : M unit :=
  st ← gets storage;
  match setItemError st key text (items st) with
  | Some msg => throw (HostError msg)
  | None =>
      setStorage {| storageInterface := storageInterface st; access := access st;
                    items := <[key := text]> (items st);
                    setItemError := setItemError st |}
  end.

(** [JSON.parse(text)], a SyntaxError when [text] is not JSON. *)
Definition jsonParse (text : string) : M value :=
  match Js.parse text with
  | Some v => ret v
  | None => throw (SyntaxError text)
  end.

Definition loadCart : M unit :=
  tryCatch
    (st ← gets storage;
     present ← (if storageInterface st then readLocalStorage else ret false);
     if negb present then
       warn "localStorage not available - cart will not persist between sessions" [] ;;
       setCart []
     else
       storedCart ← getItem cartKey;
       match storedCart with
       | Some (String _ _ as text) =>
           parsedCart ← jsonParse text;
           match parsedCart with
           | VArr l => setCart l
           | _ =>
               warn "Invalid cart data in localStorage, starting with empty cart" [] ;;
               setCart []
           end
       | _ => setCart []
       end)
    (fun error =>
       warn "Failed to load cart from localStorage:" [LogErrorMessage error] ;;
       setCart []).

Definition saveCart : M unit :=
  tryCatch
    (st ← gets storage;
     present ← (if storageInterface st then readLocalStorage else ret false);
     if negb present then ret tt
     else
       c ← gets cart;
       setItem cartKey (default "undefined" (Js.stringify (VArr c))))
    (fun error =>
       warn "Failed to save cart to localStorage:" [LogErrorMessage error]).

(** What [addToCart] reads from the clock and the random generator:
    the value of [Date.now()], a whole number of milliseconds, and the
    string [Math.random().toString(36)]. *)
Record Entropy : Type := {
  now : Z;
  random36 : string
}.

(** [n.toString(36)] for a whole number [n >= 0]. *)
Definition toString36 (n : Z) : string :=
  if n <=? 0 then "0"
  else string_of_list_ascii (map hexChar (digitsOf 36 n)).

(** [Date.now().toString(36) + Math.random().toString(36).substr(2)] *)
Definition newId (en : Entropy) : string :=
  toString36 (now en) +:+ substring_from 2 (random36 en).

(** The object literal [{ name: name, price: parsedPrice, id: id }]. *)
Definition cartItem (name parsedPrice : value) (id : string) : value :=
  VObj [("name", name); ("price", parsedPrice); ("id", VStr id)].

(** [v.key]: a TypeError on [undefined] and [null], [undefined] when
    there is no such property. *)
Definition getProp (v : value) (key : string) : M value :=
  match v with
  | VUndefined => throw (TypeError "Cannot read properties of undefined")
  | VNull => throw (TypeError "Cannot read properties of null")
  | VObj ps => ret (default VUndefined (lookupProp key ps))
  | _ => ret VUndefined
  end.

(** [v.toFixed(2)]: only a number has the method. *)
Definition callToFixed2 (v : value) : M string :=
  match v with
  | VNum x => ret (toFixed 2 x)
  | VUndefined => throw (TypeError "Cannot read properties of undefined")
  | VNull => throw (TypeError "Cannot read properties of null")
  | _ => throw (TypeError "toFixed is not a function")
  end.

(** A conversion that has no result throws its TypeError. *)
Definition conversionError : Exn :=
  TypeError "Cannot convert object to primitive value".

Definition convert {A : Type} (o : option A) : M A :=
  match o with
  | Some a => ret a
  | None => throw conversionError
  end.

(** The text an element shows after [el.textContent = v]: nothing for
    [null] and [undefined], the string form of [v] otherwise. *)
Definition textContentOf (v : value) : option string :=
  match v with
  | VUndefined | VNull => Some ""
  | _ => Js.toString v
  end.

Definition emptyRowText : string := "Your cart is empty".

(** The body of the [cart.forEach] callback, run on the items from
    position [index] on: build the row, then append it to the table. *)
Fixpoint renderRows (cartItems : list value) (index : nat) : M unit :=
  match cartItems with
  | [] => ret tt
  | item :: rest =>
      name ← getProp item "name";
      nameText ← convert (textContentOf name);
      price ← getProp item "price";
      priceText ← callToFixed2 price;
      name' ← getProp item "name";
      label ← convert (plus (VStr "Remove ") name');
      label' ← convert (plus label (VStr " from cart"));
      labelText ← convert (Js.toString label');
      d ← gets page;
      setDom (withCartTable
                (Some (default [] (cartTable d) ++
                       [ItemRow nameText ("$" +:+ priceText)
                          (decString (Z.of_nat index))
                          labelText
                          index])%list)
                d) ;;
      renderRows rest (S index)
  end.

(** [cart.reduce(function(sum, item) { return sum + item.price; }, sum)] *)
Fixpoint sumPrices (cartItems : list value) (sum : value) : M value :=
  match cartItems with
  | [] => ret sum
  | item :: rest =>
      price ← getProp item "price";
      sum' ← convert (plus sum price);
      sumPrices rest sum'
  end.

Definition updateCartUI : M unit :=
  d ← gets page;
  match cartTable d with
  | None => ret tt
  | Some _ =>
      setDom (withCartTable (Some []) d) ;;
      c ← gets cart;
      match c with
      | [] =>
          d1 ← gets page;
          setDom (withCartTable (Some [EmptyRow emptyRowText]) d1) ;;
          match cartTotal d with
          | Some _ =>
              d2 ← gets page;
              setDom (withCartTotal (Some "Total: $0.00") d2)
          | None => ret tt
          end
      | _ =>
          renderRows c 0 ;;
          match cartTotal d with
          | Some _ =>
              total ← sumPrices c (VNum zero);
              text ← callToFixed2 total;
              d2 ← gets page;
              setDom (withCartTotal (Some ("Total: $" +:+ text)) d2)
          | None => ret tt
          end
      end
  end.

Definition showCartFeedback (itemName : value) : M unit :=
  log "Added to cart:" [LogValue itemName].

(** [isNaN(parsedPrice) || parsedPrice < 0] *)
Definition invalidPrice (parsedPrice : value) : option bool :=
  match isNaN parsedPrice with
  | Some true => Some true
  | Some false => ltZero parsedPrice
  | None => None
  end.

Definition addToCart (name price : value) (en : Entropy) : M unit :=
  if negb (toBoolean name) then
    warn "Cannot add item to cart: missing name" []
  else
    let parsedPrice :=
      match price with
      | VStr s => VNum (parseFloat s)
      | _ => price
      end in
    invalid ← convert (invalidPrice parsedPrice);
    if invalid : bool then
      warn "Cannot add item to cart: invalid price" [LogValue price]
    else
      let id := newId en in
      c ← gets cart;
      setCart (c ++ [cartItem name parsedPrice id])%list ;;
      saveCart ;;
      updateCartUI ;;
      showCartFeedback name.

Definition removeItem (index : value) : M unit :=
  c ← gets cart;
  match index with
  | VNum i =>
      if ltb i zero || geb i (ofZ (Z.of_nat (length c))) then
        warn "Cannot remove item: invalid index" [LogValue index]
      else
        setCart (spliceOne i c) ;;
        saveCart ;;
        updateCartUI
  | _ => warn "Cannot remove item: invalid index" [LogValue index]
  end.

(** [answer] is what the user replies if the dialog is shown. *)
Definition clearCart (answer : bool) : M unit :=
  c ← gets cart;
  match c with
  | [] => ret tt
  | _ =>
      emit (Confirm "Are you sure you want to clear your cart?" answer) ;;
      if answer then
        setCart [] ;;
        saveCart ;;
        updateCartUI
      else ret tt
  end.

(** The click listener [initCartButtons] puts on an [.add-to-cart]
    button whose attributes data-name and data-price are [dataName]
    and [dataPrice]. *)
Definition addToCartClick (dataName dataPrice : option string) (en : Entropy)
  : M unit :=
  match dataName, dataPrice with
  | Some (String _ _ as name), Some (String _ _ as price) =>
      addToCart (VStr name) (VStr price) en
  | _, _ =>
      warn "Add to cart button missing data-name or data-price" [LogElement]
  end.

(** The click listener of the Remove button of the row built for
    position [index]. *)
Definition removeButtonClick (index : nat) : M unit :=
  removeItem (VNum (ofZ (Z.of_nat index))).

Definition checkout : M unit :=
  c ← gets cart;
  match c with
  | [] => emit (Alert "Your cart is empty!")
  | _ => emit (Alert "Checkout functionality coming soon!")
  end.

(** The cart part of the DOMContentLoaded listener. *)
Definition initCart : M unit :=
  loadCart ;;
  updateCartUI.

(* ===================================================================== *)
(** * Strings and class lists *)
(* ===================================================================== *)

(** [s.split(sep)] for a separator of one character: the pieces between
    the separators, at least one. *)
Fixpoint split (sep : ascii) (s : string) : list string :=
  match s with
  | EmptyString => [EmptyString]
  | String c t =>
      if Ascii.eqb c sep then EmptyString :: split sep t
      else
        match split sep t with
        | piece :: pieces => String c piece :: pieces
        | [] => [String c EmptyString]
        end
  end.

(** [s.trimEnd()] and [s.trim()]: white space and line terminators are
    taken off the end, and off both ends. *)
Fixpoint trimEnd (s : string) : string :=
  match s with
  | EmptyString => EmptyString
  | String c t => if allWhiteSpace s then EmptyString else String c (trimEnd t)
  end.

Definition trim (s : string) : string := trimEnd (trimStart s).

(** [el.classList]: the tokens of the class attribute, in order, each
    once, with the methods [contains], [add], [remove] and [toggle]. *)
Definition contains (token : string) (classList : list string) : bool :=
  bool_decide (token ∈ classList).

Definition classAdd (token : string) (classList : list string) : list string :=
  if contains token classList then classList else (classList ++ [token])%list.

Definition classRemove (token : string) (classList : list string) : list string :=
  filter (fun t => t <> token) classList.

Definition classToggle (token : string) (classList : list string) : list string :=
  if contains token classList then classRemove token classList
  else (classList ++ [token])%list.

(* ===================================================================== *)
(** * Navigation (script.js, lines 488-570) *)
(* ===================================================================== *)

(** [#nav-toggle]: its classes and its aria-expanded attribute. *)
Record Toggle : Type := {
  toggleClasses : list string;
  ariaExpanded : option string
}.

(** A link of the menu: its href attribute, if it has one, and its
    classes. *)
Record Link : Type := {
  href : option string;
  linkClasses : list string
}.

(** [#main-nav]: its classes and the links inside,
    [mainNav.querySelectorAll('a')]. *)
Record Menu : Type := {
  menuClasses : list string;
  links : list Link
}.

(** The click listener [initMobileNav] puts on the toggle. *)
Definition navToggleClick (nav : Toggle * Menu) : Toggle * Menu :=
  let '(navToggle, mainNav) := nav in
  let isExpanded := contains "active" (menuClasses mainNav) in
  ({| toggleClasses := classToggle "active" (toggleClasses navToggle);
      ariaExpanded := Some (if negb isExpanded then "true" else "false") |},
   {| menuClasses := classToggle "active" (menuClasses mainNav);
      links := links mainNav |}).

(** The click listener [initMobileNav] puts on every link of the menu. *)
Definition navLinkClick (nav : Toggle * Menu) : Toggle * Menu :=
  let '(navToggle, mainNav) := nav in
  if contains "active" (menuClasses mainNav) then
    ({| toggleClasses := classRemove "active" (toggleClasses navToggle);
        ariaExpanded := Some "false" |},
     {| menuClasses := classRemove "active" (menuClasses mainNav);
        links := links mainNav |})
  else nav.

(** [path.split('/').pop() || 'index.html'] *)
Definition pageName (path : string) : string :=
  match last (split "/" path) with
  | Some (String _ _ as page) => page
  | _ => "index.html"
  end.

(** The condition of the special case for the home page. *)
Definition homePageCase (currentPage linkPage linkHref : string) : bool :=
  (String.eqb currentPage "" || String.eqb currentPage "/") &&
  (String.eqb linkPage "index.html" || String.eqb linkPage "" || String.eqb linkHref "/").

(** The body of [navLinks.forEach] in [setActiveNav]. *)
Definition setActiveLink (currentPage : string) (link : Link) : Link :=
  let classes := classRemove "active" (linkClasses link) in
  let linkHref :=
    match href link with
    | Some (String _ _ as h) => h
    | _ => ""
    end in
  let linkPage := pageName linkHref in
  let classes :=
    if String.eqb linkPage currentPage then classAdd "active" classes else classes in
  let classes :=
    if homePageCase currentPage linkPage linkHref then classAdd "active" classes
    else classes in
  {| href := href link; linkClasses := classes |}.

(* ===================================================================== *)
(** * Form validation (script.js, lines 641-668) *)
(* ===================================================================== *)

(** An element inside a form: whether it has the attribute [required],
    its [value] property and its classes. *)
Record Field : Type := {
  required : bool;
  fieldValue : value;
  fieldClasses : list string
}.

Definition withClasses (classes : list string) (field : Field) : Field :=
  {| required := required field; fieldValue := fieldValue field;
     fieldClasses := classes |}.

(** [!field.value.trim()] *)
Definition isBlank (v : value) : Completion bool :=
  match v with
  | VStr s => Normal (negb (toBoolean (VStr (trim s))))
  | VUndefined => Throw (TypeError "Cannot read properties of undefined")
  | VNull => Throw (TypeError "Cannot read properties of null")
  | _ => Throw (TypeError "field.value.trim is not a function")
  end.

(** [requiredFields.forEach(...)] over the elements of the form in
    document order, those without [required] being passed over; the
    result is [isValid] and the elements as the loop leaves them. *)
Fixpoint checkFields (fields : list Field) (isValid : bool)
  : Completion bool * list Field :=
  match fields with
  | [] => (Normal isValid, [])
  | field :: rest =>
      if required field then
        match isBlank (fieldValue field) with
        | Normal true =>
            let '(r, rest') := checkFields rest false in
            (r, withClasses (classAdd "error" (fieldClasses field)) field :: rest')
        | Normal false =>
            let '(r, rest') := checkFields rest isValid in
            (r, withClasses (classRemove "error" (fieldClasses field)) field :: rest')
        | Throw e => (Throw e, fields)
        end
      else
        let '(r, rest') := checkFields rest isValid in (r, field :: rest')
  end.

(** What the submit listener did to the event and the focus. *)
Record Submitted : Type := {
  defaultPrevented : bool;         (* event.preventDefault() was called *)
  focusedElement : option nat      (* position of the element it focused *)
}.

(** [form.querySelector('.error')]: the position of the first element
    of class error. *)
Definition firstError (fields : list Field) : option nat :=
  fst <$> list_find (fun field => "error" ∈ fieldClasses field) fields.

(** The submit listener [initFormValidation] puts on a form. *)
Definition formSubmit (fields : list Field) : Completion Submitted * list Field :=
  match checkFields fields true with
  | (Normal isValid, fields') =>
      if negb isValid then
        (Normal {| defaultPrevented := true; focusedElement := firstError fields' |},
         fields')
      else
        (Normal {| defaultPrevented := false; focusedElement := None |}, fields')
  | (Throw e, fields') => (Throw e, fields')
  end.

(* ===================================================================== *)
(** * Initialization (script.js, lines 678-698, and the initializers
      it calls) *)
(* ===================================================================== *)

(** A listener the script has registered: the element, the event and
    the function that is called. *)
Inductive Listener : Type :=
  | OnNavToggleClick               (* #nav-toggle, click: [navToggleClick] *)
  | OnNavLinkClick (i : nat)       (* link [i] of #main-nav, click: [navLinkClick] *)
  | OnAnchorClick (i : nat)        (* [a[href^="#"]] number [i], click: the scrolling listener *)
  | OnGalleryItemClick (i : nat)   (* .gallery-item number [i], click: [galleryItemClick] *)
  | OnCloseClick                   (* #modal-close, click: [closeModal] *)
  | OnOverlayClick                 (* #modal-overlay, click: [overlayClick] *)
  | OnKeydown                      (* document, keydown: [documentKeydown] *)
  | OnAddToCartClick (i : nat)     (* .add-to-cart number [i], click: [addToCartClick] *)
  | OnCheckoutClick                (* #checkout-btn, click: [checkout] *)
  | OnClearCartClick               (* #clear-cart-btn, click: [clearCart] *)
  | OnSubmit (i : nat).            (* form number [i], submit: [formSubmit] *)

#[global] Instance Listener_eq_dec : EqDecision Listener.
Proof. solve_decision. Defined.

(** The whole page: the cart, the storage and the elements of [World],
    the navigation, what the selectors of the initializers find, and
    the listeners registered so far. *)
Record Site : Type := {
  world : World;
  navToggle : option Toggle;       (* #nav-toggle *)
  mainNav : option Menu;           (* #main-nav *)
  pathname : string;               (* window.location.pathname *)
  reducedMotion : bool;            (* matchMedia('(prefers-reduced-motion: reduce)').matches *)
  anchorLinks : nat;               (* how many a[href^="#"] *)
  galleryItems : nat;              (* how many .gallery-item *)
  addToCartButtons : nat;          (* how many .add-to-cart *)
  checkoutButton : bool;           (* #checkout-btn exists *)
  clearCartButton : bool;          (* #clear-cart-btn exists *)
  forms : nat;                     (* how many form elements *)
  listeners : list Listener
}.

Definition SiteM (A : Type) : Type := Site -> Completion A * Site.

#[global] Instance SiteM_ret : MRet SiteM := fun A a s => (Normal a, s).
#[global] Instance SiteM_bind : MBind SiteM :=
  fun A B k m s =>
    match m s with
    | (Normal a, s') => k a s'
    | (Throw e, s') => (Throw e, s')
    end.

Definition getSite : SiteM Site := fun s => (Normal s, s).

Definition withWorld (w : World) (s : Site) : Site :=
  {| world := w; navToggle := navToggle s; mainNav := mainNav s;
     pathname := pathname s; reducedMotion := reducedMotion s;
     anchorLinks := anchorLinks s; galleryItems := galleryItems s;
     addToCartButtons := addToCartButtons s; checkoutButton := checkoutButton s;
     clearCartButton := clearCartButton s; forms := forms s;
     listeners := listeners s |}.

Definition withMainNav (menu : option Menu) (s : Site) : Site :=
  {| world := world s; navToggle := navToggle s; mainNav := menu;
     pathname := pathname s; reducedMotion := reducedMotion s;
     anchorLinks := anchorLinks s; galleryItems := galleryItems s;
     addToCartButtons := addToCartButtons s; checkoutButton := checkoutButton s;
     clearCartButton := clearCartButton s; forms := forms s;
     listeners := listeners s |}.

Definition withListeners (ls : list Listener) (s : Site) : Site :=
  {| world := world s; navToggle := navToggle s; mainNav := mainNav s;
     pathname := pathname s; reducedMotion := reducedMotion s;
     anchorLinks := anchorLinks s; galleryItems := galleryItems s;
     addToCartButtons := addToCartButtons s; checkoutButton := checkoutButton s;
     clearCartButton := clearCartButton s; forms := forms s;
     listeners := ls |}.

(** A function of the cart or the modal, run on the page. *)
Definition onWorld {A} (m : M A) : SiteM A :=
  fun s => let '(r, w) := m (world s) in (r, withWorld w s).

(** [el.addEventListener(type, function(...) {...})]: the function is
    a new one, so the listener is added. *)
Definition addEventListener (l : Listener) : SiteM unit :=
  fun s => (Normal tt, withListeners (listeners s ++ [l]) s).

(** [el.addEventListener(type, f)] for a function [f] of the script:
    a listener that is there already is not added again. *)
Definition addNamedListener (l : Listener) : SiteM unit :=
  fun s =>
    (Normal tt,
     if bool_decide (l ∈ listeners s) then s
     else withListeners (listeners s ++ [l]) s).

(** [elements.forEach(function(el) { el.addEventListener(...) })] over
    [n] elements. *)
Definition addEventListeners (l : nat -> Listener) (n : nat) : SiteM unit :=
  fun s => (Normal tt, withListeners (listeners s ++ (l <$> seq 0 n)) s).

(** The menu after its links have been given their classes. *)
Definition setMainNav (menu : Menu) : SiteM unit :=
  fun s => (Normal tt, withMainNav (Some menu) s).

Definition setupModalCloseHandlers : SiteM unit :=
  s ← getSite;
  let d := page (world s) in
  (if modalClose d then addNamedListener OnCloseClick else mret tt) ;;
  (match modalOverlay d with
   | Some _ => addEventListener OnOverlayClick
   | None => mret tt
   end) ;;
  addEventListener OnKeydown.

Definition initGalleryModal : SiteM unit :=
  s ← getSite;
  match galleryItems s with
  | O => mret tt
  | n =>
      addEventListeners OnGalleryItemClick n ;;
      setupModalCloseHandlers
  end.

Definition initCartButtons : SiteM unit :=
  s ← getSite;
  match addToCartButtons s with
  | O => mret tt
  | n => addEventListeners OnAddToCartClick n
  end.

Definition initCheckoutButton : SiteM unit :=
  s ← getSite;
  (if checkoutButton s then addNamedListener OnCheckoutClick else mret tt) ;;
  (if clearCartButton s then addNamedListener OnClearCartClick else mret tt).

Definition initMobileNav : SiteM unit :=
  s ← getSite;
  match navToggle s, mainNav s with
  | Some _, Some menu =>
      addEventListener OnNavToggleClick ;;
      addEventListeners OnNavLinkClick (length (links menu))
  | _, _ => mret tt
  end.

Definition setActiveNav : SiteM unit :=
  s ← getSite;
  match mainNav s with
  | None => mret tt
  | Some menu =>
      match links menu with
      | [] => mret tt
      | navLinks =>
          let currentPage := pageName (pathname s) in
          setMainNav {| menuClasses := menuClasses menu;
                        links := setActiveLink currentPage <$> navLinks |}
      end
  end.

(** The registration part of [initSmoothScroll]. *)
Definition initSmoothScroll : SiteM unit :=
  s ← getSite;
  if reducedMotion s then mret tt
  else
    match anchorLinks s with
    | O => mret tt
    | n => addEventListeners OnAnchorClick n
    end.

Definition initFormValidation : SiteM unit :=
  s ← getSite; addEventListeners OnSubmit (forms s).

(** The DOMContentLoaded listener. *)
Definition domContentLoaded : SiteM unit :=
  initMobileNav ;;
  setActiveNav ;;
  initSmoothScroll ;;
  initGalleryModal ;;
  onWorld loadCart ;;
  onWorld updateCartUI ;;
  initCartButtons ;;
  initCheckoutButton ;;
  initFormValidation ;;
  onWorld (log "Art Studio site initialized" []).

(* ===================================================================== *)
(** * Vocabulary of the properties *)
(* ===================================================================== *)

(** The predicates, the functions of the cart the specification speaks
    of, and the sample states the properties below are stated with. *)

(** ** Storage *)

(** The storage takes the write of [text] under the cart key: the
    interface exists, reading [window.localStorage] gives the object,
    and [setItem] does not throw for that text. *)
Definition storageUsable (st : Storage) (text : string) : Prop :=
  storageInterface st = true /\ access st = StoragePresent /\
  setItemError st cartKey text (items st) = None.

Definition cartText (c : list value) : string :=
  default "undefined" (Js.stringify (VArr c)).

(** What [loadCart] finds when it looks for the persisted cart. *)
Inductive Persisted : Type :=
  | NoStorage                      (* no Storage interface, or no localStorage object *)
  | BlockedStorage (msg : string)  (* reading localStorage throws *)
  | NothingStored                  (* no value under the key, or the empty string *)
  | Unreadable (text : string)     (* a text that is not JSON *)
  | NotAnArray (v : value)         (* JSON, but not an array *)
  | StoredArray (l : list value).  (* a JSON array *)

Definition persisted (st : Storage) : Persisted :=
  if storageInterface st then
    match access st with
    | StorageMissing => NoStorage
    | StorageBlocked msg => BlockedStorage msg
    | StoragePresent =>
        match items st !! cartKey with
        | Some (String _ _ as text) =>
            match Js.parse text with
            | Some (VArr l) => StoredArray l
            | Some v => NotAnArray v
            | None => Unreadable text
            end
        | _ => NothingStored
        end
    end
  else NoStorage.

(** The cart [loadCart] ends with, and what it logs. *)
Definition loadedCart (p : Persisted) : list value :=
  match p with
  | StoredArray l => l
  | _ => []
  end.

Definition loadWarnings (p : Persisted) : list Effect :=
  match p with
  | NoStorage =>
      [Warn "localStorage not available - cart will not persist between sessions" []]
  | BlockedStorage msg =>
      [Warn "Failed to load cart from localStorage:" [LogErrorMessage (HostError msg)]]
  | Unreadable text =>
      [Warn "Failed to load cart from localStorage:" [LogErrorMessage (SyntaxError text)]]
  | NotAnArray _ =>
      [Warn "Invalid cart data in localStorage, starting with empty cart" []]
  | NothingStored | StoredArray _ => []
  end.

(** ** Arguments of addToCart *)

(** [parsesTo price p]: the price argument is the number [p], or a
    string that [parseFloat] reads as [p]. *)
Inductive parsesTo : value -> number -> Prop :=
  | parses_number (x : number) : parsesTo (VNum x) x
  | parses_string (s : string) : parsesTo (VStr s) (parseFloat s).

(** [p >= 0]; NaN is not. *)
Definition nonNegative (p : number) : Prop := geb p zero = true.

(** Prices the check [isNaN(parsedPrice) || parsedPrice < 0] turns
    down: a number that is NaN or negative, a string that [parseFloat]
    reads as NaN or as a negative number, [undefined], a plain object
    that converts (to "[object Object]", which is no numeral). *)
Definition rejectedPrice (price : value) : Prop :=
  match price with
  | VNum x => is_nan x = true \/ ltb x zero = true
  | VStr s => is_nan (parseFloat s) = true \/ ltb (parseFloat s) zero = true
  | VUndefined => True
  | VObj props => ownToString props = false
  | VNull | VBool _ | VArr _ => False
  end.

(** The total of the prices as [updateCartUI] computes it:
    [cart.reduce(function(sum, item) { return sum + item.price; }, 0)].
    The reduction reads the items only, so it is run on a blank page. *)
Definition totalOf (c : list value) : Completion value :=
  fst (sumPrices c (VNum zero)
         {| cart := [];
            storage := {| storageInterface := false; access := StorageMissing;
                          items := ∅; setItemError := acceptsAll |};
            page := {| cartTable := None; cartTotal := None; modalOverlay := None;
                       modalImage := None; modalCaption := None; modalClose := false;
                       bodyOverflow := ""; focused := None |};
            trace := [] |}).

(** [sum + price], where [sum] is the outcome of the reduction so far. *)
Definition addPrice (sum : Completion value) (price : value) : Completion value :=
  match sum with
  | Normal t =>
      match plus t price with
      | Some t' => Normal t'
      | None => Throw conversionError
      end
  | Throw e => Throw e
  end.

(** ** Whole numbers *)

(** The mantissa of the whole number [p] of at most 53 bits, shifted to
    53 bits. *)
Definition mantissaOf (p : positive) : positive :=
  match (Z.pos (digits2_pos p) - 53)%Z with
  | Zneg k => Pos.iter xO p k
  | _ => p
  end.

(** ** Items *)

(** [item.key] where reading it does not throw. *)
Definition propOf (key : string) (item : value) : value :=
  match item with
  | VObj ps => default VUndefined (lookupProp key ps)
  | _ => VUndefined
  end.

Definition idOf : value -> value := propOf "id".
Definition priceOf : value -> value := propOf "price".

Definition nameOf : value -> value := propOf "name".

(** A price that is a finite number, at least 0. *)
Definition finitePrice (v : value) : Prop :=
  exists p, v = VNum p /\ is_finite p = true /\ nonNegative p.

(** No two items with the same id; every price finite and at least 0. *)
Definition cartInvariant (c : list value) : Prop :=
  NoDup (idOf <$> c) /\ Forall (fun item => finitePrice (priceOf item)) c.

(** An item with a number for a price. *)
Definition priced (item : value) : Prop := exists p, priceOf item = VNum p.

(** An item the table can show: a number for a price, and a name that
    has a string form (any name but an object with an own property
    [toString], or an array that holds one). *)
Definition renderable (item : value) : Prop :=
  priced item /\ is_Some (Js.toString (nameOf item)).

Definition numPrice (item : value) : number :=
  match priceOf item with
  | VNum p => p
  | _ => NaN
  end.

(** ** JSON texts *)

(** The code unit that the three bytes [c0 c1 c2] stand for when they
    are the byte form of a surrogate. *)
Definition surrogateOf (c0 c1 c2 : ascii) : option Z :=
  if (byte c0 =? 237) && (160 <=? byte c1) && (byte c1 <=? 191)
     && (128 <=? byte c2) && (byte c2 <=? 191)
  then Some (53248 + (byte c1 mod 64) * 64 + byte c2 mod 64)
  else None.

Definition lowSurrogateAhead (s : string) : bool :=
  match s with
  | String c0 (String c1 (String c2 _)) =>
      match surrogateOf c0 c1 c2 with
      | Some u => isLowSurrogate u
      | None => false
      end
  | _ => false
  end.

(** The byte form of a string of the script: a high surrogate is never
    directly followed by a low one, the two being one code point, which
    is written in four bytes.  Surrogates on their own are allowed. *)
Fixpoint wellEncoded (s : string) : bool :=
  match s with
  | EmptyString => true
  | String c0 t =>
      match t with
      | String c1 (String c2 rest) =>
          match surrogateOf c0 c1 c2 with
          | Some u =>
              negb (isHighSurrogate u && lowSurrogateAhead rest) && wellEncoded rest
          | None => wellEncoded t
          end
      | _ => wellEncoded t
      end
  end.

(** What the parser makes of the text [escapeChar] writes for [c]. *)
Definition pieceOf (c : ascii) : piece :=
  let n := byte c in
  if (n <? 32) && negb ((n =? 8) || (n =? 9) || (n =? 10) || (n =? 12) || (n =? 13))
  then Unit n else Raw c.

(** What the parser makes of the text [quoteChars] writes for [s]. *)
Fixpoint piecesOf (s : string) : list piece :=
  match s with
  | EmptyString => []
  | String c0 t =>
      match t with
      | String c1 (String c2 rest) =>
          match surrogateOf c0 c1 c2 with
          | Some u => Unit u :: piecesOf rest
          | None => pieceOf c0 :: piecesOf t
          end
      | _ => pieceOf c0 :: piecesOf t
      end
  end.

(** The numeral with the digits [ds], and the number it denotes after
    the digits that gave [acc]. *)
Definition numeral (ds : list Z) : string :=
  string_of_list_ascii (map digitChar ds).

Definition digitsValue (acc : Z) (ds : list Z) : Z :=
  fold_left (fun a d => 10 * a + d) ds acc.

Definition isDecimalDigit (d : Z) : Prop := 0 <= d < 10.

(** A text at whose head no digit stands. *)
Definition noDigitAhead (text : string) : Prop :=
  match text with
  | String c _ => isDigit c = false
  | EmptyString => True
  end.

(** [s * 10^q = m * 2^ex], with the negative powers moved across. *)
Definition sameValue (s q : Z) (m : positive) (ex : Z) : Prop :=
  s * 10 ^ Z.max q 0 * 2 ^ Z.max (- ex) 0
  = Z.pos m * 2 ^ Z.max ex 0 * 10 ^ Z.max (- q) 0.

(** The numeral [toString] writes for [p] reads back as [p]. *)
Definition readsBack (p : number) : Prop :=
  parseNumber (Num.toString p) = Some (p, "").

(** The JSON text of [{ name, price, id }]. *)
Definition itemText (name : string) (p : number) (id : string) : string :=
  "{" +:+ quote "name" +:+ ":" +:+ quote name +:+ ","
      +:+ quote "price" +:+ ":" +:+ Num.toString p +:+ ","
      +:+ quote "id" +:+ ":" +:+ quote id +:+ "}".

(** A cart item as the data model has it: name and id are strings, the
    price is a finite number.  The strings are in their byte form and
    the number is a binary64 value, mantissa and exponent in canonical
    form; the one number left out is [-0]. *)
Definition wellFormedItem (item : value) : Prop :=
  exists name p id,
    item = cartItem (VStr name) (VNum p) id /\
    wellEncoded name = true /\ wellEncoded id = true /\
    is_finite p = true /\ valid p = true /\ p <> negzero.

(** [text] is an object text that reads as [v], whatever follows. *)
Definition readsAs (text : string) (v : value) : Prop :=
  (forall k tail, parseValue (5 + k) (text +:+ tail) = Some (v, tail)) /\
  exists t, text = String "{" t.

(** ** The view *)

(** The view the specification describes, as a function of the cart:
    one row per item (name, price with two decimals, remove control),
    or the single placeholder row; and the sum of the prices with two
    decimals. *)
Definition rowFor (index : nat) (item : value) : Row :=
  ItemRow (default "" (textContentOf (nameOf item)))
          ("$" +:+ toFixed 2 (numPrice item))
          (decString (Z.of_nat index))
          ("Remove " +:+ default "" (Js.toString (nameOf item)) +:+ " from cart")
          index.

Fixpoint rowsFrom (index : nat) (c : list value) : list Row :=
  match c with
  | [] => []
  | item :: rest => rowFor index item :: rowsFrom (S index) rest
  end.

Definition viewRows (c : list value) : list Row :=
  match c with
  | [] => [EmptyRow emptyRowText]
  | _ => rowsFrom 0 c
  end.

Definition sumOfPrices (c : list value) : number :=
  foldl (fun t item => add t (numPrice item)) zero c.

Definition viewTotal (c : list value) : string :=
  "Total: $" +:+ toFixed 2 (sumOfPrices c).

(** A number below [10^21] in size, where [toFixed] writes digits. *)
Definition belowE21 (x : number) : bool :=
  match x with
  | S754_zero _ => true
  | S754_finite _ m e =>
      let '(num, den) := scaled m e 0 in negb (10 ^ 21 * den <=? num)
  | _ => false
  end.

(** ** Dialogs and the modal *)

Definition confirmText : string := "Are you sure you want to clear your cart?".

(** The modal is open when the overlay is displayed as [flex]. *)
Definition isOpen (w : World) : Prop := modalOverlay (page w) = Some "flex".

(** The state [closeModal] leaves, seen from [w]: overlay hidden,
    page scrolling restored, image source cleared; cart, storage, trace
    and the cart view as in [w]. *)
Definition closedFrom (w w' : World) : Prop :=
  modalOverlay (page w') = Some "none" /\
  bodyOverflow (page w') = "" /\
  modalImage (page w') = (fun _ => "") <$> modalImage (page w) /\
  ~ isOpen w' /\
  cart w' = cart w /\ storage w' = storage w /\ trace w' = trace w /\
  cartTable (page w') = cartTable (page w) /\ cartTotal (page w') = cartTotal (page w).

(** ** Sample states *)

(** The store page before anything is in the cart: the cart table and
    the total are there, the storage works and is empty. *)
Definition storePage : Dom :=
  {| cartTable := Some []; cartTotal := Some "";
     modalOverlay := None; modalImage := None; modalCaption := None;
     modalClose := false; bodyOverflow := ""; focused := None |}.

Definition emptyStorage : Storage :=
  {| storageInterface := true; access := StoragePresent; items := ∅;
     setItemError := acceptsAll |}.

Definition freshWorld : World :=
  {| cart := []; storage := emptyStorage; page := storePage; trace := [] |}.

Definition entropy1 : Entropy := {| now := 1700000000000; random36 := "0.4fzyo82mvyr" |}.
Definition entropy2 : Entropy := {| now := 1700000000005; random36 := "0.k3x9q" |}.

(** The number written [25.00] and the number written [40]. *)
Definition price25 : number := ofDecimal false 2500 (-2).
Definition price40 : number := ofZ 40.

(** The page after [addToCart("Sunset Print", 25.00)]. *)
Definition oneItemWorld : World :=
  exec (addToCart (VStr "Sunset Print") (VNum price25) entropy1) freshWorld.

(** ... and after [addToCart("Ocean Wave", 40)]. *)
Definition twoItemWorld : World :=
  exec (addToCart (VStr "Ocean Wave") (VNum price40) entropy2) oneItemWorld.

(** The page with one item in the cart, at the price 2^53. *)
Definition largePriceWorld : World :=
  exec (addToCart (VStr "Mural") (VNum (ofZ (2 ^ 53))) entropy1) freshWorld.

(** A world whose storage holds [text] under the cart key. *)
Definition storedWorld (text : string) : World :=
  {| cart := [];
     storage := {| storageInterface := true; access := StoragePresent;
                   items := {[ cartKey := text ]}; setItemError := acceptsAll |};
     page := storePage; trace := [] |}.

(** A storage whose cart text holds two items with the same id, one of
    them with a negative price. *)
Definition duplicateIdWorld : World :=
  storedWorld
    (cartText [cartItem (VStr "Dune") (VNum (ofZ (-5))) "k1";
               cartItem (VStr "Reef") (VNum (ofZ 8)) "k1"]).



(** A name with a high surrogate on its own (the bytes ED A0 80)
    between two letters. *)
Definition loneSurrogateName : string :=
  String "A" (String (char 237) (String (char 160) (String (char 128) "B"))).

(** The page with one item in the cart and in the storage, the storage
    refusing further writes. *)
Definition fullStorageWorld : World :=
  {| cart := cart oneItemWorld;
     storage := {| storageInterface := true; access := StoragePresent;
                   items := {[ cartKey := cartText (cart oneItemWorld) ]};
                   setItemError := refusesAll "QuotaExceededError" |};
     page := storePage; trace := [] |}.

(** The gallery page: overlay, image, caption and close button are
    there, the modal is closed. *)
Definition galleryPage : Dom :=
  {| cartTable := None; cartTotal := None;
     modalOverlay := Some ""; modalImage := Some ""; modalCaption := Some ("", "");
     modalClose := true; bodyOverflow := ""; focused := None |}.

Definition galleryWorld : World :=
  {| cart := []; storage := emptyStorage; page := galleryPage; trace := [] |}.

(** The gallery page after a click on the thumbnail with data-full
    "art1-full.jpg" and data-caption "Autumn". *)
Definition openWorld : World :=
  exec (galleryItemClick (Some "art1-full.jpg") (Some "Autumn")) galleryWorld.

(** ** Navigation *)

(** The menu is shown, the toggle is drawn as pressed. *)
Definition menuOpen (nav : Toggle * Menu) : Prop := "active" ∈ menuClasses nav.2.
Definition togglePressed (nav : Toggle * Menu) : Prop := "active" ∈ toggleClasses nav.1.

(** What aria-expanded says. *)
Definition announcedOpen (nav : Toggle * Menu) : Prop :=
  ariaExpanded nav.1 = Some "true".

(** The three agree. *)
Definition navConsistent (nav : Toggle * Menu) : Prop :=
  (togglePressed nav <-> menuOpen nav) /\ (announcedOpen nav <-> menuOpen nav).

(** The clicks the listeners of [initMobileNav] answer. *)
Inductive NavEvent : Type :=
  | ToggleClick
  | LinkClick.

Definition navStep (nav : Toggle * Menu) (ev : NavEvent) : Toggle * Menu :=
  match ev with
  | ToggleClick => navToggleClick nav
  | LinkClick => navLinkClick nav
  end.

(** No [/] in [s]. *)
Fixpoint noSlash (s : string) : bool :=
  match s with
  | EmptyString => true
  | String c t => negb (Ascii.eqb c "/") && noSlash t
  end.

(** [link.getAttribute('href') || ''] *)
Definition hrefOf (link : Link) : string := default "" (href link).

(** Final state of a run on the page. *)
Definition execSite {A} (m : SiteM A) (s : Site) : Site := snd (m s).

(** The menu [setActiveNav] leaves for the path [path]. *)
Definition markedMenu (path : string) (menu : Menu) : Menu :=
  {| menuClasses := menuClasses menu;
     links := setActiveLink (pageName path) <$> links menu |}.

(** [link'] is [link] with the class active given or taken away
    according to [current]. *)
Definition markedAs (current : Prop) (link link' : Link) : Prop :=
  href link' = href link /\
  ("active" ∈ linkClasses link' <-> current) /\
  (forall c, c <> "active" -> c ∈ linkClasses link' <-> c ∈ linkClasses link).

(** ** Forms *)

(** A required field left blank: its value is white space only. *)
Definition blankField (field : Field) : Prop :=
  required field = true /\
  exists s, fieldValue field = VStr s /\ allWhiteSpace s = true.

(** Every required element has a string for a value, as the form
    controls do. *)
Definition textFields (fields : list Field) : Prop :=
  Forall (fun field => required field = true -> isString (fieldValue field) = true)
         fields.

(** [field'] is [field] after validation found it blank, or not. *)
Definition validated (field field' : Field) : Prop :=
  required field' = required field /\ fieldValue field' = fieldValue field /\
  (required field = false -> field' = field) /\
  (required field = true ->
   ("error" ∈ fieldClasses field' <-> blankField field) /\
   (forall c, c <> "error" -> c ∈ fieldClasses field' <-> c ∈ fieldClasses field)).

(** The field as the submit listener leaves it. *)
Definition validate (field : Field) : Field :=
  if required field then
    match fieldValue field with
    | VStr s =>
        withClasses
          (if allWhiteSpace s then classAdd "error" (fieldClasses field)
           else classRemove "error" (fieldClasses field)) field
    | _ => field
    end
  else field.

Definition isBlankField (field : Field) : bool :=
  required field &&
  match fieldValue field with
  | VStr s => allWhiteSpace s
  | _ => false
  end.

(** ** The cart on the page *)

(** [priced], computed. *)
Definition isPriced (item : value) : bool :=
  match priceOf item with
  | VNum _ => true
  | _ => false
  end.

(** [renderable], computed. *)
Definition isRenderable (item : value) : bool :=
  isPriced item &&
  match Js.toString (nameOf item) with Some _ => true | None => false end.

(** The page as [updateCartUI] leaves it when every item of the cart
    [c] can be shown: the rows and the total are those of
    [c], where the page has a table and an element for the total. *)
Definition renderedPage (c : list value) (d : Dom) : Dom :=
  match cartTable d with
  | None => d
  | Some _ =>
      let d1 := withCartTable (Some (viewRows c)) d in
      match cartTotal d with
      | Some _ => withCartTotal (Some (viewTotal c)) d1
      | None => d1
      end
  end.

(** ** What a visitor can do *)

(** The events the listeners of the cart and of the modal answer. *)
Inductive Action : Type :=
  | ClickAddToCart (dataName dataPrice : option string) (en : Entropy)
      (* an .add-to-cart button with these attributes *)
  | ClickRemove (row : nat)          (* the Remove button of row [row] of the table *)
  | ClickClearCart (answer : bool)   (* #clear-cart-btn, and the reply to the dialog *)
  | ClickCheckout                    (* #checkout-btn *)
  | ClickGalleryItem (dataFull dataCaption : option string)
  | ClickClose                       (* #modal-close *)
  | ClickOverlay (onOverlay : bool)  (* inside #modal-overlay *)
  | PressKey (key : string).

(** The listener that answers: for a Remove button, the one
    [updateCartUI] attached to that row, if the table has the row. *)
Definition act (a : Action) : M unit :=
  match a with
  | ClickAddToCart dataName dataPrice en => addToCartClick dataName dataPrice en
  | ClickRemove row =>
      d ← gets page;
      match cartTable d with
      | Some rows =>
          match rows !! row with
          | Some (ItemRow _ _ _ _ index) => removeButtonClick index
          | _ => ret tt
          end
      | None => ret tt
      end
  | ClickClearCart answer => clearCart answer
  | ClickCheckout => checkout
  | ClickGalleryItem dataFull dataCaption => galleryItemClick dataFull dataCaption
  | ClickClose => closeButtonClick
  | ClickOverlay onOverlay => overlayClick onOverlay
  | PressKey key => documentKeydown key
  end.

(** The page after the events [actions], each listener running on the
    state the one before left (also when that one threw). *)
Definition after (actions : list Action) (w : World) : World :=
  foldl (fun w a => exec (act a) w) w actions.

(** The world with the cart [c]. *)
Definition withCart (c : list value) (w : World) : World :=
  {| cart := c; storage := storage w; page := page w; trace := trace w |}.

(** What the three functions that change the cart do once they have
    the new cart: [cart = c; saveCart(); updateCartUI()]. *)
Definition commit (c : list value) : M unit :=
  setCart c ;; saveCart ;; updateCartUI.

(** The storage holds the text of the cart. *)
Definition synced (w : World) : Prop :=
  items (storage w) !! cartKey = Some (cartText (cart w)).

(** The table and the total on the page, where it has them, are those
    of the cart. *)
Definition viewMatches (w : World) : Prop :=
  match cartTable (page w) with
  | Some rows =>
      rows = viewRows (cart w) /\
      match cartTotal (page w) with
      | Some t => t = viewTotal (cart w)
      | None => True
      end
  | None => True
  end.

(** The listener left the cart, the storage and the cart's part of the
    page alone. *)
Definition cartUntouched (w w' : World) : Prop :=
  cart w' = cart w /\ storage w' = storage w /\
  cartTable (page w') = cartTable (page w) /\
  cartTotal (page w') = cartTotal (page w).

(** The carts one listener can make of the cart [c]: the empty cart,
    [c] without one item, [c] with a new item whose name is a string
    and whose price is a number. *)
Definition nextCart (c c' : list value) : Prop :=
  c' = [] \/ (exists k, c' = delete k c) \/
  (exists name p id, c' = (c ++ [cartItem (VStr name) (VNum p) id])%list).

(** The storage after [saveCart] has run with the cart [c]: the text
    of [c] under the cart key if the storage takes it, no change
    otherwise. *)
Definition savedStorage (c : list value) (st : Storage) : Storage :=
  match storageInterface st, access st,
        setItemError st cartKey (cartText c) (items st) with
  | true, StoragePresent, None =>
      {| storageInterface := true; access := StoragePresent;
         items := <[cartKey := cartText c]> (items st);
         setItemError := setItemError st |}
  | _, _, _ => st
  end.

(** The listener went through [commit c']: the cart is [c'], the
    storage is what [saveCart] makes of it, and if every item of [c']
    can be shown the table and the total are those of [c'] and the
    listener returns normally. *)
Definition committed {A} (c' : list value) (m : M A) (w : World) : Prop :=
  let w' := exec m w in
  cart w' = c' /\ storage w' = savedStorage c' (storage w) /\
  (Forall renderable c' ->
   cartTable (page w') = cartTable (renderedPage c' (page w)) /\
   cartTotal (page w') = cartTotal (renderedPage c' (page w)) /\
   exists a, completion m w = Normal a).

(** The JSON text of an item whose price is written [null], as the
    price of an item is when it is not a finite number. *)
Definition nullPriceText (name id : string) : string :=
  "{" +:+ quote "name" +:+ ":" +:+ quote name +:+ ","
      +:+ quote "price" +:+ ":" +:+ "null" +:+ ","
      +:+ quote "id" +:+ ":" +:+ quote id +:+ "}".

(** ** Initialization *)

(** The listeners each initializer registers on a page [s] that has
    none yet, in the order it registers them. *)
Definition navListeners (s : Site) : list Listener :=
  match navToggle s, mainNav s with
  | Some _, Some menu =>
      OnNavToggleClick :: (OnNavLinkClick <$> seq 0 (length (links menu)))
  | _, _ => []
  end.

Definition scrollListeners (s : Site) : list Listener :=
  if reducedMotion s then [] else OnAnchorClick <$> seq 0 (anchorLinks s).

Definition closeListeners (s : Site) : list Listener :=
  ((if modalClose (page (world s)) then [OnCloseClick] else []) ++
   (match modalOverlay (page (world s)) with
    | Some _ => [OnOverlayClick]
    | None => []
    end) ++
   [OnKeydown])%list.

Definition galleryListeners (s : Site) : list Listener :=
  match galleryItems s with
  | O => []
  | n => ((OnGalleryItemClick <$> seq 0 n) ++ closeListeners s)%list
  end.

Definition cartListeners (s : Site) : list Listener :=
  ((OnAddToCartClick <$> seq 0 (addToCartButtons s)) ++
   (if checkoutButton s then [OnCheckoutClick] else []) ++
   (if clearCartButton s then [OnClearCartClick] else []))%list.

Definition formListeners (s : Site) : list Listener :=
  OnSubmit <$> seq 0 (forms s).

(** The listeners registered before the cart is loaded. *)
Definition earlyListeners (s : Site) : list Listener :=
  (navListeners s ++ scrollListeners s ++ galleryListeners s)%list.

(** The page with the links of the menu marked for its path. *)
Definition markedSite (s : Site) : Site :=
  match mainNav s with
  | Some menu => withMainNav (Some (markedMenu (pathname s) menu)) s
  | None => s
  end.

(** The part of [domContentLoaded] that comes before the cart. *)
Definition initNavigationAndGallery : SiteM unit :=
  initMobileNav ;; setActiveNav ;; initSmoothScroll ;; initGalleryModal.

(** ... and the part that comes after [updateCartUI]. *)
Definition initButtonsAndForms : SiteM unit :=
  initCartButtons ;; initCheckoutButton ;; initFormValidation ;;
  onWorld (log "Art Studio site initialized" []).

(** The last line [domContentLoaded] writes to the console. *)
Definition initializedLog : Effect := Log "Art Studio site initialized" [].

(** ** Sample pages *)

Definition entropy3 : Entropy := {| now := 1700000000009; random36 := "0.z81" |}.

(** Clicks on the store page: a third item is added, the first row is
    removed, a key is pressed, checkout is asked for, the cart is
    cleared. *)
Definition sampleActions : list Action :=
  [ClickAddToCart (Some "Harbor") (Some "12.50") entropy3; ClickRemove 0;
   PressKey "Escape"; ClickCheckout; ClickClearCart true].

(** Two clicks on buttons of the store page. *)
Definition twoAdds : list Action :=
  [ClickAddToCart (Some "Sunset Print") (Some "25.00") entropy1;
   ClickAddToCart (Some "Ocean Wave") (Some "40") entropy2].

(** The store page on a host that keeps at most 100 characters. *)
Definition quotaWorld : World :=
  {| cart := [];
     storage := {| storageInterface := true; access := StoragePresent;
                   items := ∅; setItemError := quota 100 |};
     page := storePage; trace := [] |}.

(** The store page of a site that keeps a setting of its own in the
    storage. *)
Definition themedWorld : World :=
  {| cart := [];
     storage := {| storageInterface := true; access := StoragePresent;
                   items := {[ "theme" := "dark" ]}; setItemError := acceptsAll |};
     page := storePage; trace := [] |}.

Definition sampleToggle : Toggle :=
  {| toggleClasses := ["hamburger"]; ariaExpanded := Some "false" |}.

Definition sampleMenu : Menu :=
  {| menuClasses := ["nav"];
     links := [ {| href := Some "index.html"; linkClasses := ["active"] |};
                {| href := Some "gallery.html"; linkClasses := [] |};
                {| href := Some "/shop/store.html"; linkClasses := ["button"] |};
                {| href := None; linkClasses := [] |} ] |}.

(** The store page as it loads, with the two items of [twoItemWorld]
    in the storage. *)
Definition storeSite : Site :=
  {| world := storedWorld (cartText (cart twoItemWorld));
     navToggle := Some sampleToggle; mainNav := Some sampleMenu;
     pathname := "/tkchi-art-studio/store.html";
     reducedMotion := false; anchorLinks := 1; galleryItems := 0;
     addToCartButtons := 3; checkoutButton := true; clearCartButton := true;
     forms := 0; listeners := [] |}.

(** The same page, the storage holding an array with an item that has
    a name only. *)
Definition brokenSite : Site :=
  withWorld (storedWorld (cartText [VObj [("name", VStr "Dune")]])) storeSite.

(** The gallery page as it loads, with two thumbnails. *)
Definition gallerySite : Site :=
  {| world := galleryWorld;
     navToggle := Some sampleToggle; mainNav := Some sampleMenu;
     pathname := "/tkchi-art-studio/gallery.html";
     reducedMotion := true; anchorLinks := 0; galleryItems := 2;
     addToCartButtons := 0; checkoutButton := false; clearCartButton := false;
     forms := 0; listeners := [] |}.

(** A form with a name, an optional note, and two required fields left
    blank. *)
Definition contactForm : list Field :=
  [ {| required := true; fieldValue := VStr "Ada"; fieldClasses := ["input"; "error"] |};
    {| required := false; fieldValue := VStr ""; fieldClasses := [] |};
    {| required := true; fieldValue := VStr "  "; fieldClasses := ["input"] |};
    {| required := true; fieldValue := VStr ""; fieldClasses := [] |} ].

(* ===================================================================== *)
(** * Properties *)
(* ===================================================================== *)

(** ** Running computations *)

Ltac unfold_monad :=
  unfold exec, completion, mbind, M_bind, mret, M_ret, bind, ret, throw,
    tryCatch, gets, warn, log, emit, setCart, setStorage, setDom, modify in *.

(** Closed facts are settled by evaluation: split the conjunctions,
    then compute both sides. *)
Ltac by_evaluation :=
  cbv zeta;
  repeat lazymatch goal with |- _ /\ _ => split end;
  vm_compute; first [reflexivity | discriminate].


(** [getProp] and [callToFixed2] only compute. *)
Lemma getProp_pure v key w : snd (getProp v key w) = w.
Proof. by destruct v. Qed.

Lemma callToFixed2_pure v w : snd (callToFixed2 v w) = w.
Proof. by destruct v. Qed.

Lemma convert_pure {A} (o : option A) w : snd (convert o w) = w.
Proof. by destruct o. Qed.

Lemma convert_Some {A} (a : A) w : convert (Some a) w = (Normal a, w).
Proof. done. Qed.

Lemma sumPrices_pure items : forall sum w, snd (sumPrices items sum w) = w.
Proof.
  induction items as [|item rest IH]; intros sum w; [done|].
  simpl. unfold_monad.
  pose proof (getProp_pure item "price" w) as Hg.
  destruct (getProp item "price" w) as [[p|e] w1]; simpl in Hg; subst w1; [|done].
  destruct (plus sum p) as [sum'|]; [|done].
  rewrite convert_Some. apply IH.
Qed.

(** The value of a pure computation does not depend on the world. *)
Lemma getProp_indep v key w w' : fst (getProp v key w) = fst (getProp v key w').
Proof. by destruct v. Qed.

Lemma sumPrices_indep items : forall sum w w',
  fst (sumPrices items sum w) = fst (sumPrices items sum w').
Proof.
  induction items as [|item rest IH]; intros sum w w'; [done|].
  simpl. unfold_monad.
  pose proof (getProp_pure item "price" w) as Hg.
  pose proof (getProp_pure item "price" w') as Hg'.
  pose proof (getProp_indep item "price" w w') as Hi.
  destruct (getProp item "price" w) as [[p|e] w1];
    destruct (getProp item "price" w') as [[p'|e'] w1'];
    simpl in *; subst; try discriminate; try done.
  injection Hi as ->.
  destruct (plus sum p') as [sum'|]; [|done].
  rewrite !convert_Some. apply IH.
Qed.

Lemma textContentOf_Some v s : Js.toString v = Some s -> is_Some (textContentOf v).
Proof. destruct v; simpl; eauto. Qed.

Lemma plus_string_l a v s :
  Js.toString v = Some s -> plus (VStr a) v = Some (VStr (a +:+ s)).
Proof.
  intros H. unfold plus, toPrimitive.
  destruct v; cbn [isString orb option_map]; rewrite ?H; cbn [isString orb option_map Js.toString]; try done.
  all: try (cbn [Js.toString] in H; by rewrite H).
Qed.

Lemma renderRows_cons item rest index w :
  renderable item ->
  renderRows (item :: rest) index w =
  renderRows rest (S index)
    {| cart := cart w; storage := storage w;
       page := withCartTable
                 (Some (default [] (cartTable (page w)) ++ [rowFor index item])%list)
                 (page w);
       trace := trace w |}.
Proof.
  intros [[p Hp] [s Hs]].
  destruct item as [| | | | | |ps]; try discriminate.
  unfold priceOf, nameOf, propOf in *.
  cbn [renderRows getProp]. unfold_monad. rewrite Hp.
  destruct (textContentOf_Some _ _ Hs) as [t Ht]. rewrite Ht.
  cbn [convert callToFixed2]. unfold_monad.
  rewrite (plus_string_l _ _ _ Hs). cbn [convert]. unfold_monad.
  cbn [plus toPrimitive isString orb Js.toString convert]. unfold_monad.
  unfold rowFor, numPrice, priceOf, nameOf, propOf. rewrite Hp, Hs, Ht.
  cbn [default]. reflexivity.
Qed.

Lemma renderRows_bad bad rest index w :
  ~ renderable bad ->
  exists msg, renderRows (bad :: rest) index w = (Throw (TypeError msg), w).
Proof.
  intros Hbad. cbn [renderRows]. unfold_monad.
  destruct bad as [| |b|x|s|l|ps]; try (by eexists).
  cbn [getProp]. unfold_monad.
  destruct (textContentOf (default VUndefined (lookupProp "name" ps))) as [t|] eqn:Ht;
    [|by eexists].
  cbn [convert]. unfold_monad.
  destruct (default VUndefined (lookupProp "price" ps)) as [| |b|x|s|l|qs] eqn:Hp;
    try (by eexists).
  exfalso. apply Hbad. split.
  - exists x. unfold priceOf, propOf. by rewrite Hp.
  - unfold nameOf, propOf.
    destruct (default VUndefined (lookupProp "name" ps)); simpl in Ht |- *; eauto.
Qed.
Lemma isPriced_spec item : isPriced item = true <-> priced item.
Proof.
  unfold isPriced, priced. destruct (priceOf item); naive_solver.
Qed.

Lemma isRenderable_spec item : isRenderable item = true <-> renderable item.
Proof.
  unfold isRenderable, renderable. rewrite andb_true_iff, isPriced_spec.
  destruct (Js.toString (nameOf item)); [|split; intros [? H]; [done|by destruct H]].
  split; intros [? _]; eauto.
Qed.

Lemma renderable_or_not item : renderable item \/ ~ renderable item.
Proof.
  destruct (isRenderable item) eqn:H; [left; by apply isRenderable_spec|].
  right. intros Hp%isRenderable_spec. congruence.
Qed.

Lemma renderable_priced item : renderable item -> priced item.
Proof. by intros [? _]. Qed.

(** Rendering rows touches the table only. *)
Lemma renderRows_frame items : forall index w,
  let w' := exec (renderRows items index) w in
  cart w' = cart w /\ storage w' = storage w /\ trace w' = trace w /\
  cartTotal (page w') = cartTotal (page w) /\
  modalOverlay (page w') = modalOverlay (page w) /\
  modalImage (page w') = modalImage (page w) /\
  modalCaption (page w') = modalCaption (page w) /\
  modalClose (page w') = modalClose (page w) /\
  bodyOverflow (page w') = bodyOverflow (page w) /\
  focused (page w') = focused (page w).
Proof.
  induction items as [|item rest IH]; intros index w; [done|].
  unfold exec. destruct (renderable_or_not item) as [Hr|Hr].
  - rewrite renderRows_cons by done.
    match goal with |- context [renderRows rest (S index) ?w1] =>
      exact (IH (S index) w1) end.
  - destruct (renderRows_bad item rest index w Hr) as [msg ->]. done.
Qed.

Lemma updateCartUI_frame w :
  let w' := exec updateCartUI w in
  cart w' = cart w /\ storage w' = storage w /\ trace w' = trace w /\
  modalOverlay (page w') = modalOverlay (page w) /\
  modalImage (page w') = modalImage (page w) /\
  bodyOverflow (page w') = bodyOverflow (page w).
Proof.
  unfold updateCartUI, exec. unfold_monad. simpl.
  destruct (cartTable (page w)) as [rows|]; [|done].
  simpl. destruct (cart w) as [|item rest] eqn:Hc.
  - simpl. destruct (cartTotal (page w)); simpl; by rewrite ?Hc.
  - remember (item :: rest) as c eqn:Ec. clear Ec.
    set (w1 := {| cart := c; storage := storage w;
                  page := withCartTable (Some []) (page w); trace := trace w |}).
    pose proof (renderRows_frame c 0 w1) as Hr.
    unfold exec in Hr. cbn zeta in Hr.
    assert (Hr' : cart (renderRows c 0 w1).2 = c /\
                  storage (renderRows c 0 w1).2 = storage w /\
                  trace (renderRows c 0 w1).2 = trace w /\
                  modalOverlay (page (renderRows c 0 w1).2) = modalOverlay (page w) /\
                  modalImage (page (renderRows c 0 w1).2) = modalImage (page w) /\
                  bodyOverflow (page (renderRows c 0 w1).2) = bodyOverflow (page w)).
    { destruct Hr as (?&?&?&?&?&?&?&?&?&?). by repeat split. }
    clear Hr.
    destruct (renderRows c 0 w1) as [[[]|e] w2]; cbn [fst snd] in *; [|done].
    destruct (cartTotal (page w)); [|done].
    pose proof (sumPrices_pure c (VNum zero) w2) as Hs.
    destruct (sumPrices c (VNum zero) w2) as [[total|e] w3];
      cbn [fst snd] in *; subst w3; [|done].
    pose proof (callToFixed2_pure total w2) as Hf.
    destruct (callToFixed2 total w2) as [[text|e] w3];
      cbn [fst snd] in *; subst w3; [|done].
    simpl. done.
Qed.

Lemma updateCartUI_cart w : cart (exec updateCartUI w) = cart w.
Proof. apply (updateCartUI_frame w). Qed.

Lemma updateCartUI_storage w : storage (exec updateCartUI w) = storage w.
Proof. apply (updateCartUI_frame w). Qed.

Lemma updateCartUI_trace w : trace (exec updateCartUI w) = trace w.
Proof. apply (updateCartUI_frame w). Qed.

(** ** Saving *)

(** With usable storage [saveCart] writes the JSON text of the cart
    under the cart key and does nothing else. *)
Lemma saveCart_usable w :
  storageUsable (storage w) (cartText (cart w)) ->
  saveCart w =
  (Normal tt,
   {| cart := cart w;
      storage := {| storageInterface := storageInterface (storage w);
                    access := access (storage w);
                    items := <[cartKey := cartText (cart w)]> (items (storage w));
                    setItemError := setItemError (storage w) |};
      page := page w; trace := trace w |}).
Proof.
  destruct w as [c [si ac its er] p t]. intros (Hi & Ha & He).
  cbn [storage cart storageInterface access items setItemError] in *. subst.
  unfold saveCart, readLocalStorage, setItem, cartText in *. unfold_monad.
  cbn [storage cart storageInterface access items setItemError negb].
  by rewrite He.
Qed.

Ltac cbn_world :=
  cbn [storage cart page trace storageInterface access items setItemError negb
       fst snd].

(** Whatever the storage does, [saveCart] returns normally, leaves the
    cart and the page alone, and at most logs one warning. *)
Lemma saveCart_frame w :
  let w' := exec saveCart w in
  completion saveCart w = Normal tt /\ cart w' = cart w /\ page w' = page w /\
  (trace w' = trace w \/ exists msg args, trace w' = (trace w ++ [Warn msg args])%list) /\
  (storage w' = storage w \/ storageUsable (storage w) (cartText (cart w))).
Proof.
  destruct w as [c [si ac its er] p t].
  unfold saveCart, readLocalStorage, setItem, storageUsable, cartText.
  unfold_monad. cbn_world.
  destruct si; cbn_world; [|by auto 10].
  destruct ac; cbn_world; [by auto 10|by eauto 10|].
  destruct (er cartKey (default "undefined" (Js.stringify (VArr c))) its) eqn:Her;
    cbn_world; [by eauto 10|by auto 10].
Qed.

Lemma saveCart_cart w : cart (exec saveCart w) = cart w.
Proof. apply (saveCart_frame w). Qed.

Lemma saveCart_page w : page (exec saveCart w) = page w.
Proof. apply (saveCart_frame w). Qed.

Lemma saveCart_normal w : fst (saveCart w) = Normal tt.
Proof. apply (saveCart_frame w). Qed.

(* ===================================================================== *)
(** ** Adding an item *)
(* ===================================================================== *)

Lemma totalOf_eq c w : fst (sumPrices c (VNum zero) w) = totalOf c.
Proof. apply sumPrices_indep. Qed.

Lemma nonNegative_passes p :
  nonNegative p -> is_nan p = false /\ ltb p zero = false.
Proof.
  unfold nonNegative, geb, ltb, SFleb, SFltb.
  destruct p as [[]|[]| |[] m e]; simpl; intros H; try discriminate; done.
Qed.

Lemma sumPrices_app c item : forall sum w,
  fst (sumPrices (c ++ [item]) sum w) =
  match fst (sumPrices c sum w) with
  | Normal t => fst ((price ← getProp item "price"; convert (plus t price)) w)
  | Throw e => Throw e
  end.
Proof.
  induction c as [|x c IH]; intros sum w; simpl.
  - unfold_monad. destruct (getProp item "price" w) as [[p|e] w1]; [|done].
    by destruct (convert (plus sum p) w1) as [[t|e] w2].
  - unfold_monad.
    pose proof (getProp_pure x "price" w) as Hg.
    destruct (getProp x "price" w) as [[p|e] w1]; simpl in Hg; subst w1; [|done].
    destruct (plus sum p) as [sum'|]; [|done].
    rewrite convert_Some. apply IH.
Qed.

Lemma totalOf_snoc c name p id :
  totalOf (c ++ [cartItem name (VNum p) id]) = addPrice (totalOf c) (VNum p).
Proof.
  unfold totalOf. rewrite sumPrices_app. unfold addPrice.
  match goal with |- context [fst (sumPrices c ?s ?w)] =>
    destruct (fst (sumPrices c s w)) as [t|e]; [|done] end.
  unfold_monad. simpl. by destruct (plus t (VNum p)).
Qed.

Lemma priced_getProp item w :
  priced item ->
  getProp item "name" w = (Normal (nameOf item), w) /\
  getProp item "price" w = (Normal (VNum (numPrice item)), w).
Proof.
  intros [p Hp]. unfold numPrice. rewrite Hp.
  destruct item; try discriminate. simpl in *. unfold_monad.
  unfold priceOf, propOf in Hp. by rewrite Hp.
Qed.

Lemma plus_numbers x y : plus (VNum x) (VNum y) = Some (VNum (add x y)).
Proof. done. Qed.

Lemma sumPrices_priced items : forall t w,
  Forall priced items ->
  sumPrices items (VNum t) w =
  (Normal (VNum (foldl (fun t item => add t (numPrice item)) t items)), w).
Proof.
  induction items as [|item rest IH]; intros t w Hall; [done|].
  apply Forall_cons in Hall as [Hitem Hrest].
  destruct (priced_getProp item w Hitem) as [_ Hp].
  simpl. unfold_monad. rewrite Hp, plus_numbers, convert_Some.
  exact (IH _ w Hrest).
Qed.

Lemma totalOf_priced c :
  Forall priced c -> totalOf c = Normal (VNum (sumOfPrices c)).
Proof. intros H. unfold totalOf. by rewrite sumPrices_priced. Qed.

(** What [addToCart] does once its checks pass. *)
Lemma invalidPrice_number p :
  invalidPrice (VNum p) = Some (is_nan p || ltb p zero).
Proof. unfold invalidPrice, isNaN, ltZero. simpl. by destruct (is_nan p). Qed.

Lemma addToCart_accepted w name price p en :
  toBoolean name = true -> parsesTo price p -> nonNegative p ->
  cart (exec (addToCart name price en) w)
  = (cart w ++ [cartItem name (VNum p) (newId en)])%list.
Proof.
  intros Hname Hprice Hp. apply nonNegative_passes in Hp as [Hnan Hlt].
  unfold addToCart. rewrite Hname. simpl.
  assert (Hparsed : match price with VStr s => VNum (parseFloat s) | _ => price end
                    = VNum p) by (by destruct Hprice).
  rewrite Hparsed, invalidPrice_number, Hnan, Hlt. simpl.
  unfold exec. unfold_monad. simpl.
  set (w1 := {| cart := (cart w ++ [cartItem name (VNum p) (newId en)])%list;
                storage := storage w; page := page w; trace := trace w |}).
  pose proof (saveCart_frame w1) as (Hc & Hcart & _).
  unfold exec, completion in Hc, Hcart.
  destruct (saveCart w1) as [[[]|e] w2]; simpl in Hc, Hcart; [|discriminate].
  pose proof (updateCartUI_cart w2) as Hu. unfold exec in Hu.
  destruct (updateCartUI w2) as [[[]|e] w3]; simpl in *; congruence.
Qed.

(** C1, as the script has it.  For every state of the page,
    [addToCart] with a non-empty name and a price that is, or that
    [parseFloat] reads as, a number [p >= 0] appends exactly one item,
    built from that name, [p] and a new id: the cart is the old cart
    followed by that item, so its length grows by one and the items
    that were there keep their places.  The total of the prices, as
    [cart.reduce] computes it, is the old total [+ p]; when every item
    that was there has a number for a price, the old total is the
    left-to-right sum of the prices from 0 and the new one is that sum
    plus [p], each addition rounding to the nearest binary64 number. *)
Theorem addToCart_appends_one (w : World) (name : string) (price : value)
    (p : number) (en : Entropy) :
  name <> "" -> parsesTo price p -> nonNegative p ->
  let w' := exec (addToCart (VStr name) price en) w in
  cart w' = (cart w ++ [cartItem (VStr name) (VNum p) (newId en)])%list /\
  length (cart w') = S (length (cart w)) /\
  (forall i item, cart w !! i = Some item -> cart w' !! i = Some item) /\
  totalOf (cart w') = addPrice (totalOf (cart w)) (VNum p) /\
  (Forall priced (cart w) ->
   totalOf (cart w) = Normal (VNum (sumOfPrices (cart w))) /\
   totalOf (cart w') = Normal (VNum (add (sumOfPrices (cart w)) p))).
Proof.
  intros Hname Hprice Hp w'.
  assert (Hcart : cart w' = (cart w ++ [cartItem (VStr name) (VNum p) (newId en)])%list).
  { apply addToCart_accepted; [by destruct name|done|done]. }
  rewrite Hcart. repeat split.
  - rewrite length_app. simpl. lia.
  - intros i item Hi. by apply lookup_app_l_Some.
  - apply totalOf_snoc.
  - by apply totalOf_priced.
  - rewrite totalOf_snoc, totalOf_priced by done. done.
Qed.

Lemma oneItemWorld_priced : Forall priced (cart oneItemWorld).
Proof.
  change (Forall priced [cartItem (VStr "Sunset Print") (VNum price25) (newId entropy1)]).
  repeat constructor. by exists price25.
Qed.

Lemma addToCart_appends_one_witness :
  "Ocean Wave" <> "" /\ parsesTo (VStr "40") price40 /\ nonNegative price40 /\
  let w' := exec (addToCart (VStr "Ocean Wave") (VStr "40") entropy2) oneItemWorld in
  cart w' = (cart oneItemWorld
             ++ [cartItem (VStr "Ocean Wave") (VNum price40) (newId entropy2)])%list /\
  length (cart w') = 2%nat /\
  totalOf (cart oneItemWorld) = Normal (VNum price25) /\
  totalOf (cart w') = Normal (VNum (ofZ 65)).
Proof.
  assert (Hname : "Ocean Wave" <> "") by discriminate.
  assert (Hparse : parsesTo (VStr "40") price40) by exact (parses_string "40").
  assert (Hpos : nonNegative price40) by reflexivity.
  split; [exact Hname|]. split; [exact Hparse|]. split; [exact Hpos|].
  destruct (addToCart_appends_one oneItemWorld "Ocean Wave" (VStr "40") price40 entropy2
              Hname Hparse Hpos) as (Hcart & Hlen & _ & _ & Htotal).
  destruct (Htotal oneItemWorld_priced) as [Hold Hnew].
  split; [exact Hcart|]. split; [exact Hlen|].
  split; [exact Hold|exact Hnew].
Defined.

(** C1 as stated fails: the total is kept in binary64, where adding a
    price need not move it by that price.  On a cart whose total is
    2^53, adding an item at the price 1 leaves the total at 2^53; and
    after items at 0.1 and at 0.2 the total is not the number 0.3. *)
Lemma addToCart_total_unmoved :
  parsesTo (VStr "1") (ofZ 1) /\ nonNegative (ofZ 1) /\ ofZ 1 <> zero /\
  cart (exec (addToCart (VStr "Frame") (VStr "1") entropy2) largePriceWorld)
  = (cart largePriceWorld
     ++ [cartItem (VStr "Frame") (VNum (ofZ 1)) (newId entropy2)])%list /\
  totalOf (cart largePriceWorld) = Normal (VNum (ofZ (2 ^ 53))) /\
  totalOf (cart (exec (addToCart (VStr "Frame") (VStr "1") entropy2) largePriceWorld))
  = Normal (VNum (ofZ (2 ^ 53))) /\
  totalOf (cart (exec (addToCart (VStr "Stamp") (VStr "0.2") entropy2)
                   (exec (addToCart (VStr "Card") (VStr "0.1") entropy1) freshWorld)))
  = Normal (VNum (add (parseFloat "0.1") (parseFloat "0.2"))) /\
  add (parseFloat "0.1") (parseFloat "0.2") <> parseFloat "0.3".
Proof. split; [exact (parses_string "1")|by_evaluation]. Qed.

(** *** Rejected arguments *)

Lemma rejectedPrice_check price :
  rejectedPrice price ->
  invalidPrice (match price with VStr s => VNum (parseFloat s) | _ => price end)
  = Some true.
Proof.
  destruct price as [| |b|x|s|l|ps]; simpl; try done.
  - rewrite invalidPrice_number. intros [->| ->]; [done|by rewrite orb_true_r].
  - rewrite invalidPrice_number. intros [->| ->]; [done|by rewrite orb_true_r].
  - intros Hown. unfold invalidPrice, isNaN, toNumber. simpl. by rewrite Hown.
Qed.

(** C2, as the script has it.  [addToCart] with an empty name (or any
    other falsy name), or with a price that is NaN or a negative
    number, a string that [parseFloat] reads as NaN or as a negative
    number, [undefined], or a plain object that has a string form,
    returns normally and leaves the cart, the storage and the page as
    they were; it logs one warning and nothing else. *)
Theorem addToCart_rejects (w : World) (name price : value) (en : Entropy) :
  toBoolean name = false \/ rejectedPrice price ->
  exists msg args,
    addToCart name price en w =
    (Normal tt,
     {| cart := cart w; storage := storage w; page := page w;
        trace := (trace w ++ [Warn msg args])%list |}).
Proof.
  intros H. unfold addToCart.
  destruct (toBoolean name) eqn:Hname; simpl.
  - destruct H as [H|H]; [discriminate|].
    apply rejectedPrice_check in H. rewrite H. by eexists _, _.
  - by eexists _, _.
Qed.

Lemma addToCart_rejects_witness :
  (toBoolean (VStr "") = false \/ rejectedPrice (VStr "free")) /\
  exists msg args,
    addToCart (VStr "") (VStr "free") entropy1 oneItemWorld =
    (Normal tt,
     {| cart := cart oneItemWorld; storage := storage oneItemWorld;
        page := page oneItemWorld;
        trace := (trace oneItemWorld ++ [Warn msg args])%list |}).
Proof.
  assert (H : toBoolean (VStr "") = false \/ rejectedPrice (VStr "free"))
    by (left; reflexivity).
  split; [exact H|].
  exact (addToCart_rejects oneItemWorld (VStr "") (VStr "free") entropy1 H).
Defined.

(** C2 as stated fails: the price [null] is not a number, yet the call
    is no no-op.  The check lets [null] through ([isNaN(null)] and
    [null < 0] are both false), an item with that price is appended
    and saved, and [updateCartUI] then throws at it; no warning is
    logged. *)
Lemma addToCart_null_price_appends :
  cart (exec (addToCart (VStr "Frame") VNull entropy1) freshWorld)
    = [cartItem (VStr "Frame") VNull (newId entropy1)] /\
  cart (exec (addToCart (VStr "Frame") VNull entropy1) freshWorld)
    <> cart freshWorld /\
  completion (addToCart (VStr "Frame") VNull entropy1) freshWorld
    = Throw (TypeError "Cannot read properties of null") /\
  trace (exec (addToCart (VStr "Frame") VNull entropy1) freshWorld) = [].
Proof. by_evaluation. Qed.

(** A price that has no primitive form makes the check itself throw:
    nothing is logged and nothing changes. *)
Example addToCart_object_price_throws :
  addToCart (VStr "Frame") (VObj [("toString", VNum (ofZ 1))]) entropy1 oneItemWorld
  = (Throw conversionError, oneItemWorld).
Proof. reflexivity. Qed.

(** A string with a numeral at its head is read as that numeral. *)
Example addToCart_lenient_string :
  parseFloat "12abc" = ofZ 12 /\
  cart (exec (addToCart (VStr "Frame") (VStr "12abc") entropy1) freshWorld)
    = [cartItem (VStr "Frame") (VNum (ofZ 12)) (newId entropy1)].
Proof. split; reflexivity. Qed.

(** Rejections the claim names, on sample arguments. *)
Example addToCart_rejects_samples :
  rejectedPrice (VNum (ofZ (-5))) /\ rejectedPrice (VNum NaN) /\
  rejectedPrice (VStr "abc") /\ rejectedPrice (VStr "-5") /\
  rejectedPrice (VStr "") /\ rejectedPrice VUndefined.
Proof. repeat split; (by left) || (by right) || done. Qed.

(* ===================================================================== *)
(** ** Removing an item *)
(* ===================================================================== *)

(** [splice] deletes at some position, or nowhere. *)
Lemma spliceOne_delete {A} (x : number) (l : list A) :
  exists k, spliceOne x l = delete k l.
Proof. unfold spliceOne. by eexists. Qed.

Lemma delete_out_of_range {A} (i : nat) (l : list A) :
  (length l <= i)%nat -> delete i l = l.
Proof.
  intros H. rewrite delete_take_drop, take_ge, drop_ge by lia.
  apply app_nil_r.
Qed.

(** A start value that truncates to [i] deletes at [i]. *)
Lemma spliceOne_at {A} (x : number) (i : nat) (l : list A) :
  is_finite x = true -> truncate x = Z.of_nat i -> spliceOne x l = delete i l.
Proof.
  intros Hfin Htr. unfold spliceOne.
  assert (Hstart : (let r := truncate x in
                    if r <? 0 then Z.max (Z.of_nat (length l) + r) 0
                    else Z.min r (Z.of_nat (length l)))
                   = Z.min (Z.of_nat i) (Z.of_nat (length l))).
  { cbn zeta. rewrite Htr. destruct (Z.ltb_spec (Z.of_nat i) 0); [lia|done]. }
  destruct x as [s|s| |s m e]; try discriminate; cbn zeta in Hstart |- *;
    rewrite Hstart; clear Hstart.
  - destruct (decide (i < length l)%nat).
    + by rewrite Z.min_l, Nat2Z.id by lia.
    + rewrite Z.min_r, Nat2Z.id by lia.
      by rewrite !delete_out_of_range by lia.
  - destruct (decide (i < length l)%nat).
    + by rewrite Z.min_l, Nat2Z.id by lia.
    + rewrite Z.min_r, Nat2Z.id by lia.
      by rewrite !delete_out_of_range by lia.
Qed.

(** An index that is not a number, is negative, or is at least the
    length is turned down: nothing changes but for one warning. *)
Lemma removeItem_rejects w index :
  (isNumber index = false \/
   exists x, index = VNum x /\
     (ltb x zero = true \/ geb x (ofZ (Z.of_nat (length (cart w)))) = true)) ->
  removeItem index w =
  (Normal tt,
   {| cart := cart w; storage := storage w; page := page w;
      trace := (trace w ++ [Warn "Cannot remove item: invalid index" [LogValue index]])%list |}).
Proof.
  intros [H|(x & -> & H)].
  - by destruct index.
  - unfold removeItem. unfold_monad. simpl.
    destruct H as [-> | ->]; [done|by rewrite orb_true_r].
Qed.

(** A number that passes both comparisons is handed to [splice]. *)
Lemma removeItem_passes w x :
  ltb x zero = false -> geb x (ofZ (Z.of_nat (length (cart w)))) = false ->
  cart (exec (removeItem (VNum x)) w) = spliceOne x (cart w).
Proof.
  intros Hlt Hge. unfold removeItem, exec. unfold_monad. simpl.
  rewrite Hlt, Hge. simpl.
  set (w1 := {| cart := spliceOne x (cart w); storage := storage w;
                page := page w; trace := trace w |}).
  pose proof (saveCart_frame w1) as (Hc & Hcart & _).
  unfold exec, completion in Hc, Hcart.
  destruct (saveCart w1) as [[[]|e] w2]; simpl in Hc, Hcart; [|discriminate].
  pose proof (updateCartUI_cart w2) as Hu. unfold exec in Hu.
  destruct (updateCartUI w2) as [[[]|e] w3]; simpl in *; congruence.
Qed.

(** With a whole index inside the cart, exactly the item at that index
    goes: the cart is shorter by one and the others keep their order. *)
Lemma removeItem_in_range w x (i : nat) :
  (i < length (cart w))%nat -> is_finite x = true -> truncate x = Z.of_nat i ->
  ltb x zero = false -> geb x (ofZ (Z.of_nat (length (cart w)))) = false ->
  let c' := cart (exec (removeItem (VNum x)) w) in
  c' = delete i (cart w) /\ S (length c') = length (cart w) /\
  c' = (take i (cart w) ++ drop (S i) (cart w))%list.
Proof.
  intros Hi Hfin Htr Hlt Hge c'. subst c'.
  rewrite removeItem_passes by done. rewrite (spliceOne_at x i) by done.
  split; [done|]. split.
  - rewrite length_delete; [lia|]. by apply lookup_lt_is_Some_2.
  - by rewrite delete_take_drop.
Qed.

(** After any call the cart is the old one, or the old one with one
    position deleted. *)
Lemma removeItem_cart w index :
  exists k, cart (exec (removeItem index) w) = cart w \/
            cart (exec (removeItem index) w) = delete k (cart w).
Proof.
  assert (Hrej : forall v,
    removeItem v w =
    (Normal tt,
     {| cart := cart w; storage := storage w; page := page w;
        trace := (trace w ++ [Warn "Cannot remove item: invalid index" [LogValue v]])%list |}) ->
    cart (exec (removeItem v) w) = cart w).
  { intros v Hv. unfold exec. by rewrite Hv. }
  destruct (isNumber index) eqn:Hnum.
  - destruct index as [| | |x| | |]; try discriminate.
    destruct (ltb x zero) eqn:Hlt.
    { exists 0%nat. left. apply Hrej, removeItem_rejects. right. eauto. }
    destruct (geb x (ofZ (Z.of_nat (length (cart w))))) eqn:Hge.
    { exists 0%nat. left. apply Hrej, removeItem_rejects. right. eauto. }
    destruct (spliceOne_delete x (cart w)) as [k Hk].
    exists k. right. by rewrite removeItem_passes, Hk.
  - exists 0%nat. left. apply Hrej, removeItem_rejects. by left.
Qed.

(** *** Whole numbers as indices *)

Lemma digits2_pos_size p : digits2_pos p = Pos.size p.
Proof. induction p as [p IH|p IH|]; simpl; by rewrite ?IH. Qed.

Lemma digits2_pos_iter p k :
  digits2_pos (Pos.iter xO p k) = (digits2_pos p + k)%positive.
Proof.
  induction k as [|k IH] using Pos.peano_ind.
  - simpl. lia.
  - rewrite Pos.iter_succ. simpl. rewrite IH. lia.
Qed.

Lemma pos_iter_xO p k : Z.pos (Pos.iter xO p k) = Z.pos p * 2 ^ Z.pos k.
Proof.
  induction k as [|k IH] using Pos.peano_ind.
  - simpl. lia.
  - rewrite Pos.iter_succ, Pos2Z.inj_xO, IH, Pos2Z.inj_succ, Z.pow_succ_r by lia. lia.
Qed.

(** A mantissa and exponent already in canonical form are kept by
    rounding. *)
Lemma binary_round_aux_canonical m e :
  fexp prec emax (Z.pos (digits2_pos m) + e) = e -> e <= emax - prec ->
  binary_round_aux prec emax false (Z.pos m) e loc_Exact = S754_finite false m e.
Proof.
  intros Hcan Hle. unfold binary_round_aux, shr_fexp.
  cbn [Zdigits2 shr_record_of_loc]. rewrite Hcan, Z.sub_diag.
  cbn [shr shr_m loc_of_shr_record round_nearest_even Zdigits2 shr_record_of_loc].
  rewrite Hcan, Z.sub_diag. cbn [shr shr_m].
  apply Z.leb_le in Hle. by rewrite Hle.
Qed.

Lemma ofZ_pos p :
  Z.pos (digits2_pos p) <= 53 ->
  ofZ (Z.pos p) = S754_finite false (mantissaOf p) (Z.pos (digits2_pos p) - 53).
Proof.
  intros Hd. unfold ofZ, binary_normalize, binary_round, mantissaOf.
  assert (Hfexp : fexp prec emax (Z.pos (digits2_pos p) + 0)
                  = Z.pos (digits2_pos p) - 53).
  { unfold fexp, emin, prec, emax. lia. }
  rewrite Hfexp. unfold shl_align. rewrite Z.sub_0_r.
  destruct (Z.pos (digits2_pos p) - 53) as [|q|k] eqn:Hk; [|lia|].
  - apply binary_round_aux_canonical.
    + unfold fexp, emin, prec, emax. lia.
    + unfold emax, prec. lia.
  - apply binary_round_aux_canonical.
    + rewrite digits2_pos_iter. unfold fexp, emin, prec, emax. lia.
    + unfold emax, prec. lia.
Qed.

Lemma mantissaOf_value p :
  Z.pos (digits2_pos p) <= 53 ->
  Z.pos (mantissaOf p) = Z.pos p * 2 ^ (53 - Z.pos (digits2_pos p)).
Proof.
  intros Hd. unfold mantissaOf.
  destruct (Z.pos (digits2_pos p) - 53) as [|q|k] eqn:Hk; [|lia|].
  - replace (53 - Z.pos (digits2_pos p)) with 0 by lia. lia.
  - rewrite pos_iter_xO. f_equal. f_equal. lia.
Qed.

(** Bounds on a number by the count of its binary digits. *)
Lemma digits2_pos_bounds p :
  2 ^ (Z.pos (digits2_pos p) - 1) <= Z.pos p < 2 ^ Z.pos (digits2_pos p).
Proof.
  rewrite digits2_pos_size. split.
  - pose proof (Pos.size_le p) as H.
    assert (H' : 2 ^ Z.pos (Pos.size p) <= 2 * Z.pos p).
    { change (2 * Z.pos p) with (Z.pos p~0). rewrite <- Pos2Z.inj_pow. lia. }
    replace (Z.pos (Pos.size p)) with (Z.succ (Z.pos (Pos.size p) - 1)) in H' by lia.
    rewrite Z.pow_succ_r in H' by lia. lia.
  - pose proof (Pos.size_gt p) as H. rewrite <- Pos2Z.inj_pow. lia.
Qed.

Lemma digits2_pos_lt a b :
  Z.pos (digits2_pos a) < Z.pos (digits2_pos b) -> Z.pos a < Z.pos b.
Proof.
  intros H. pose proof (digits2_pos_bounds a) as [_ Ha].
  pose proof (digits2_pos_bounds b) as [Hb _].
  assert (2 ^ Z.pos (digits2_pos a) <= 2 ^ (Z.pos (digits2_pos b) - 1))
    by (apply Z.pow_le_mono_r; lia).
  lia.
Qed.

(** Whole numbers of at most 53 bits compare as numbers the way they
    compare as integers. *)
Lemma SFcompare_ofZ_pos a b :
  Z.pos (digits2_pos a) <= 53 -> Z.pos (digits2_pos b) <= 53 ->
  SFcompare (ofZ (Z.pos a)) (ofZ (Z.pos b)) = Some (Pos.compare a b).
Proof.
  intros Ha Hb. rewrite !ofZ_pos by done. cbn [SFcompare]. f_equal.
  destruct (Z.compare_spec (Z.pos (digits2_pos a) - 53) (Z.pos (digits2_pos b) - 53))
    as [He|He|He].
  - assert (Hd : digits2_pos a = digits2_pos b) by lia.
    change (Pos.compare_cont Eq (mantissaOf a) (mantissaOf b))
      with (Pos.compare (mantissaOf a) (mantissaOf b)).
    rewrite !Pos2Z.inj_compare.
    rewrite !mantissaOf_value, Hd by done.
    assert (Hk : 0 < 2 ^ (53 - Z.pos (digits2_pos b))) by (apply Z.pow_pos_nonneg; lia).
    destruct (Z.compare_spec (Z.pos a * 2 ^ (53 - Z.pos (digits2_pos b)))
                (Z.pos b * 2 ^ (53 - Z.pos (digits2_pos b))));
      destruct (Z.compare_spec (Z.pos a) (Z.pos b)); try done; nia.
  - symmetry. apply Pos.compare_lt_iff. apply digits2_pos_lt. lia.
  - symmetry. apply Pos.compare_gt_iff. apply digits2_pos_lt. lia.
Qed.

Lemma digits2_pos_small p : Z.pos p < 2 ^ 53 -> Z.pos (digits2_pos p) <= 53.
Proof.
  intros Hp. pose proof (digits2_pos_bounds p) as [Hlo _].
  destruct (Z.le_gt_cases (Z.pos (digits2_pos p)) 53) as [|Hgt]; [done|].
  assert (2 ^ 53 <= 2 ^ (Z.pos (digits2_pos p) - 1)) by (apply Z.pow_le_mono_r; lia).
  lia.
Qed.

(** Comparison and truncation of the numbers [0, 1, 2, ...] below
    [2^53]. *)
Lemma ofZ_compare (i n : Z) :
  0 <= i < 2 ^ 53 -> 0 <= n < 2 ^ 53 ->
  ltb (ofZ i) zero = false /\
  geb (ofZ i) (ofZ n) = (n <=? i) /\
  is_finite (ofZ i) = true /\ truncate (ofZ i) = i.
Proof.
  intros Hi Hn. destruct i as [|a|a]; [| |lia].
  - split; [done|]. split; [|done].
    destruct n as [|b|b]; [done| |lia].
    rewrite ofZ_pos by (apply digits2_pos_small; lia). done.
  - pose proof (digits2_pos_small a ltac:(lia)) as Ha.
    split; [by rewrite ofZ_pos|]. split; [|split; [by rewrite ofZ_pos|]].
    + destruct n as [|b|b]; [by rewrite ofZ_pos| |lia].
      unfold geb, SFleb. rewrite SFcompare_ofZ_pos by (done || apply digits2_pos_small; lia).
      rewrite Pos2Z.inj_compare. unfold Z.leb.
      by destruct (Z.pos b ?= Z.pos a).
    + rewrite ofZ_pos by done. unfold truncate.
      rewrite mantissaOf_value by done.
      destruct (Z.leb_spec 0 (Z.pos (digits2_pos a) - 53)).
      * replace (Z.pos (digits2_pos a) - 53) with 0 by lia.
        replace (53 - Z.pos (digits2_pos a)) with 0 by lia. lia.
      * replace (- (Z.pos (digits2_pos a) - 53)) with (53 - Z.pos (digits2_pos a)) by lia.
        apply Z.div_mul. apply Z.pow_nonzero; lia.
Qed.

(** The Remove button of row [i], on a cart of fewer than [2^53]
    items: inside the cart it removes exactly the item at [i], the
    others keeping their order; past the end it removes nothing. *)
Lemma removeButtonClick_spec w (i : nat) :
  Z.of_nat (length (cart w)) < 2 ^ 53 -> Z.of_nat i < 2 ^ 53 ->
  cart (exec (removeButtonClick i) w) = delete i (cart w) /\
  ((i < length (cart w))%nat ->
   S (length (cart (exec (removeButtonClick i) w))) = length (cart w)).
Proof.
  intros Hlen Hsmall. unfold removeButtonClick.
  destruct (ofZ_compare (Z.of_nat i) (Z.of_nat (length (cart w))))
    as (Hlt & Hge & Hfin & Htr); [lia|lia|].
  destruct (decide (i < length (cart w))%nat) as [Hi|Hi].
  - assert (Hge' : geb (ofZ (Z.of_nat i)) (ofZ (Z.of_nat (length (cart w)))) = false).
    { rewrite Hge. apply Z.leb_gt. lia. }
    destruct (removeItem_in_range w (ofZ (Z.of_nat i)) i Hi Hfin Htr Hlt Hge')
      as (Hc & Hl & _).
    split; [done|]. intros _. by rewrite Hl.
  - split; [|lia]. rewrite delete_out_of_range by lia.
    unfold exec. rewrite removeItem_rejects; [done|]. right.
    eexists. split; [done|]. right. rewrite Hge. apply Z.leb_le. lia.
Qed.

(** C3: the index check misses NaN.  [removeItem(NaN)] on the
    two-item cart logs no warning and removes the first item: NaN is
    neither below 0 nor at least the length, and [splice] reads it as 0.
    A fraction such as 0.5 passes the same way and removes item 0. *)
Theorem removeItem_NaN_removes_first :
  let w' := exec (removeItem (VNum NaN)) twoItemWorld in
  length (cart twoItemWorld) = 2%nat /\
  cart w' = drop 1 (cart twoItemWorld) /\
  trace w' = trace twoItemWorld /\
  cart (exec (removeItem (VNum (ofDecimal false 5 (-1)))) twoItemWorld)
    = drop 1 (cart twoItemWorld).
Proof. by_evaluation. Qed.

(** The in-range case on the sample cart: index 0, then index 1. *)
Example removeItem_sample :
  cart (exec (removeItem (VNum (ofZ 0))) twoItemWorld) = drop 1 (cart twoItemWorld) /\
  cart (exec (removeItem (VNum (ofZ 1))) twoItemWorld) = take 1 (cart twoItemWorld) /\
  cart (exec (removeItem (VNum (ofZ 2))) twoItemWorld) = cart twoItemWorld /\
  cart (exec (removeItem (VNum (ofZ (-1)))) twoItemWorld) = cart twoItemWorld /\
  cart (exec (removeItem (VStr "0")) twoItemWorld) = cart twoItemWorld.
Proof. by_evaluation. Qed.

(* ===================================================================== *)
(** ** Loading *)
(* ===================================================================== *)

Lemma loadCart_spec w :
  loadCart w =
  (Normal tt,
   {| cart := loadedCart (persisted (storage w));
      storage := storage w; page := page w;
      trace := (trace w ++ loadWarnings (persisted (storage w)))%list |}).
Proof.
  destruct w as [c [si ac its er] p t].
  unfold loadCart, persisted, readLocalStorage, getItem, jsonParse.
  unfold_monad. simpl.
  destruct si; simpl; [|done].
  destruct ac; simpl; [done|done|].
  destruct (its !! cartKey) as [[|ch text]|]; simpl;
    [by rewrite app_nil_r | | by rewrite app_nil_r].
  destruct (parse (String ch text)) as [[]|]; simpl; try done.
  by rewrite app_nil_r.
Qed.

(** C6, as the script has it.  [loadCart] never throws, and touches
    neither the storage nor the page.  The cart is reset to the empty
    sequence whenever the storage is missing or blocked, nothing (or
    the empty string) is stored under the key, the stored text is not
    JSON, or the JSON value is not an array; one warning is logged in
    each of these cases except when nothing is stored.  A stored array
    becomes the cart as it is, with no look at its elements and no
    warning. *)
Theorem loadCart_resets_or_adopts (w : World) :
  let w' := exec loadCart w in
  completion loadCart w = Normal tt /\
  storage w' = storage w /\ page w' = page w /\
  match persisted (storage w) with
  | StoredArray l => cart w' = l /\ trace w' = trace w
  | NothingStored => cart w' = [] /\ trace w' = trace w
  | NoStorage | BlockedStorage _ | Unreadable _ | NotAnArray _ =>
      cart w' = [] /\ exists msg args, trace w' = (trace w ++ [Warn msg args])%list
  end.
Proof.
  unfold exec, completion. rewrite loadCart_spec. simpl.
  repeat split; destruct (persisted (storage w)); simpl;
    rewrite ?app_nil_r; eauto.
Qed.

(** C6 as stated fails: a stored array that is not a sequence of cart
    items is not reset, it becomes the cart; and with nothing stored the
    reset comes without a warning. *)
Lemma loadCart_adopts_any_array :
  cart (exec loadCart (storedWorld "[1,2,3]"))
    = [VNum (ofZ 1); VNum (ofZ 2); VNum (ofZ 3)] /\
  cart (exec loadCart (storedWorld "[1,2,3]")) <> [] /\
  cart (exec loadCart (storedWorld "[null]")) = [VNull] /\
  trace (exec loadCart freshWorld) = [].
Proof. by_evaluation. Qed.

(** The resets the claim names, on sample storages. *)
Example loadCart_reset_samples :
  cart (exec loadCart freshWorld) = [] /\
  cart (exec loadCart (storedWorld "not json")) = [] /\
  cart (exec loadCart (storedWorld "{}")) = [] /\
  cart (exec loadCart (storedWorld "null")) = [] /\
  cart (exec loadCart (storedWorld "[")) = [].
Proof. by_evaluation. Qed.

(* ===================================================================== *)
(** ** The cart invariant *)
(* ===================================================================== *)

Lemma cartInvariant_nil : cartInvariant [].
Proof. split; constructor. Qed.

Lemma cartInvariant_delete k c : cartInvariant c -> cartInvariant (delete k c).
Proof.
  intros [Hids Hprices]. split.
  - assert (Hmap : idOf <$> delete k c = delete k (idOf <$> c)).
    { clear. revert k. induction c as [|x c IH]; intros [|k]; simpl; try done.
      by rewrite IH. }
    rewrite Hmap. eapply sublist_NoDup; [exact Hids|apply sublist_delete].
  - rewrite Forall_forall in Hprices |- *. intros x Hx.
    by eapply Hprices, list_elem_of_delete_inv.
Qed.

Lemma cartInvariant_snoc c name p id :
  cartInvariant c -> is_finite p = true -> nonNegative p ->
  VStr id ∉ idOf <$> c ->
  cartInvariant (c ++ [cartItem name (VNum p) id]).
Proof.
  intros [Hids Hprices] Hfin Hpos Hfresh. split.
  - rewrite fmap_app. apply NoDup_app. split; [done|]. split.
    + intros x Hx Hx'. apply list_elem_of_singleton in Hx'. by subst x.
    + apply NoDup_singleton.
  - apply Forall_app. split; [done|]. apply Forall_singleton. by exists p.
Qed.

Lemma finite_not_negative p :
  is_finite p = true -> ltb p zero = false -> nonNegative p.
Proof.
  unfold nonNegative, geb, ltb, SFleb, SFltb.
  by destruct p as [[]|[]| |[] m e].
Qed.

(** The cart after [clearCart]. *)
Lemma clearCart_cart w answer :
  cart (exec (clearCart answer) w) = if answer then [] else cart w.
Proof.
  unfold clearCart, exec. unfold_monad. simpl.
  destruct (cart w) as [|item rest] eqn:Hc; simpl.
  { by destruct answer. }
  destruct answer; simpl; [|done].
  match goal with |- context [saveCart ?w0] => set (w1 := w0) end.
  pose proof (saveCart_frame w1) as (Hn & Hcart & _).
  unfold exec, completion in Hn, Hcart.
  destruct (saveCart w1) as [[[]|e] w2]; simpl in Hn, Hcart; [|discriminate].
  pose proof (updateCartUI_cart w2) as Hu. unfold exec in Hu.
  destruct (updateCartUI w2) as [[[]|e] w3]; simpl in *; congruence.
Qed.

(** The cart after [addToCart]: as it was, or with one item more whose
    price passed the check. *)
Lemma addToCart_cart w name price en :
  let parsedPrice := match price with VStr s => VNum (parseFloat s) | _ => price end in
  cart (exec (addToCart name price en) w) = cart w \/
  (invalidPrice parsedPrice = Some false /\
   cart (exec (addToCart name price en) w)
   = (cart w ++ [cartItem name parsedPrice (newId en)])%list).
Proof.
  intros parsedPrice. unfold addToCart. fold parsedPrice.
  destruct (toBoolean name); simpl; [|by left].
  destruct (invalidPrice parsedPrice) as [[]|] eqn:Hinv; simpl; [by left| |by left].
  right. split; [done|].
  unfold exec. unfold_monad. simpl.
  match goal with |- context [saveCart ?w0] => set (w1 := w0) end.
  pose proof (saveCart_frame w1) as (Hn & Hcart & _).
  unfold exec, completion in Hn, Hcart.
  destruct (saveCart w1) as [[[]|e] w2]; simpl in Hn, Hcart; [|discriminate].
  pose proof (updateCartUI_cart w2) as Hu. unfold exec in Hu.
  destruct (updateCartUI w2) as [[[]|e] w3]; simpl in *; congruence.
Qed.

(** C4, as the script has it.  From a cart that satisfies the invariant
    (ids pairwise distinct, every price a finite number at least 0):
    - [removeItem] and [clearCart] keep it, whatever their argument;
    - [addToCart] keeps it when the price is, or is read by
      [parseFloat] as, a finite number and the id it generates is not
      already the id of an item (the script checks neither);
    - [loadCart] ends with the empty cart or with the stored array as
      it is, so the invariant holds after it when the stored array
      satisfies it (the script does not look at the elements). *)
Theorem cartInvariant_steps (w : World) :
  cartInvariant (cart w) ->
  (forall index, cartInvariant (cart (exec (removeItem index) w))) /\
  (forall answer, cartInvariant (cart (exec (clearCart answer) w))) /\
  (forall name price p en,
     parsesTo price p -> is_finite p = true ->
     VStr (newId en) ∉ idOf <$> cart w ->
     cartInvariant (cart (exec (addToCart name price en) w))) /\
  match persisted (storage w) with
  | StoredArray l =>
      cart (exec loadCart w) = l /\
      (cartInvariant l -> cartInvariant (cart (exec loadCart w)))
  | _ => cart (exec loadCart w) = [] /\ cartInvariant (cart (exec loadCart w))
  end.
Proof.
  intros Hinv. split; [|split; [|split]].
  - intros index. destruct (removeItem_cart w index) as [k [-> | ->]];
      [done|by apply cartInvariant_delete].
  - intros answer. rewrite clearCart_cart.
    destruct answer; [apply cartInvariant_nil|done].
  - intros name price p en Hparse Hfin Hfresh.
    destruct (addToCart_cart w name price en) as [-> | (Hchk & ->)]; [done|].
    assert (Hparsed : match price with VStr s => VNum (parseFloat s) | _ => price end
                      = VNum p) by (by destruct Hparse).
    rewrite Hparsed in *. rewrite invalidPrice_number in Hchk.
    injection Hchk as Hchk. apply orb_false_iff in Hchk as [_ Hlt].
    apply cartInvariant_snoc; [done|done|by apply finite_not_negative|done].
  - unfold exec. rewrite loadCart_spec. simpl.
    destruct (persisted (storage w)); simpl; split; try done;
      apply cartInvariant_nil.
Qed.

Lemma twoItemWorld_invariant : cartInvariant (cart twoItemWorld).
Proof.
  split.
  - change (NoDup [VStr (newId entropy1); VStr (newId entropy2)]).
    apply NoDup_cons. split; [|apply NoDup_singleton].
    rewrite list_elem_of_singleton. vm_compute. discriminate.
  - change (Forall (fun item => finitePrice (priceOf item))
              [cartItem (VStr "Sunset Print") (VNum price25) (newId entropy1);
               cartItem (VStr "Ocean Wave") (VNum price40) (newId entropy2)]).
    repeat constructor.
    + by exists price25.
    + by exists price40.
Qed.

Lemma cartInvariant_steps_witness :
  cartInvariant (cart twoItemWorld) /\
  cartInvariant (cart (exec (removeItem (VNum (ofZ 0))) twoItemWorld)) /\
  cartInvariant (cart (exec (clearCart true) twoItemWorld)) /\
  cartInvariant
    (cart (exec (addToCart (VStr "Harbor") (VStr "12.50")
                   {| now := 1700000000009; random36 := "0.z81" |}) twoItemWorld)).
Proof.
  pose proof (cartInvariant_steps twoItemWorld twoItemWorld_invariant)
    as (Hremove & Hclear & Hadd & _).
  split; [exact twoItemWorld_invariant|].
  split; [exact (Hremove (VNum (ofZ 0)))|].
  split; [exact (Hclear true)|].
  refine (Hadd (VStr "Harbor") (VStr "12.50") (parseFloat "12.50")
            {| now := 1700000000009; random36 := "0.z81" |}
            (parses_string "12.50") eq_refl _).
  change (VStr (newId {| now := 1700000000009; random36 := "0.z81" |})
          ∉ [VStr (newId entropy1); VStr (newId entropy2)]).
  rewrite !not_elem_of_cons. vm_compute.
  split; [discriminate|]. split; [discriminate|]. apply not_elem_of_nil.
Defined.

(** C4 as stated fails: after [loadCart] the cart is whatever array the
    storage held, here with a repeated id and a negative price; after
    [addToCart] with the price [Infinity] the cart holds a price that
    is not finite; and two calls that read the same clock and random
    values produce the same id. *)
Lemma cartInvariant_not_established :
  ~ cartInvariant (cart (exec loadCart duplicateIdWorld)) /\
  ~ cartInvariant
      (cart (exec (addToCart (VStr "Mural") (VNum Infinity) entropy1) freshWorld)) /\
  ~ cartInvariant
      (cart (exec (addToCart (VStr "Mural") (VStr "30") entropy1) oneItemWorld)).
Proof.
  split; [|split].
  - intros [Hids _]. vm_compute in Hids.
    apply NoDup_cons in Hids as [Hnotin _]. apply Hnotin. by left.
  - intros [_ Hprices]. vm_compute in Hprices.
    apply Forall_cons in Hprices as [(p & Hp & Hfin & _) _].
    injection Hp as <-. discriminate.
  - intros [Hids _]. vm_compute in Hids.
    apply NoDup_cons in Hids as [Hnotin _]. apply Hnotin. by left.
Qed.

(* ===================================================================== *)
(** ** Reading back what [JSON.stringify] wrote *)
(* ===================================================================== *)

(** *** Numbers *)

Lemma length_append s1 s2 :
  String.length (s1 +:+ s2) = (String.length s1 + String.length s2)%nat.
Proof. induction s1 as [|c s1 IH]; simpl; [done|by rewrite IH]. Qed.

Lemma append_cons c t u : String c t +:+ u = String c (t +:+ u).
Proof. reflexivity. Qed.

(** Scanning a numeral that is followed by a comma stops where it
    stops on the numeral alone. *)
Lemma spanDigits_comma t u : forall acc len,
  spanDigits (t +:+ String "," u) acc len =
  let '(v, l, r) := spanDigits t acc len in (v, l, r +:+ String "," u).
Proof.
  induction t as [|c t IH]; intros acc len; [by vm_compute|].
  simpl. destruct (isDigit c); [apply IH|done].
Qed.

Lemma numSign_comma t u :
  numSign (t +:+ String "," u) =
  let '(neg, r) := numSign t in (neg, r +:+ String "," u).
Proof. destruct t as [|c t]; simpl; [done|]. by destruct (Ascii.eqb c "-"). Qed.

Lemma numInt_comma t u :
  numInt (t +:+ String "," u) =
  match numInt t with
  | Some (iv, r) => Some (iv, r +:+ String "," u)
  | None => None
  end.
Proof.
  destruct t as [|c t]; [done|].
  unfold numInt. rewrite !append_cons.
  destruct (isDigit c) eqn:Hd; [|done].
  destruct (Ascii.eqb c "0"); [done|].
  rewrite <- append_cons.
  rewrite spanDigits_comma. by destruct (spanDigits (String c t) 0 0) as [[iv l] r].
Qed.

Lemma numFrac_comma iv t u :
  numFrac iv (t +:+ String "," u) =
  match numFrac iv t with
  | Some (v, len, r) => Some (v, len, r +:+ String "," u)
  | None => None
  end.
Proof.
  destruct t as [|c t]; [done|].
  unfold numFrac. rewrite !append_cons.
  destruct (Ascii.eqb c "."); [|done].
  rewrite spanDigits_comma. destruct (spanDigits t iv 0) as [[v l] r].
  by destruct (l =? 0).
Qed.

Lemma numExp_comma t u :
  numExp (t +:+ String "," u) =
  match numExp t with
  | Some (ev, r) => Some (ev, r +:+ String "," u)
  | None => None
  end.
Proof.
  destruct t as [|c t]; [done|].
  unfold numExp. rewrite !append_cons.
  destruct (Ascii.eqb c "e" || Ascii.eqb c "E")%bool; [|done].
  destruct t as [|c' t].
  - done.
  - rewrite !append_cons.
    destruct (Ascii.eqb c' "-").
    { rewrite spanDigits_comma. destruct (spanDigits t 0 0) as [[v l] r].
      by destruct (l =? 0). }
    destruct (Ascii.eqb c' "+").
    { rewrite spanDigits_comma. destruct (spanDigits t 0 0) as [[v l] r].
      by destruct (l =? 0). }
    rewrite <- append_cons.
    rewrite spanDigits_comma. destruct (spanDigits (String c' t) 0 0) as [[v l] r].
    by destruct (l =? 0).
Qed.

Lemma parseNumber_comma t u :
  parseNumber (t +:+ String "," u) =
  match parseNumber t with
  | Some (x, r) => Some (x, r +:+ String "," u)
  | None => None
  end.
Proof.
  unfold parseNumber. rewrite numSign_comma.
  destruct (numSign t) as [neg s1]. rewrite numInt_comma.
  destruct (numInt s1) as [[iv s2]|]; [|done]. rewrite numFrac_comma.
  destruct (numFrac iv s2) as [[[fv flen] s3]|]; [|done]. rewrite numExp_comma.
  by destruct (numExp s3) as [[ev s4]|].
Qed.

Lemma substring_whole s : String.substring 0 (String.length s) s = s.
Proof. induction s as [|c s IH]; simpl; [done|by rewrite IH]. Qed.

(** *** Exact rounding *)

Lemma iter_pos_iter {A} (f : A -> A) p : forall x,
  SpecFloat.iter_pos f p x = Pos.iter f x p.
Proof.
  induction p as [p IH|p IH|]; intros x; simpl; [|by rewrite !IH|done].
  by rewrite !IH, !Pos.iter_swap.
Qed.

Lemma shr_1_even m :
  shr_1 {| shr_m := Z.pos m~0; shr_r := false; shr_s := false |}
  = {| shr_m := Z.pos m; shr_r := false; shr_s := false |}.
Proof. reflexivity. Qed.

Lemma iter_shr_1_exact m p :
  Pos.iter shr_1 {| shr_m := Z.pos (Pos.iter xO m p); shr_r := false; shr_s := false |} p
  = {| shr_m := Z.pos m; shr_r := false; shr_s := false |}.
Proof.
  induction p as [|p IH] using Pos.peano_ind.
  - reflexivity.
  - rewrite Pos.iter_succ_r. rewrite Pos.iter_succ. by rewrite shr_1_even.
Qed.

Lemma pos_of_shift M m j :
  0 < j -> Z.pos M = Z.pos m * 2 ^ j -> M = Pos.iter xO m (Z.to_pos j).
Proof.
  intros Hj H. apply Pos2Z.inj. rewrite pos_iter_xO, H.
  by rewrite Z2Pos.id.
Qed.

Lemma fexp_mono a b : a <= b -> fexp prec emax a <= fexp prec emax b.
Proof. unfold fexp. lia. Qed.

(** Rounding a mantissa that is a canonical one shifted left gives the
    canonical one. *)
Lemma binary_round_aux_shifted M e m ex :
  e <= ex -> Z.pos M = Z.pos m * 2 ^ (ex - e) ->
  fexp prec emax (Z.pos (digits2_pos m) + ex) = ex -> ex <= emax - prec ->
  binary_round_aux prec emax false (Z.pos M) e loc_Exact = S754_finite false m ex.
Proof.
  intros Hle HM Hcan Hmax.
  destruct (Z.eq_dec e ex) as [->|Hne].
  { rewrite Z.sub_diag, Z.pow_0_r, Z.mul_1_r in HM. injection HM as ->.
    by apply binary_round_aux_canonical. }
  assert (Hj : 0 < ex - e) by lia.
  pose proof (pos_of_shift M m (ex - e) Hj HM) as ->.
  unfold binary_round_aux, shr_fexp.
  cbn [Zdigits2 shr_record_of_loc]. rewrite digits2_pos_iter.
  replace (Z.pos (digits2_pos m + Z.to_pos (ex - e)) + e)
    with (Z.pos (digits2_pos m) + ex) by lia.
  rewrite Hcan.
  destruct (ex - e) as [|j|j] eqn:Hd; try lia.
  cbn [shr]. rewrite iter_pos_iter. cbn [Z.to_pos]. rewrite iter_shr_1_exact.
  cbn [shr_m loc_of_shr_record round_nearest_even Zdigits2 shr_record_of_loc].
  replace (e + Z.pos j) with ex by lia.
  rewrite Hcan, Z.sub_diag. cbn [shr shr_m].
  apply Z.leb_le in Hmax. by rewrite Hmax.
Qed.
Lemma digits2_shift M m j :
  0 <= j -> Z.pos M = Z.pos m * 2 ^ j ->
  Z.pos (digits2_pos M) = Z.pos (digits2_pos m) + j.
Proof.
  intros Hj H. destruct (Z.eq_dec j 0) as [->|Hne].
  - rewrite Z.pow_0_r, Z.mul_1_r in H. injection H as ->. lia.
  - rewrite (pos_of_shift M m j) by (lia || done).
    rewrite digits2_pos_iter. lia.
Qed.

(** A whole number times a power of two that is the value of a
    canonical mantissa and exponent is rounded to them. *)
Lemma binary_normalize_exact M e0 m ex :
  fexp prec emax (Z.pos (digits2_pos m) + ex) = ex -> ex <= emax - prec ->
  (e0 <= ex /\ Z.pos M = Z.pos m * 2 ^ (ex - e0)) \/
  (ex < e0 /\ Z.pos m = Z.pos M * 2 ^ (e0 - ex)) ->
  binary_normalize prec emax (Z.pos M) e0 false = S754_finite false m ex.
Proof.
  intros Hcan Hmax H. unfold binary_normalize, binary_round.
  destruct H as [[Hle HM]|[Hlt Hm]].
  - assert (Hd : Z.pos (digits2_pos M) + e0 = Z.pos (digits2_pos m) + ex).
    { rewrite (digits2_shift M m (ex - e0)) by (lia || done). lia. }
    rewrite Hd, Hcan. unfold shl_align.
    destruct (ex - e0) as [|j|j] eqn:Hj; try lia.
    + by apply binary_round_aux_shifted; [lia|rewrite Hj|done|done].
    + by apply binary_round_aux_shifted; [lia|rewrite Hj|done|done].
  - assert (Hd : Z.pos (digits2_pos M) + e0 = Z.pos (digits2_pos m) + ex).
    { rewrite (digits2_shift m M (e0 - ex)) by (lia || done). lia. }
    rewrite Hd, Hcan. unfold shl_align.
    destruct (ex - e0) as [|j|j] eqn:Hj; try lia.
    assert (Hmm : Pos.iter xO M j = m).
    { symmetry. replace j with (Z.to_pos (e0 - ex)) by lia.
      apply pos_of_shift; [lia|done]. }
    rewrite Hmm. by apply binary_round_aux_canonical.
Qed.

Lemma new_location_exact t : new_location t 0 = loc_Exact.
Proof. unfold new_location. by destruct (Z.even t). Qed.

(** A quotient that is the value of a canonical mantissa and exponent
    is rounded to them. *)
Lemma div_round_exact d t m ex :
  fexp prec emax (Z.pos (digits2_pos m) + ex) = ex -> ex <= emax - prec ->
  (0 <= ex /\ Z.pos d = Z.pos m * 2 ^ ex * Z.pos t) \/
  (ex < 0 /\ Z.pos d * 2 ^ (- ex) = Z.pos m * Z.pos t) ->
  (let '(q, e', l) := SFdiv_core_binary prec emax (Z.pos d) 0 (Z.pos t) 0 in
   binary_round_aux prec emax false q e' l) = S754_finite false m ex.
Proof.
  intros Hcan Hmax H. unfold SFdiv_core_binary. cbn [Zdigits2].
  rewrite !Z.add_0_r, !Z.sub_0_r.
  set (d1 := Z.pos (digits2_pos d)). set (d2 := Z.pos (digits2_pos t)).
  set (e' := Z.min (fexp prec emax (d1 - d2)) 0).
  assert (He' : e' <= ex).
  { destruct H as [[Hex _]|[Hex Heq]]; [lia|].
    assert (d1 - d2 <= Z.pos (digits2_pos m) + ex); [|
      pose proof (fexp_mono _ _ H); lia].
    pose proof (digits2_pos_bounds d) as [Hd _].
    pose proof (digits2_pos_bounds t) as [_ Ht].
    pose proof (digits2_pos_bounds m) as [_ Hm]. fold d1 in Hd. fold d2 in Ht.
    destruct (Z.le_gt_cases (d1 - d2) (Z.pos (digits2_pos m) + ex)) as [|Hgt]; [done|].
    exfalso.
    assert (H1 : 2 ^ (d1 - 1) * 2 ^ (- ex) <= Z.pos d * 2 ^ (- ex)).
    { apply Z.mul_le_mono_nonneg_r; [apply Z.pow_nonneg; lia|done]. }
    assert (H2 : Z.pos m * Z.pos t < 2 ^ Z.pos (digits2_pos m) * 2 ^ d2).
    { apply Z.mul_lt_mono_nonneg; lia. }
    rewrite <- Z.pow_add_r in H1 by lia. rewrite <- Z.pow_add_r in H2 by lia.
    assert (H3 : 2 ^ (Z.pos (digits2_pos m) + d2) <= 2 ^ (d1 - 1 + - ex)).
    { apply Z.pow_le_mono_r; lia. }
    lia. }
  assert (Hs : 0 <= - e') by lia.
  set (q := Z.pos m * 2 ^ (ex - e')).
  assert (Hm' : match - e' with
                | 0 => Z.pos d
                | Z.pos _ => Z.shiftl (Z.pos d) (- e')
                | Z.neg _ => 0
                end = q * Z.pos t).
  { assert (Hv : Z.pos d * 2 ^ (- e') = q * Z.pos t).
    { unfold q. destruct H as [[Hex Heq]|[Hex Heq]].
      - rewrite Heq. replace (ex - e') with (ex + - e') by lia.
        rewrite Z.pow_add_r by lia. lia.
      - replace (- e') with (- ex + (ex - e')) by lia.
        rewrite Z.pow_add_r by lia. rewrite Z.mul_assoc, Heq. lia. }
    destruct (- e') as [|j|j] eqn:Hj; try lia.
    by rewrite Z.shiftl_mul_pow2 by lia. }
  rewrite (Z.sub_0_l e'), Hm'.
  assert (Hdiv : Z.div_eucl (q * Z.pos t) (Z.pos t) = (q, 0)).
  { pose proof (Z.div_mul q (Z.pos t) ltac:(lia)) as Hq.
    pose proof (Z.mod_mul q (Z.pos t) ltac:(lia)) as Hr.
    unfold Z.div, Z.modulo in Hq, Hr.
    destruct (Z.div_eucl (q * Z.pos t) (Z.pos t)) as [q' r']. by subst. }
  change IntDef.Z.div_eucl with Z.div_eucl. rewrite Hdiv, new_location_exact.
  assert (Hq : exists Q, q = Z.pos Q).
  { unfold q. assert (0 < 2 ^ (ex - e')) by (apply Z.pow_pos_nonneg; lia).
    destruct (Z.pos m * 2 ^ (ex - e')) eqn:E; try lia. by eexists. }
  destruct Hq as [Q HQ]. rewrite HQ.
  apply binary_round_aux_shifted; [done| |done|done].
  by rewrite <- HQ.
Qed.
(** *** Decimal digits *)

Lemma digitsValue_app acc ds d :
  digitsValue acc (ds ++ [d]) = 10 * digitsValue acc ds + d.
Proof. unfold digitsValue. by rewrite fold_left_app. Qed.

Lemma log2_div10 n : 10 <= n -> Z.log2 (n / 10) < Z.log2 n.
Proof.
  intros Hn.
  assert (Hh : 0 < n / 10) by (apply Z.div_str_pos; lia).
  assert (H1 : 2 * (n / 10) <= n).
  { pose proof (Z.mul_div_le n 10 ltac:(lia)). lia. }
  pose proof (Z.log2_le_mono _ _ H1) as H2.
  rewrite Z.log2_double in H2 by done. lia.
Qed.

(** The digits [digitsAux] puts before [acc]. *)
Lemma digitsAux_spec fuel : forall n acc,
  0 <= n -> (n = 0 \/ Z.log2 n < Z.of_nat fuel) ->
  exists ds,
    digitsAux fuel 10 n acc = (ds ++ acc)%list /\
    Forall isDecimalDigit ds /\ digitsValue 0 ds = n /\
    (n = 0 -> ds = []) /\
    (0 < n -> (exists d ds', ds = d :: ds' /\ d <> 0) /\
              10 ^ (Z.of_nat (length ds) - 1) <= n < 10 ^ Z.of_nat (length ds)).
Proof.
  induction fuel as [|fuel IH]; intros n acc Hn Hfuel.
  - assert (n = 0) as ->.
    { destruct Hfuel as [|H]; [done|]. pose proof (Z.log2_nonneg n). simpl in H. lia. }
    exists []. repeat split; try done; lia.
  - simpl. destruct (Z.leb_spec n 0) as [Hle|Hpos].
    { assert (n = 0) as -> by lia. exists []. repeat split; try done; lia. }
    destruct (IH (n / 10) (n mod 10 :: acc)) as (ds & Heq & Hall & Hval & Hzero & Hbig).
    { apply Z.div_pos; lia. }
    { destruct (Z.lt_ge_cases n 10) as [Hlt|Hge].
      - left. by apply Z.div_small.
      - right. pose proof (log2_div10 n Hge).
        destruct Hfuel as [|Hf]; [lia|]. lia. }
    exists (ds ++ [n mod 10])%list.
    pose proof (Z.mod_pos_bound n 10 ltac:(lia)) as Hmod.
    pose proof (Z.div_mod n 10 ltac:(lia)) as Hdm.
    split; [by rewrite Heq, <- app_assoc|].
    split; [apply Forall_app; split; [done|by constructor]|].
    split; [rewrite digitsValue_app, Hval; lia|].
    split; [lia|]. intros _.
    destruct (Z.eq_dec (n / 10) 0) as [Hz|Hnz].
    + rewrite (Hzero Hz). simpl. split; [exists (n mod 10), []; split; [done|lia]|].
      simpl. lia.
    + assert (Hp : 0 < n / 10).
      { pose proof (Z.div_pos n 10 ltac:(lia) ltac:(lia)). lia. }
      destruct (Hbig Hp) as [(d & ds' & -> & Hd) [Hlo Hhi]].
      split; [by exists d, (ds' ++ [n mod 10])%list|].
      rewrite length_app. cbn [length] in *.
      set (L := length ds') in *.
      replace (Z.of_nat (S L + 1) - 1) with (Z.succ (Z.of_nat (S L) - 1)) by lia.
      replace (Z.of_nat (S L + 1)) with (Z.succ (Z.of_nat (S L))) by lia.
      rewrite !Z.pow_succ_r by lia. lia.
Qed.

Lemma digitsOf_spec n :
  0 < n ->
  exists d ds,
    digitsOf 10 n = d :: ds /\ d <> 0 /\
    Forall isDecimalDigit (d :: ds) /\ digitsValue 0 (d :: ds) = n /\
    10 ^ (Z.of_nat (length (d :: ds)) - 1) <= n < 10 ^ Z.of_nat (length (d :: ds)).
Proof.
  intros Hn. unfold digitsOf.
  destruct (digitsAux_spec (S (Z.to_nat (Z.log2 n))) n [])
    as (ds & Heq & Hall & Hval & _ & Hbig); [lia| |].
  { right. pose proof (Z.log2_nonneg n). lia. }
  destruct (Hbig Hn) as [(d & ds' & -> & Hd) Hb].
  exists d, ds'. rewrite Heq, app_nil_r. done.
Qed.

(** The count of decimal digits is fixed by the size. *)
Lemma pow10_bounds_unique a b n :
  0 <= a -> 0 <= b ->
  10 ^ (a - 1) <= n < 10 ^ a -> 10 ^ (b - 1) <= n < 10 ^ b -> 0 < n -> a = b.
Proof.
  intros Ha Hb [Ha1 Ha2] [Hb1 Hb2] Hn.
  destruct (Z.lt_trichotomy a b) as [Hlt|[->|Hgt]]; [exfalso| done |exfalso].
  - assert (10 ^ a <= 10 ^ (b - 1)) by (apply Z.pow_le_mono_r; lia). lia.
  - assert (10 ^ b <= 10 ^ (a - 1)) by (apply Z.pow_le_mono_r; lia). lia.
Qed.
(** *** Reading an exact decimal *)

Lemma bounded_facts m ex :
  bounded prec emax m ex = true ->
  fexp prec emax (Z.pos (digits2_pos m) + ex) = ex /\ ex <= emax - prec /\
  -1074 <= ex /\ Z.pos m < 2 ^ 53.
Proof.
  unfold bounded, canonical_mantissa. intros H.
  apply andb_true_iff in H as [Hc Hm]. apply Z.eqb_eq in Hc. apply Z.leb_le in Hm.
  split; [done|]. split; [done|].
  unfold fexp, emin, prec, emax in Hc. split; [lia|].
  pose proof (digits2_pos_bounds m) as [_ Hb].
  assert (2 ^ Z.pos (digits2_pos m) <= 2 ^ 53) by (apply Z.pow_le_mono_r; lia).
  lia.
Qed.

Lemma pow_pos_Z b e : 0 < b -> 0 <= e -> exists p, b ^ e = Z.pos p.
Proof.
  intros Hb He. pose proof (Z.pow_pos_nonneg b e Hb He).
  destruct (b ^ e); try lia. by eexists.
Qed.

(** A decimal that is exactly a binary64 number reads as that number. *)
Lemma ofDecimal_exact s q m ex :
  0 < s -> bounded prec emax m ex = true -> sameValue s q m ex ->
  ofDecimal false s q = S754_finite false m ex.
Proof.
  intros Hs Hb Hv. destruct (bounded_facts m ex Hb) as (Hcan & Hmax & Hmin & Hm).
  unfold emax, prec in Hmax.
  destruct (digitsOf_spec s Hs) as (d & ds & Hds & _ & _ & _ & Hlen).
  unfold ofDecimal. destruct (Z.leb_spec s 0) as [|_]; [lia|].
  rewrite Hds. set (L := Z.of_nat (length (d :: ds))) in *.
  assert (HL : 1 <= L) by (unfold L; simpl; lia).
  unfold sameValue in Hv.
  set (P := 10 ^ Z.max q 0) in *. set (N := 10 ^ Z.max (- q) 0) in *.
  set (A := 2 ^ Z.max (- ex) 0) in *. set (B := 2 ^ Z.max ex 0) in *.
  assert (HP : 0 < P) by (apply Z.pow_pos_nonneg; lia).
  assert (HN : 0 < N) by (apply Z.pow_pos_nonneg; lia).
  assert (HA : 0 < A) by (apply Z.pow_pos_nonneg; lia).
  assert (HB : 0 < B) by (apply Z.pow_pos_nonneg; lia).
  assert (HA' : A <= 2 ^ 1074) by (apply Z.pow_le_mono_r; lia).
  assert (HB' : B <= 2 ^ 971) by (apply Z.pow_le_mono_r; lia).
  destruct (Z.leb_spec 310 (L + q)) as [Hbig|_].
  { exfalso.
    assert (H1 : 10 ^ 309 * N <= 10 ^ (L - 1) * P).
    { unfold N, P. rewrite <- !Z.pow_add_r by lia. apply Z.pow_le_mono_r; lia. }
    destruct Hlen as [Hlo Hhi].
    assert (H2 : 10 ^ (L - 1) * P <= s * P).
    { apply Z.mul_le_mono_nonneg_r; lia. }
    assert (H2' : s * P * 1 <= s * P * A).
    { apply Z.mul_le_mono_nonneg_l; lia. }
    assert (H3 : Z.pos m * B < 2 ^ 53 * 2 ^ 971).
    { assert (Z.pos m * B <= Z.pos m * 2 ^ 971) by (apply Z.mul_le_mono_nonneg_l; lia).
      assert (Z.pos m * 2 ^ 971 < 2 ^ 53 * 2 ^ 971) by (apply Z.mul_lt_mono_pos_r; lia).
      lia. }
    assert (H3' : Z.pos m * B * N < 2 ^ 53 * 2 ^ 971 * N).
    { apply Z.mul_lt_mono_pos_r; lia. }
    assert (H4 : 2 ^ 53 * 2 ^ 971 <= 10 ^ 309) by (vm_compute; discriminate).
    assert (H5 : 2 ^ 53 * 2 ^ 971 * N <= 10 ^ 309 * N).
    { apply Z.mul_le_mono_nonneg_r; lia. }
    lia. }
  destruct (Z.leb_spec (L + q) (-325)) as [Hsmall|_].
  { exfalso.
    assert (H1 : 10 ^ (L + Z.max q 0) * 10 ^ 325 <= N).
    { unfold N. rewrite <- Z.pow_add_r by lia. apply Z.pow_le_mono_r; lia. }
    destruct Hlen as [Hlo Hhi].
    assert (H2 : s * P < 10 ^ (L + Z.max q 0)).
    { rewrite Z.pow_add_r by lia. fold P. apply Z.mul_lt_mono_pos_r; lia. }
    assert (H3 : 1 * N <= Z.pos m * B * N).
    { apply Z.mul_le_mono_nonneg_r; [lia|].
      assert (1 * 1 <= Z.pos m * B) by (apply Z.mul_le_mono_nonneg; lia). lia. }
    assert (H4 : 2 ^ 1074 < 10 ^ 325) by (vm_compute; reflexivity).
    assert (H5 : s * P * A < 10 ^ (L + Z.max q 0) * 2 ^ 1074).
    { assert (s * P * A <= s * P * 2 ^ 1074) by (apply Z.mul_le_mono_nonneg_l; lia).
      assert (s * P * 2 ^ 1074 < 10 ^ (L + Z.max q 0) * 2 ^ 1074)
        by (apply Z.mul_lt_mono_pos_r; lia).
      lia. }
    assert (H6 : 0 < 10 ^ (L + Z.max q 0)) by (apply Z.pow_pos_nonneg; lia).
    assert (H7 : 10 ^ (L + Z.max q 0) * 2 ^ 1074 < 10 ^ (L + Z.max q 0) * 10 ^ 325).
    { apply Z.mul_lt_mono_pos_l; lia. }
    lia. }
  destruct (Z.leb_spec 0 q) as [Hq|Hq].
  - assert (HNone : N = 1) by (unfold N; by rewrite Z.max_r by lia).
    assert (HPq : P = 10 ^ q) by (unfold P; by rewrite Z.max_l by lia).
    rewrite HNone, HPq, Z.mul_1_r in Hv.
    destruct (pow_pos_Z 10 q ltac:(lia) Hq) as [t Ht].
    destruct s as [|sp|sp]; try lia. rewrite Ht in Hv |- *.
    change (Z.pos sp * Z.pos t) with (Z.pos (sp * t)) in *.
    apply binary_normalize_exact; [done|unfold emax, prec; lia|].
    destruct (Z.le_gt_cases 0 ex) as [Hex|Hex].
    + left. split; [done|]. unfold A, B in Hv.
      rewrite Z.max_r in Hv by lia. rewrite Z.max_l in Hv by lia.
      rewrite Z.sub_0_r. lia.
    + right. split; [done|]. unfold A, B in Hv.
      rewrite Z.max_l in Hv by lia. rewrite Z.max_r in Hv by lia.
      rewrite Z.sub_0_l. lia.
  - assert (HPone : P = 1) by (unfold P; by rewrite Z.max_r by lia).
    assert (HNq : N = 10 ^ (- q)) by (unfold N; by rewrite Z.max_l by lia).
    rewrite HPone, HNq, Z.mul_1_r in Hv.
    destruct (pow_pos_Z 10 (- q) ltac:(lia) ltac:(lia)) as [t Ht].
    destruct s as [|sp|sp]; try lia. rewrite Ht in Hv |- *.
    apply div_round_exact; [done|unfold emax, prec; lia|].
    destruct (Z.le_gt_cases 0 ex) as [Hex|Hex].
    + left. split; [done|]. unfold A, B in Hv.
      rewrite Z.max_r in Hv by lia. rewrite Z.max_l in Hv by lia. lia.
    + right. split; [done|]. unfold A, B in Hv.
      rewrite Z.max_l in Hv by lia. rewrite Z.max_r in Hv by lia. lia.
Qed.
(** *** The digit search *)

Lemma eqb_finite a m e :
  eqb a (S754_finite false m e) = true -> a = S754_finite false m e.
Proof.
  destruct a as [s|s| |s m' e']; try discriminate. simpl. intros H.
  apply andb_true_iff in H as [H He]. apply andb_true_iff in H as [Hs Hm].
  apply Z.eqb_eq in He. apply Pos.eqb_eq in Hm. destruct s; [discriminate|].
  by subst.
Qed.

Lemma ofDecimal_positive s q m e :
  ofDecimal false s q = S754_finite false m e -> 0 < s.
Proof.
  unfold ofDecimal. destruct (Z.leb_spec s 0); [discriminate|done].
Qed.

Lemma scaled_pos m e p : 0 < (scaled m e p).1 /\ 0 < (scaled m e p).2.
Proof.
  unfold scaled. cbn [fst snd].
  assert (H2 : 0 < (if 0 <=? e then 2 ^ e else 1)).
  { destruct (Z.leb_spec 0 e); [apply Z.pow_pos_nonneg; lia|lia]. }
  assert (H2' : 0 < (if 0 <=? e then 1 else 2 ^ (- e))).
  { destruct (Z.leb_spec 0 e); [lia|apply Z.pow_pos_nonneg; lia]. }
  assert (H10 : 0 < (if 0 <=? p then 10 ^ p else 1)).
  { destruct (Z.leb_spec 0 p); [apply Z.pow_pos_nonneg; lia|lia]. }
  assert (H10' : 0 < (if 0 <=? p then 1 else 10 ^ (- p))).
  { destruct (Z.leb_spec 0 p); [lia|apply Z.pow_pos_nonneg; lia]. }
  split; [|by apply Z.mul_pos_pos].
  apply Z.mul_pos_pos; [|done]. by apply Z.mul_pos_pos.
Qed.

(** With enough digits behind the point the scaled value is whole. *)
Lemma scaled_whole m e p :
  Z.max 0 (- e) <= p -> (scaled m e p).1 mod (scaled m e p).2 = 0.
Proof.
  intros Hp. unfold scaled. cbn [fst snd].
  destruct (Z.leb_spec 0 p) as [_|]; [|lia].
  destruct (Z.leb_spec 0 e) as [He|He].
  - change (1 * 1) with 1. apply Z.mod_1_r.
  - rewrite !Z.mul_1_r.
    replace p with (- e + (p + e)) by lia.
    rewrite Z.pow_add_r by lia.
    change 10 with (2 * 5) at 1. rewrite Z.pow_mul_l.
    replace (Z.pos m * (2 ^ (- e) * 5 ^ (- e) * 10 ^ (p + e)))
      with (Z.pos m * 5 ^ (- e) * 10 ^ (p + e) * 2 ^ (- e)) by lia.
    apply Z.mod_mul. assert (0 < 2 ^ (- e)) by (apply Z.pow_pos_nonneg; lia). lia.
Qed.

(** A scaled value that is whole is the value itself. *)
Lemma scaled_sameValue m e p lo :
  (scaled m e p).1 = lo * (scaled m e p).2 -> sameValue lo (- p) m e.
Proof.
  unfold scaled, sameValue. cbn [fst snd]. rewrite Z.opp_involutive.
  destruct (Z.leb_spec 0 e) as [He|He]; destruct (Z.leb_spec 0 p) as [Hp|Hp];
    intros H.
  - rewrite (Z.max_r (- p) 0), (Z.max_r (- e) 0), (Z.max_l e 0), (Z.max_l p 0) by lia.
    rewrite Z.pow_0_r. lia.
  - rewrite (Z.max_l (- p) 0), (Z.max_r (- e) 0), (Z.max_l e 0), (Z.max_r p 0) by lia.
    rewrite Z.pow_0_r. lia.
  - rewrite (Z.max_r (- p) 0), (Z.max_l (- e) 0), (Z.max_r e 0), (Z.max_l p 0) by lia.
    rewrite Z.pow_0_r. lia.
  - rewrite (Z.max_l (- p) 0), (Z.max_l (- e) 0), (Z.max_r e 0), (Z.max_r p 0) by lia.
    rewrite Z.pow_0_r. lia.
Qed.

Lemma shortestFrom_eq fuel x m e n k :
  shortestFrom fuel x m e n k =
  let '(num, den) := scaled m e (k - n) in
  let lo := num / den in
  let r := num mod den in
  let hi := lo + 1 in
  let norm s := if s =? 10 ^ k then (10 ^ (k - 1), n + 1 - k) else (s, n - k) in
  let reads := fun '(s, q) => eqb (ofDecimal false s q) x in
  let nearest :=
    match Z.compare (2 * r) den with
    | Lt => norm lo
    | Gt => norm hi
    | Eq => if Z.even lo then norm lo else norm hi
    end in
  if r =? 0 then (lo, n - k)
  else
    match fuel with
    | O => nearest
    | S fuel' =>
        match reads (norm lo), reads (norm hi) with
        | true, true => nearest
        | true, false => norm lo
        | false, true => norm hi
        | false, false => shortestFrom fuel' x m e n (k + 1)
        end
    end.
Proof. by destruct fuel. Qed.

(** The search ends with a decimal that reads back as the number. *)
Lemma shortestFrom_reads m e n fuel : forall k,
  bounded prec emax m e = true ->
  n + Z.max 0 (- e) - k <= Z.of_nat fuel ->
  let sq := shortestFrom fuel (S754_finite false m e) m e n k in
  0 < sq.1 /\ ofDecimal false sq.1 sq.2 = S754_finite false m e.
Proof.
  induction fuel as [|fuel IH]; intros k Hb Hfuel; cbv zeta;
    rewrite shortestFrom_eq;
    pose proof (scaled_pos m e (k - n)) as [Hnum Hden];
    pose proof (scaled_sameValue m e (k - n)) as Hsame;
    pose proof (scaled_whole m e (k - n)) as Hwhole;
    destruct (scaled m e (k - n)) as [num den]; cbn [fst snd] in *; cbv zeta.
  all: destruct (Z.eqb_spec (num mod den) 0) as [Hr|Hr].
  all: try (cbn [fst snd];
            assert (Hlo : num = num / den * den)
              by (pose proof (Z.div_mod num den ltac:(lia)); lia);
            assert (Hpos : 0 < num / den) by nia;
            split; [done|];
            apply ofDecimal_exact; [done|done|];
            replace (n - k) with (- (k - n)) by lia; by apply Hsame).
  - exfalso. apply Hr, Hwhole. lia.
  - set (clo := if num / den =? 10 ^ k then (10 ^ (k - 1), n + 1 - k)
                else (num / den, n - k)).
    set (chi := if num / den + 1 =? 10 ^ k then (10 ^ (k - 1), n + 1 - k)
                else (num / den + 1, n - k)).
    clearbody clo chi. destruct clo as [s1 q1], chi as [s2 q2].
    assert (Hreads : forall s q,
              eqb (ofDecimal false s q) (S754_finite false m e) = true ->
              0 < (s, q).1 /\ ofDecimal false (s, q).1 (s, q).2 = S754_finite false m e).
    { intros s q Hc. cbn [fst snd]. apply eqb_finite in Hc.
      split; [by eapply ofDecimal_positive|done]. }
    destruct (eqb (ofDecimal false s1 q1) (S754_finite false m e)) eqn:Hlo;
      destruct (eqb (ofDecimal false s2 q2) (S754_finite false m e)) eqn:Hhi.
    + destruct (2 * (num mod den) ?= den); [|by apply Hreads..].
      destruct (Z.even (num / den)); by apply Hreads.
    + by apply Hreads.
    + by apply Hreads.
    + apply IH; [done|lia].
Qed.

Lemma shortest_reads m e :
  bounded prec emax m e = true ->
  0 < (shortest m e).1 /\
  ofDecimal false (shortest m e).1 (shortest m e).2 = S754_finite false m e.
Proof.
  intros Hb. unfold shortest. apply shortestFrom_reads; [done|]. lia.
Qed.
(** *** Numerals *)

Lemma append_nil_r s : s +:+ "" = s.
Proof. induction s as [|c s IH]; [done|]. by rewrite append_cons, IH. Qed.

Lemma digitChar_spec d :
  isDecimalDigit d ->
  isDigit (digitChar d) = true /\ digitVal (digitChar d) = d /\
  (d <> 0 -> Ascii.eqb (digitChar d) "0" = false).
Proof.
  unfold isDecimalDigit. intros H.
  assert (Hd : d = 0 \/ d = 1 \/ d = 2 \/ d = 3 \/ d = 4 \/ d = 5 \/ d = 6 \/
               d = 7 \/ d = 8 \/ d = 9) by lia.
  repeat (destruct Hd as [->|Hd]); try subst d; by repeat split.
Qed.

Lemma numeral_cons d ds : numeral (d :: ds) = String (digitChar d) (numeral ds).
Proof. reflexivity. Qed.

Lemma numeral_app a b : numeral (a ++ b) = numeral a +:+ numeral b.
Proof. induction a as [|d a IH]; [done|]. simpl. rewrite !numeral_cons. by rewrite IH. Qed.

Lemma length_numeral ds : String.length (numeral ds) = length ds.
Proof. induction ds as [|d ds IH]; [done|]. rewrite numeral_cons. simpl. by rewrite IH. Qed.

Lemma zeros_numeral n : zeros n = numeral (replicate n 0).
Proof. induction n as [|n IH]; [done|]. simpl. by rewrite IH. Qed.

Lemma substring_numeral ds : forall n,
  (n <= length ds)%nat ->
  String.substring 0 n (numeral ds) = numeral (take n ds) /\
  substring_from n (numeral ds) = numeral (drop n ds).
Proof.
  unfold substring_from.
  induction ds as [|d ds IH]; intros [|n] Hn; simpl in Hn; try lia.
  - done.
  - split; [done|]. rewrite Nat.sub_0_r. apply substring_whole.
  - rewrite numeral_cons. destruct (IH n ltac:(lia)) as [H1 H2].
    cbn [String.substring String.length take drop]. rewrite H1.
    rewrite numeral_cons. split; [done|]. exact H2.
Qed.

Lemma digitsValue_app2 acc a b :
  digitsValue acc (a ++ b) = digitsValue (digitsValue acc a) b.
Proof. unfold digitsValue. by rewrite fold_left_app. Qed.

Lemma digitsValue_zeros n : digitsValue 0 (replicate n 0) = 0.
Proof. induction n as [|n IH]; [done|]. exact IH. Qed.

Lemma digitsValue_snoc_zeros acc n :
  digitsValue acc (replicate n 0) = acc * 10 ^ Z.of_nat n.
Proof.
  revert acc. induction n as [|n IH]; intros acc.
  - simpl. lia.
  - cbn [replicate]. change (digitsValue acc (0 :: replicate n 0))
      with (digitsValue (10 * acc + 0) (replicate n 0)).
    rewrite IH, Nat2Z.inj_succ, Z.pow_succ_r by lia. lia.
Qed.

Lemma Forall_zeros n : Forall isDecimalDigit (replicate n 0).
Proof. apply Forall_replicate. unfold isDecimalDigit. lia. Qed.

Lemma spanDigits_stop rest acc len :
  noDigitAhead rest -> spanDigits rest acc len = (acc, len, rest).
Proof. destruct rest as [|c t]; [done|]. simpl. by intros ->. Qed.

(** Scanning a numeral. *)
Lemma spanDigits_numeral ds : forall rest acc len,
  Forall isDecimalDigit ds -> noDigitAhead rest ->
  spanDigits (numeral ds +:+ rest) acc len
  = (digitsValue acc ds, len + Z.of_nat (length ds), rest).
Proof.
  induction ds as [|d ds IH]; intros rest acc len Hall Hrest.
  - simpl. rewrite Z.add_0_r. by apply spanDigits_stop.
  - apply Forall_cons in Hall as [Hd Hall].
    destruct (digitChar_spec d Hd) as (Hdig & Hval & _).
    rewrite numeral_cons, append_cons. cbn [spanDigits]. rewrite Hdig, Hval.
    rewrite IH by done. cbn [length]. f_equal. f_equal. lia.
Qed.

Lemma numInt_numeral d ds rest :
  Forall isDecimalDigit (d :: ds) -> d <> 0 -> noDigitAhead rest ->
  numInt (numeral (d :: ds) +:+ rest) = Some (digitsValue 0 (d :: ds), rest).
Proof.
  intros Hall Hd Hrest. pose proof Hall as Hall'.
  apply Forall_cons in Hall' as [Hd' _].
  destruct (digitChar_spec d Hd') as (Hdig & _ & Hz).
  unfold numInt. rewrite numeral_cons, append_cons, Hdig, (Hz Hd).
  rewrite <- append_cons, <- numeral_cons. by rewrite spanDigits_numeral.
Qed.

Lemma numFrac_numeral iv ds rest :
  Forall isDecimalDigit ds -> ds <> [] -> noDigitAhead rest ->
  numFrac iv (String "." (numeral ds +:+ rest))
  = Some (digitsValue iv ds, Z.of_nat (length ds), rest).
Proof.
  intros Hall Hne Hrest. unfold numFrac. cbn [Ascii.eqb Bool.eqb].
  rewrite spanDigits_numeral by done. rewrite Z.add_0_l.
  destruct ds; [done|]. done.
Qed.

Lemma numFrac_none iv rest :
  match rest with String c _ => Ascii.eqb c "." = false | EmptyString => True end ->
  numFrac iv rest = Some (iv, 0, rest).
Proof. destruct rest as [|c t]; [done|]. simpl. by intros ->. Qed.

Lemma decDigits_numeral a : decDigits a = numeral (digitsOf 10 a).
Proof. reflexivity. Qed.

Lemma numExp_written ex :
  ex <> 0 ->
  numExp (String "e" ((if ex <? 0 then "-" else "+") +:+ decString (Z.abs ex)))
  = Some (ex, "").
Proof.
  intros Hex. unfold decString.
  destruct (Z.leb_spec (Z.abs ex) 0) as [|Habs]; [lia|].
  destruct (digitsOf_spec (Z.abs ex) Habs) as (d & ds & Hds & Hd & Hall & Hval & _).
  rewrite decDigits_numeral, Hds.
  assert (Hspan : spanDigits (numeral (d :: ds)) 0 0
                  = (Z.abs ex, Z.of_nat (length (d :: ds)), "")).
  { pose proof (spanDigits_numeral (d :: ds) "" 0 0 Hall I) as H.
    rewrite Hval, append_nil_r, Z.add_0_l in H. exact H. }
  unfold numExp. cbn [Ascii.eqb Bool.eqb orb].
  destruct (Z.ltb_spec ex 0) as [Hneg|Hpos].
  - change ("-" +:+ numeral (d :: ds)) with (String "-" (numeral (d :: ds))).
    cbn [Ascii.eqb Bool.eqb]. rewrite Hspan. cbn [length].
    destruct (Z.eqb_spec (Z.of_nat (S (length ds))) 0); [lia|]. f_equal. f_equal. lia.
  - change ("+" +:+ numeral (d :: ds)) with (String "+" (numeral (d :: ds))).
    cbn [Ascii.eqb Bool.eqb]. rewrite Hspan. cbn [length].
    destruct (Z.eqb_spec (Z.of_nat (S (length ds))) 0); [lia|]. f_equal. f_equal. lia.
Qed.
(** *** Reading a written number *)

Lemma digitsValue_ge ds : forall acc,
  Forall isDecimalDigit ds -> 0 <= acc -> acc <= digitsValue acc ds.
Proof.
  induction ds as [|d ds IH]; intros acc Hall Hacc; [done|].
  apply Forall_cons in Hall as [Hd Hall]. unfold isDecimalDigit in Hd.
  change (digitsValue acc (d :: ds)) with (digitsValue (10 * acc + d) ds).
  specialize (IH (10 * acc + d) Hall ltac:(lia)). lia.
Qed.

Lemma digitsValue_pos d ds :
  Forall isDecimalDigit (d :: ds) -> d <> 0 -> 0 < digitsValue 0 (d :: ds).
Proof.
  intros Hall Hd. apply Forall_cons in Hall as [Hd' Hall]. unfold isDecimalDigit in Hd'.
  change (digitsValue 0 (d :: ds)) with (digitsValue (10 * 0 + d) ds).
  pose proof (digitsValue_ge ds (10 * 0 + d) Hall ltac:(lia)). lia.
Qed.

(** Zeros written after a whole number count as its exponent. *)
Lemma ofDecimal_shift neg s j :
  0 < s -> 0 <= j -> ofDecimal neg (s * 10 ^ j) 0 = ofDecimal neg s j.
Proof.
  intros Hs Hj.
  assert (Hp : 0 < 10 ^ j) by (apply Z.pow_pos_nonneg; lia).
  assert (Hsj : 0 < s * 10 ^ j) by (by apply Z.mul_pos_pos).
  destruct (digitsOf_spec s Hs) as (d & ds & Hds & _ & _ & _ & Hlen).
  destruct (digitsOf_spec (s * 10 ^ j) Hsj) as (d' & ds' & Hds' & _ & _ & _ & Hlen').
  unfold ofDecimal.
  destruct (Z.leb_spec (s * 10 ^ j) 0) as [|_]; [lia|].
  destruct (Z.leb_spec s 0) as [|_]; [lia|].
  rewrite Hds, Hds'.
  set (L := Z.of_nat (length (d :: ds))) in *.
  set (L' := Z.of_nat (length (d' :: ds'))) in *.
  assert (HL : L' = L + j).
  { apply (pow10_bounds_unique L' (L + j) (s * 10 ^ j)); [lia|lia|done| |done].
    replace (L + j - 1) with (L - 1 + j) by lia.
    assert (1 <= L) by (unfold L; simpl; lia).
    rewrite !Z.pow_add_r by lia. destruct Hlen as [Hlo Hhi]. split.
    - apply Z.mul_le_mono_nonneg_r; lia.
    - apply Z.mul_lt_mono_pos_r; lia. }
  rewrite HL, Z.add_0_r.
  destruct (310 <=? L + j); [done|]. destruct (L + j <=? -325); [done|].
  destruct (Z.leb_spec 0 j) as [_|]; [|lia]. cbn [Z.leb Z.compare].
  by rewrite Z.pow_0_r, Z.mul_1_r.
Qed.

Lemma isDigit_not_minus c : isDigit c = true -> Ascii.eqb c "-" = false.
Proof. destruct c as [[] [] [] [] [] [] [] []]; by vm_compute. Qed.

Lemma numInt_head text iv rest :
  numInt text = Some (iv, rest) -> numSign text = (false, text).
Proof.
  destruct text as [|c t]; [done|]. unfold numInt, numSign.
  destruct (isDigit c) eqn:Hc; [|done]. intros _. by rewrite isDigit_not_minus.
Qed.

(** A numeral in its three parts. *)
Lemma parseNumber_parts (neg : bool) text iv s2 fv flen s3 ev s4 :
  numInt text = Some (iv, s2) -> numFrac iv s2 = Some (fv, flen, s3) ->
  numExp s3 = Some (ev, s4) ->
  parseNumber ((if neg then "-" else "") +:+ text)
  = Some (ofDecimal neg fv (ev - flen), s4).
Proof.
  intros Hint Hfrac Hexp. unfold parseNumber. destruct neg.
  - change ("-" +:+ text) with (String "-" text). cbn [numSign Ascii.eqb Bool.eqb].
    by rewrite Hint, Hfrac, Hexp.
  - change ("" +:+ text) with text. rewrite (numInt_head _ _ _ Hint).
    by rewrite Hint, Hfrac, Hexp.
Qed.

(** The layout of [Number::toString] reads back as the decimal it lays
    out. *)
Lemma parseNumber_layout (neg : bool) d ds n :
  Forall isDecimalDigit (d :: ds) -> d <> 0 ->
  parseNumber ((if neg then "-" else "") +:+ layoutDigits (numeral (d :: ds)) n)
  = Some (ofDecimal neg (digitsValue 0 (d :: ds))
            (n - Z.of_nat (length (d :: ds))), "").
Proof.
  intros Hall Hd. pose proof (digitsValue_pos d ds Hall Hd) as Hpos.
  unfold layoutDigits. rewrite length_numeral.
  set (k := Z.of_nat (length (d :: ds))).
  assert (Hk : 1 <= k) by (unfold k; simpl; lia).
  destruct ((k <=? n) && (n <=? 21)) eqn:H1.
  { apply andb_true_iff in H1 as [Hkn Hn]. apply Z.leb_le in Hkn.
    rewrite zeros_numeral, <- numeral_app.
    rewrite <- (append_nil_r (numeral _)).
    erewrite parseNumber_parts; cycle 1.
    - change ((d :: ds) ++ replicate (Z.to_nat (n - k)) 0)%list
        with (d :: (ds ++ replicate (Z.to_nat (n - k)) 0))%list.
      apply numInt_numeral; [|done|done].
      change (d :: (ds ++ replicate (Z.to_nat (n - k)) 0))%list
        with ((d :: ds) ++ replicate (Z.to_nat (n - k)) 0)%list.
      apply Forall_app. split; [done|apply Forall_zeros].
    - reflexivity.
    - reflexivity.
    - change (d :: (ds ++ replicate (Z.to_nat (n - k)) 0))%list
        with ((d :: ds) ++ replicate (Z.to_nat (n - k)) 0)%list.
      rewrite digitsValue_app2, digitsValue_snoc_zeros, Z2Nat.id by lia.
      rewrite Z.sub_diag. by rewrite ofDecimal_shift by lia. }
  destruct ((0 <? n) && (n <=? 21)) eqn:H2.
  { apply andb_true_iff in H2 as [Hn0 Hn]. apply Z.ltb_lt in Hn0. apply Z.leb_le in Hn.
    apply andb_false_iff in H1 as [H1|H1]; [|apply Z.leb_gt in H1; lia].
    apply Z.leb_gt in H1.
    assert (Hlen : (Z.to_nat n <= length (d :: ds))%nat) by (unfold k in H1; lia).
    destruct (substring_numeral (d :: ds) (Z.to_nat n) Hlen) as [-> ->].
    destruct (Z.to_nat n) as [|nn] eqn:Hnn; [lia|].
    cbn [take]. cbn [drop].
    change ("." +:+ numeral (drop nn ds)) with (String "." (numeral (drop nn ds))).
    assert (Hdrop : drop nn ds <> []).
    { intros Hnil. apply (f_equal length) in Hnil. rewrite length_drop in Hnil.
      simpl in Hnil. unfold k in H1. simpl in H1. lia. }
    assert (Hparts : Forall isDecimalDigit (d :: take nn ds) /\
                     Forall isDecimalDigit (drop nn ds)).
    { rewrite <- (take_drop nn ds) in Hall. apply Forall_cons in Hall as [Hd' Hall].
      apply Forall_app in Hall as [Ht Hdr]. split; [by constructor|done]. }
    destruct Hparts as [Htake Hdr].
    erewrite parseNumber_parts; cycle 1.
    - by apply numInt_numeral.
    - rewrite <- (append_nil_r (numeral (drop nn ds))). by apply numFrac_numeral.
    - reflexivity.
    - do 2 f_equal. f_equal.
      + change (digitsValue (digitsValue 0 (d :: take nn ds)) (drop nn ds))
          with (digitsValue (digitsValue 0 ((d :: take nn ds))) (drop nn ds)).
        rewrite <- digitsValue_app2. cbn [app]. by rewrite take_drop.
      + assert (Hn' : n = Z.of_nat (S nn)) by lia.
        rewrite length_drop. unfold k. cbn [length] in *. lia. }
  destruct ((-6 <? n) && (n <=? 0)) eqn:H3.
  { apply andb_true_iff in H3 as [Hn6 Hn]. apply Z.ltb_lt in Hn6. apply Z.leb_le in Hn.
    rewrite zeros_numeral.
    change ("0." +:+ ?x) with (String "0" (String "." x)).
    rewrite <- numeral_app, <- (append_nil_r (numeral _)).
    erewrite parseNumber_parts; cycle 1.
    - reflexivity.
    - apply numFrac_numeral; [|by destruct (Z.to_nat (- n))|done].
      apply Forall_app. split; [apply Forall_zeros|done].
    - reflexivity.
    - do 2 f_equal. f_equal.
      + by rewrite digitsValue_app2, digitsValue_zeros.
      + rewrite length_app, length_replicate. unfold k. lia. }
  assert (Hex : n - 1 <> 0).
  { apply andb_false_iff in H2. apply andb_false_iff in H3.
    destruct H2 as [H2|H2]; [apply Z.ltb_ge in H2|apply Z.leb_gt in H2];
      destruct H3 as [H3|H3]; [apply Z.ltb_ge in H3|apply Z.leb_gt in H3| |]; lia. }
  destruct (Z.eqb_spec k 1) as [Hk1|Hk1].
  - assert (ds = []) as -> by (destruct ds; [done|unfold k in Hk1; simpl in Hk1; lia]).
    change ("e" +:+ ?x) with (String "e" x).
    erewrite parseNumber_parts; cycle 1.
    + by apply numInt_numeral.
    + by apply numFrac_none.
    + by apply numExp_written.
    + do 3 f_equal. unfold k. simpl. lia.
  - destruct (substring_numeral (d :: ds) 1 ltac:(simpl; lia)) as [-> ->].
    change (take 1 (d :: ds)) with [d]. change (drop 1 (d :: ds)) with ds.
    change ("." +:+ ?x) with (String "." x).
    change ("e" +:+ ?x) with (String "e" x).
    assert (Hds : ds <> []) by (destruct ds; [unfold k in Hk1; simpl in Hk1; lia|done]).
    apply Forall_cons in Hall as [Hd' Hall].
    erewrite parseNumber_parts; cycle 1.
    + apply numInt_numeral; [constructor; [done|constructor]|done|done].
    + by apply numFrac_numeral.
    + by apply numExp_written.
    + do 3 f_equal. unfold k. cbn [length]. lia.
Qed.
Lemma binary_round_aux_sign mx ex lx m e :
  binary_round_aux prec emax false mx ex lx = S754_finite false m e ->
  binary_round_aux prec emax true mx ex lx = S754_finite true m e.
Proof.
  unfold binary_round_aux.
  destruct (shr_fexp prec emax mx ex lx) as [mrs' e'].
  destruct (shr_fexp prec emax _ e' loc_Exact) as [mrs'' e''].
  destruct (shr_m mrs''); try discriminate.
  destruct (e'' <=? emax - prec); [|discriminate]. by intros [= -> ->].
Qed.

(** The sign of a decimal is the sign of the number it reads as. *)
Lemma ofDecimal_sign s q m e :
  ofDecimal false s q = S754_finite false m e ->
  ofDecimal true s q = S754_finite true m e.
Proof.
  intros H. pose proof (ofDecimal_positive s q m e H) as Hs. revert H.
  unfold ofDecimal. destruct (Z.leb_spec s 0) as [|_]; [lia|].
  destruct (310 <=? _); [discriminate|]. destruct (_ <=? -325); [discriminate|].
  destruct (Z.leb_spec 0 q) as [Hq|Hq].
  - destruct (pow_pos_Z 10 q ltac:(lia) Hq) as [t ->].
    destruct s as [|sp|sp]; try lia.
    change (- (Z.pos sp * Z.pos t)) with (Z.neg (sp * t)).
    change (Z.pos sp * Z.pos t) with (Z.pos (sp * t)).
    unfold binary_normalize, binary_round.
    destruct (shl_align _ _ _) as [mz ez]. apply binary_round_aux_sign.
  - destruct (SFdiv_core_binary prec emax s 0 (10 ^ (- q)) 0) as [[q' e'] l].
    apply binary_round_aux_sign.
Qed.

(** Every finite number but [-0] reads back from its numeral. *)
Lemma toString_readsBack p :
  is_finite p = true -> valid p = true -> p <> negzero -> readsBack p.
Proof.
  unfold readsBack. destruct p as [[]|sg| |sg m e]; try discriminate;
    intros _ Hvalid Hnz; [done|done|].
  unfold valid, valid_binary in Hvalid.
  destruct (shortest_reads m e Hvalid) as [Hpos Hread].
  assert (Htext : Num.toString (S754_finite sg m e)
                  = (if sg then "-" else "") +:+ toStringPos m e) by (by destruct sg).
  rewrite Htext. unfold toStringPos.
  destruct (shortest m e) as [s q]. cbn [fst snd] in *.
  destruct (digitsOf_spec s Hpos) as (d & ds & Hds & Hd & Hall & Hval & _).
  cbv zeta. rewrite decDigits_numeral, Hds, length_numeral.
  rewrite parseNumber_layout by done. rewrite Hval.
  replace (q + Z.of_nat (length (d :: ds)) - Z.of_nat (length (d :: ds))) with q by lia.
  destruct sg; [by rewrite (ofDecimal_sign _ _ _ _ Hread)|by rewrite Hread].
Qed.

(** *** Strings *)

Lemma append_assoc (s1 s2 s3 : string) : (s1 +:+ s2) +:+ s3 = s1 +:+ (s2 +:+ s3).
Proof. induction s1 as [|c s1 IH]; [done|]. rewrite !append_cons. by f_equal. Qed.

Lemma parse_escapeChar c tail :
  parseStringBody (escapeChar c +:+ tail) =
  match parseStringBody tail with
  | Some (ps, r) => Some (pieceOf c :: ps, r)
  | None => None
  end.
Proof. destruct c as [[] [] [] [] [] [] [] []]; reflexivity. Qed.

Lemma encodePieces_pieceOf c ps :
  encodePieces (pieceOf c :: ps) = String c (encodePieces ps).
Proof.
  destruct c as [[] [] [] [] [] [] [] []]; try reflexivity;
    destruct ps as [|[c'|u'] ps']; reflexivity.
Qed.

Lemma quoteChars_step c0 t :
  quoteChars (String c0 t) =
  match t with
  | String c1 (String c2 rest) =>
      match surrogateOf c0 c1 c2 with
      | Some u => "\u" +:+ hex4 u +:+ quoteChars rest
      | None => escapeChar c0 +:+ quoteChars t
      end
  | _ => escapeChar c0 +:+ quoteChars t
  end.
Proof.
  destruct t as [|c1 [|c2 rest]]; try reflexivity.
  cbn [quoteChars]. unfold surrogateOf.
  by destruct ((byte c0 =? 237) && (160 <=? byte c1) && (byte c1 <=? 191)
               && (128 <=? byte c2) && (byte c2 <=? 191)).
Qed.

Lemma hexVal_hexChar d : 0 <= d < 16 -> hexVal (hexChar d) = Some d.
Proof.
  intros H.
  assert (Hd : d = 0 \/ d = 1 \/ d = 2 \/ d = 3 \/ d = 4 \/ d = 5 \/ d = 6 \/ d = 7 \/
               d = 8 \/ d = 9 \/ d = 10 \/ d = 11 \/ d = 12 \/ d = 13 \/ d = 14 \/
               d = 15) by lia.
  repeat (destruct Hd as [->|Hd]); try subst d; reflexivity.
Qed.

Lemma hex4_value u :
  0 <= u < 65536 ->
  ((u / 4096 mod 16 * 16 + u / 256 mod 16) * 16 + u / 16 mod 16) * 16 + u mod 16 = u.
Proof.
  intros Hu.
  pose proof (Z.div_mod u 16 ltac:(lia)).
  pose proof (Z.div_mod (u / 16) 16 ltac:(lia)).
  pose proof (Z.div_mod (u / 16 / 16) 16 ltac:(lia)).
  rewrite !Z.div_div in * by lia. change (16 * 16) with 256 in *.
  change (256 * 16) with 4096 in *.
  assert (u / 4096 < 16) by (apply Z.div_lt_upper_bound; lia).
  assert (0 <= u / 4096) by (apply Z.div_pos; lia).
  rewrite (Z.mod_small (u / 4096) 16) by lia. lia.
Qed.

(** A \u escape is read as its code unit. *)
Lemma parse_unitEscape u tail :
  0 <= u < 65536 ->
  parseStringBody ("\u" +:+ hex4 u +:+ tail) =
  match parseStringBody tail with
  | Some (ps, r) => Some (Unit u :: ps, r)
  | None => None
  end.
Proof.
  intros Hu. unfold hex4.
  change ("\u" +:+ String ?a (String ?b (String ?c (String ?d "")))  +:+ tail)
    with (String "\" (String "u" (String a (String b (String c (String d tail)))))).
  cbn [parseStringBody]. change (byte "\" =? 34) with false.
  change (byte "\" =? 92) with true. change (byte "u" =? 117) with true. cbv iota.
  rewrite !hexVal_hexChar by (apply Z.mod_pos_bound; lia).
  by rewrite hex4_value.
Qed.

Lemma surrogateOf_range c0 c1 c2 u :
  surrogateOf c0 c1 c2 = Some u ->
  byte c0 = 237 /\ 160 <= byte c1 <= 191 /\ 128 <= byte c2 <= 191 /\
  u = 53248 + (byte c1 - 128) * 64 + (byte c2 - 128).
Proof.
  unfold surrogateOf.
  destruct (Z.eqb_spec (byte c0) 237) as [H0|]; [|done].
  destruct (Z.leb_spec 160 (byte c1)); [|done].
  destruct (Z.leb_spec (byte c1) 191); [|done].
  destruct (Z.leb_spec 128 (byte c2)); [|done].
  destruct (Z.leb_spec (byte c2) 191); [|done].
  cbn [andb]. intros [= <-]. repeat split; try lia.
  assert (byte c1 mod 64 = byte c1 - 128)
    by (symmetry; apply (Z.mod_unique (byte c1) 64 2); lia).
  assert (byte c2 mod 64 = byte c2 - 128)
    by (symmetry; apply (Z.mod_unique (byte c2) 64 2); lia).
  lia.
Qed.

Lemma char_byte c : char (byte c) = c.
Proof. unfold char, byte. rewrite N2Z.id. apply ascii_N_embedding. Qed.

(** The bytes of a surrogate are the UTF-8 form of its code unit. *)
Lemma utf8_surrogate c0 c1 c2 u :
  surrogateOf c0 c1 c2 = Some u ->
  utf8 u = String c0 (String c1 (String c2 "")) /\ 55296 <= u <= 57343.
Proof.
  intros H. destruct (surrogateOf_range _ _ _ _ H) as (H0 & H1 & H2 & ->).
  set (u := 53248 + (byte c1 - 128) * 64 + (byte c2 - 128)).
  assert (Hu : 55296 <= u <= 57343) by (unfold u; lia).
  split; [|done]. unfold utf8.
  destruct (Z.ltb_spec u 128); [lia|]. destruct (Z.ltb_spec u 2048); [lia|].
  destruct (Z.ltb_spec u 65536); [|lia].
  assert (Ha : u / 4096 = 13) by (symmetry; apply (Z.div_unique u 4096 13 (u - 53248)); lia).
  assert (Hb : u / 64 = 13 * 64 + (byte c1 - 128)).
  { symmetry. apply (Z.div_unique u 64 _ (byte c2 - 128)); unfold u; lia. }
  assert (Hb' : u / 64 mod 64 = byte c1 - 128).
  { rewrite Hb. symmetry. apply (Z.mod_unique _ 64 13); lia. }
  assert (Hc : u mod 64 = byte c2 - 128).
  { symmetry. apply (Z.mod_unique u 64 (13 * 64 + (byte c1 - 128))); unfold u; lia. }
  rewrite Ha, Hb', Hc.
  replace (224 + 13) with (byte c0) by lia.
  replace (128 + (byte c1 - 128)) with (byte c1) by lia.
  replace (128 + (byte c2 - 128)) with (byte c2) by lia.
  by rewrite !char_byte.
Qed.

Lemma pieceOf_unit c u : pieceOf c = Unit u -> u < 32.
Proof.
  unfold pieceOf. destruct (Z.ltb_spec (byte c) 32); [|done].
  destruct (negb _); [|done]. intros [= <-]. done.
Qed.

(** Whether the pieces of [s] start with a low surrogate. *)
Lemma piecesOf_head s u ps :
  piecesOf s = Unit u :: ps -> isLowSurrogate u = true -> lowSurrogateAhead s = true.
Proof.
  destruct s as [|c0 [|c1 [|c2 rest]]]; cbn [piecesOf]; try done.
  - intros [= H _] Hlow. apply pieceOf_unit in H. unfold isLowSurrogate in Hlow. lia.
  - intros [= H _] Hlow. apply pieceOf_unit in H. unfold isLowSurrogate in Hlow. lia.
  - unfold lowSurrogateAhead. destruct (surrogateOf c0 c1 c2) as [u'|].
    + by intros [= -> _].
    + intros [= H _] Hlow. apply pieceOf_unit in H. unfold isLowSurrogate in Hlow. lia.
Qed.

Lemma encodePieces_unit u ps :
  ~ (isHighSurrogate u = true /\
     exists u' ps', ps = Unit u' :: ps' /\ isLowSurrogate u' = true) ->
  encodePieces (Unit u :: ps) = utf8 u +:+ encodePieces ps.
Proof.
  intros H. cbn [encodePieces]. destruct ps as [|[c|u'] ps']; try done.
  destruct (isHighSurrogate u) eqn:Hh; [|done].
  destruct (isLowSurrogate u') eqn:Hl; [|done].
  exfalso. apply H. split; [done|]. by eexists _, _.
Qed.

(** Both facts about the pieces of a string, for strings up to a given
    length. *)
Lemma piecesOf_spec n : forall s,
  (String.length s <= n)%nat ->
  (forall tail, parseStringBody (quoteChars s +:+ String dquote tail)
                = Some (piecesOf s, tail)) /\
  (wellEncoded s = true -> encodePieces (piecesOf s) = s).
Proof.
  induction n as [|n IH]; intros s Hlen.
  { destruct s; [|simpl in Hlen; lia]. by split. }
  destruct s as [|c0 t]; [by split|].
  assert (Hplain :
    (forall tail, parseStringBody ((escapeChar c0 +:+ quoteChars t) +:+ String dquote tail)
                  = Some (pieceOf c0 :: piecesOf t, tail)) /\
    (wellEncoded t = true -> encodePieces (pieceOf c0 :: piecesOf t) = String c0 t)).
  { destruct (IH t ltac:(simpl in Hlen; lia)) as [Hp He]. split.
    - intros tail. by rewrite append_assoc, parse_escapeChar, Hp.
    - intros Hw. by rewrite encodePieces_pieceOf, He. }
  rewrite quoteChars_step. cbn [piecesOf wellEncoded].
  destruct t as [|c1 [|c2 rest]]; try exact Hplain.
  destruct (surrogateOf c0 c1 c2) as [u|] eqn:Hu; [|exact Hplain].
  destruct (IH rest ltac:(simpl in Hlen; lia)) as [Hp He].
  destruct (utf8_surrogate _ _ _ _ Hu) as [Hutf Hrange]. split.
  - intros tail. rewrite !append_assoc.
    rewrite parse_unitEscape by lia. by rewrite Hp.
  - intros Hw. apply andb_true_iff in Hw as [Hpair Hw].
    rewrite encodePieces_unit.
    + by rewrite Hutf, He.
    + intros (Hh & u' & ps' & Hps & Hl).
      rewrite (piecesOf_head rest u' ps' Hps Hl), Hh in Hpair. done.
Qed.

Lemma parseStringBody_quoteChars s tail :
  parseStringBody (quoteChars s +:+ String dquote tail) = Some (piecesOf s, tail).
Proof. by apply (piecesOf_spec (String.length s) s). Qed.

Lemma encodePieces_piecesOf s :
  wellEncoded s = true -> encodePieces (piecesOf s) = s.
Proof. by apply (piecesOf_spec (String.length s) s). Qed.

(** *** Values *)

Lemma quote_append s tail :
  quote s +:+ tail = String dquote (quoteChars s +:+ String dquote tail).
Proof. unfold quote. rewrite append_cons, append_assoc. done. Qed.

Lemma parseValue_quoted f t :
  parseValue (S f) (String dquote t) =
  match parseStringBody t with
  | Some (ps, rest) => Some (VStr (encodePieces ps), rest)
  | None => None
  end.
Proof. reflexivity. Qed.

(** A quoted string is read back as that string. *)
Lemma parseValue_string f s tail :
  wellEncoded s = true ->
  parseValue (S f) (quote s +:+ tail) = Some (VStr s, tail).
Proof.
  intros Hs. rewrite quote_append, parseValue_quoted.
  rewrite parseStringBody_quoteChars. by rewrite encodePieces_piecesOf.
Qed.

(** A numeral starts with a digit or a minus sign. *)
Lemma parseNumber_head s x r :
  parseNumber s = Some (x, r) ->
  exists c t, s = String c t /\ (isDigit c = true \/ c = "-"%char).
Proof.
  unfold parseNumber. destruct s as [|c t]; [done|]. intros H.
  exists c, t. split; [done|]. unfold numSign in H.
  destruct (Ascii.eqb_spec c "-") as [->|_]; [by right|]. left.
  unfold numInt in H. by destruct (isDigit c).
Qed.

Lemma parseValue_numeral f c t :
  isDigit c = true \/ c = "-"%char ->
  skipWs (String c t) = String c t /\
  parseValue (S f) (String c t) =
  match parseNumber (String c t) with
  | Some (x, rest) => Some (VNum x, rest)
  | None => None
  end.
Proof.
  intros [Hd| ->]; [|by split].
  destruct c as [[] [] [] [] [] [] [] []]; try discriminate Hd; by split.
Qed.

(** A numeral that [parseNumber] accepts is read as that number. *)
Lemma parseValue_number f s x r :
  parseNumber s = Some (x, r) ->
  skipWs s = s /\ parseValue (S f) s = Some (VNum x, r).
Proof.
  intros H. destruct (parseNumber_head s x r H) as (c & t & -> & Hc).
  destruct (parseValue_numeral f c t Hc) as [Hs Hv].
  split; [done|]. by rewrite Hv, H.
Qed.

Lemma parseValue_toString f p tail :
  readsBack p ->
  skipWs (Num.toString p +:+ String "," tail) = Num.toString p +:+ String "," tail /\
  parseValue (S f) (Num.toString p +:+ String "," tail)
  = Some (VNum p, String "," tail).
Proof.
  intros Hp. apply (parseValue_number f). by rewrite parseNumber_comma, Hp.
Qed.

(** *** Members *)

Lemma parseMembers_quoted f t acc :
  parseMembers (S f) (String dquote t) acc =
  match parseStringBody t with
  | Some (ks, rest) =>
      match skipWs rest with
      | String c1 t1 =>
          if byte c1 =? 58 then
            match parseValue f (skipWs t1) with
            | Some (v, rest2) =>
                let acc' := setProp (encodePieces ks) v acc in
                match skipWs rest2 with
                | String c2 t2 =>
                    if byte c2 =? 44 then parseMembers f (skipWs t2) acc'
                    else if byte c2 =? 125 then Some (acc', t2)
                    else None
                | EmptyString => None
                end
            | None => None
            end
          else None
      | EmptyString => None
      end
  | None => None
  end.
Proof. reflexivity. Qed.

(** One member [key:value] followed by a comma, then the next. *)
Lemma parseMembers_comma f key vtext v next acc :
  wellEncoded key = true -> skipWs vtext = vtext ->
  parseValue f vtext = Some (v, String "," (String dquote next)) ->
  parseMembers (S f) (quote key +:+ ":" +:+ vtext) acc =
  parseMembers f (String dquote next) (setProp key v acc).
Proof.
  intros Hkey Hskip Hv. rewrite quote_append, parseMembers_quoted.
  rewrite parseStringBody_quoteChars.
  rewrite append_cons. cbn [skipWs]. change (isJsonWs ":") with false. cbv iota.
  change (byte ":" =? 58) with true. cbv iota.
  change ("" +:+ vtext) with vtext. rewrite Hskip, Hv, encodePieces_piecesOf by done.
  reflexivity.
Qed.

(** The last member, followed by the closing brace. *)
Lemma parseMembers_brace f key vtext v tail acc :
  wellEncoded key = true -> skipWs vtext = vtext ->
  parseValue f vtext = Some (v, String "}" tail) ->
  parseMembers (S f) (quote key +:+ ":" +:+ vtext) acc =
  Some (setProp key v acc, tail).
Proof.
  intros Hkey Hskip Hv. rewrite quote_append, parseMembers_quoted.
  rewrite parseStringBody_quoteChars.
  rewrite append_cons. cbn [skipWs]. change (isJsonWs ":") with false. cbv iota.
  change (byte ":" =? 58) with true. cbv iota.
  change ("" +:+ vtext) with vtext. rewrite Hskip, Hv, encodePieces_piecesOf by done.
  reflexivity.
Qed.

(** *** Cart items *)

Lemma serialize_item name p id :
  is_finite p = true ->
  serialize (cartItem (VStr name) (VNum p) id) = Some (itemText name p id).
Proof.
  intros Hfin. unfold cartItem, itemText. cbn [serialize omap list_omap fst snd join].
  rewrite Hfin. cbn [omap list_omap fst snd join mbind option_bind].
  by rewrite !append_assoc.
Qed.

Lemma parseValue_brace f t :
  parseValue (S f) (String "{" (String dquote t)) =
  match parseMembers f (String dquote t) [] with
  | Some (ps, rest) => Some (VObj ps, rest)
  | None => None
  end.
Proof. reflexivity. Qed.

(** An item text is read back as the item, with fuel for its three
    members. *)
Lemma parseValue_item k name p id tail :
  wellEncoded name = true -> wellEncoded id = true -> readsBack p ->
  parseValue (S (S (S (S (S k))))) (itemText name p id +:+ tail)
  = Some (cartItem (VStr name) (VNum p) id, tail).
Proof.
  intros Hname Hid Hp. unfold itemText.
  rewrite !append_assoc.
  change ("{" +:+ ?x) with (String "{" x).
  rewrite (quote_append "name"). rewrite parseValue_brace.
  rewrite <- (quote_append "name").
  (* name *)
  rewrite (quote_append "price").
  erewrite parseMembers_comma; [|done|by rewrite quote_append|].
  2:{ rewrite parseValue_string by done. reflexivity. }
  rewrite <- (quote_append "price").
  (* price *)
  rewrite (quote_append "id").
  destruct (parseValue_toString (S k) p
              (String dquote (quoteChars "id" +:+ String dquote (":" +:+ quote id +:+ "}" +:+ tail)))
              Hp) as [Hskip Hnum].
  erewrite parseMembers_comma; [|done|exact Hskip|exact Hnum].
  rewrite <- (quote_append "id").
  (* id *)
  erewrite parseMembers_brace; [|done|by rewrite quote_append|].
  2:{ rewrite parseValue_string by done. reflexivity. }
  reflexivity.
Qed.

(** *** The cart array *)

Lemma wellFormedItem_readsAs item :
  wellFormedItem item -> readsAs (default "null" (serialize item)) item.
Proof.
  intros (name & p & id & -> & Hname & Hid & Hfin & Hvalid & Hnz).
  rewrite serialize_item by done. split.
  - intros k tail. apply parseValue_item; [done|done|].
    by apply toString_readsBack.
  - by eexists.
Qed.

Lemma parseElements_unfold f s :
  parseElements (S f) s =
  match parseValue f s with
  | Some (v, rest) =>
      match skipWs rest with
      | String c t =>
          if byte c =? 44 then
            match parseElements f (skipWs t) with
            | Some (l, rest') => Some (v :: l, rest')
            | None => None
            end
          else if byte c =? 93 then Some ([v], t)
          else None
      | EmptyString => None
      end
  | None => None
  end.
Proof. reflexivity. Qed.

Lemma join_cons sep x y l : join sep (x :: y :: l) = x +:+ sep +:+ join sep (y :: l).
Proof. reflexivity. Qed.

Lemma join_readsAs texts items :
  Forall2 readsAs texts items -> texts <> [] ->
  exists t, join "," texts = String "{" t.
Proof.
  intros H Hne. destruct H as [|text v texts' items' [_ [t ->]] H']; [done|].
  destruct texts'; cbn [join]; by eexists.
Qed.

(** The elements of a non-empty array of object texts, up to the
    closing bracket. *)
Lemma parseElements_join texts items :
  Forall2 readsAs texts items -> texts <> [] ->
  forall k tail,
    parseElements (length items + 5 + k) (join "," texts +:+ String "]" tail)
    = Some (items, tail).
Proof.
  induction 1 as [|text v texts' items' Hread Hrest IH]; intros Hne k tail; [done|].
  cbn [length]. change (S (length items') + 5 + k)%nat
    with (S (length items' + 5 + k)).
  rewrite parseElements_unfold.
  replace (length items' + 5 + k)%nat with (5 + (length items' + k))%nat by lia.
  destruct texts' as [|text2 more].
  - apply Forall2_nil_inv_l in Hrest as ->.
    cbn [join]. rewrite (proj1 Hread). reflexivity.
  - assert (Hne' : text2 :: more <> []) by done.
    destruct (join_readsAs _ _ Hrest Hne') as [t Ht].
    rewrite join_cons, append_assoc, (proj1 Hread).
    rewrite append_assoc. change ("," +:+ ?x) with (String "," x).
    cbn [skipWs]. change (isJsonWs ",") with false. cbv iota.
    change (byte "," =? 44) with true. cbv iota.
    rewrite Ht, append_cons. cbn [skipWs]. change (isJsonWs "{") with false.
    cbv iota. rewrite <- append_cons, <- Ht.
    replace (5 + (length items' + k))%nat with (length items' + 5 + k)%nat by lia.
    by rewrite IH.
Qed.

Lemma length_join texts items :
  Forall2 readsAs texts items ->
  (length items <= String.length (join "," texts))%nat.
Proof.
  induction 1 as [|text v texts' items' [_ [t ->]] Hrest IH]; [done|].
  destruct texts' as [|text2 more].
  - apply Forall2_nil_inv_l in Hrest as ->. cbn. lia.
  - rewrite join_cons, append_cons. cbn [length String.length].
    rewrite length_append. change ("," +:+ ?x) with (String "," x).
    cbn [String.length]. lia.
Qed.

Lemma parseValue_bracket f t :
  parseValue (S f) (String "[" (String "{" t)) =
  match parseElements f (String "{" t) with
  | Some (l, rest) => Some (VArr l, rest)
  | None => None
  end.
Proof. reflexivity. Qed.


(* ===================================================================== *)
(** ** Saving, then loading *)
(* ===================================================================== *)

Lemma cartText_cons c : exists rest, cartText c = String "[" rest.
Proof. unfold cartText. simpl. by eexists. Qed.

(** With usable storage, loading right after saving finds the saved
    text. *)
Lemma persisted_after_save w :
  storageUsable (storage w) (cartText (cart w)) ->
  persisted (storage (exec saveCart w)) =
  match Js.parse (cartText (cart w)) with
  | Some (VArr l) => StoredArray l
  | Some v => NotAnArray v
  | None => Unreadable (cartText (cart w))
  end.
Proof.
  intros Hus. unfold exec. rewrite (saveCart_usable w Hus). simpl.
  destruct Hus as (Hi & Ha & _). unfold persisted. simpl. rewrite Hi, Ha.
  rewrite lookup_insert_eq. by destruct (cartText_cons (cart w)) as [rest ->].
Qed.



Lemma twoItemWorld_wellFormed : Forall wellFormedItem (cart twoItemWorld).
Proof.
  change (Forall wellFormedItem
            [cartItem (VStr "Sunset Print") (VNum price25) (newId entropy1);
             cartItem (VStr "Ocean Wave") (VNum price40) (newId entropy2)]).
  repeat constructor.
  - exists "Sunset Print", price25, (newId entropy1). by_evaluation.
  - exists "Ocean Wave", price40, (newId entropy2). by_evaluation.
Qed.


(** Numbers of all sizes read back, [-0] apart, which is written "0";
    so does a name that holds a surrogate on its own. *)
Example readsBack_samples :
  readsBack (ofDecimal false 1 (-1)) /\ readsBack (ofDecimal false 1999 (-2)) /\
  readsBack (ofDecimal false 1 21) /\ readsBack (ofDecimal false 5 (-324)) /\
  readsBack (ofDecimal false 17976931348623157 292) /\
  readsBack (add (ofDecimal false 1 (-1)) (ofDecimal false 2 (-1))) /\
  readsBack zero /\ ~ readsBack negzero /\
  wellEncoded loneSurrogateName = true /\
  Js.parse (quote loneSurrogateName) = Some (VStr loneSurrogateName).
Proof. by_evaluation. Qed.


(* ===================================================================== *)
(** ** Clearing *)
(* ===================================================================== *)

Lemma cartText_nil : cartText [] = "[]".
Proof. reflexivity. Qed.

(** The state after a confirmed clear, up to the view. *)
Lemma clearCart_confirmed w :
  cart w <> [] ->
  let w1 := {| cart := []; storage := storage w; page := page w;
               trace := (trace w ++ [Confirm confirmText true])%list |} in
  let w' := exec (clearCart true) w in
  cart w' = [] /\ storage w' = storage (exec saveCart w1) /\
  trace w' = trace (exec saveCart w1).
Proof.
  intros Hne w1 w'. subst w'. unfold clearCart, exec. unfold_monad. simpl.
  destruct (cart w) as [|item rest]; [done|]. simpl.
  match goal with |- context [saveCart ?w0] => change w0 with w1 end.
  pose proof (saveCart_frame w1) as (Hn & Hcart & _).
  unfold exec, completion in Hn, Hcart.
  destruct (saveCart w1) as [[[]|e] w2]; simpl in Hn, Hcart |- *; [|discriminate].
  pose proof (updateCartUI_frame w2) as (Hc & Hs & Ht & _). unfold exec in *.
  destruct (updateCartUI w2) as [[[]|e] w3]; simpl in *;
    (split; [congruence|split; congruence]).
Qed.

(** C7, as the script has it.  On an empty cart [clearCart] shows no
    dialog and changes nothing.  On a non-empty cart it shows the
    confirm dialog once.  If the user declines, nothing else happens:
    cart, storage and page stay as they were.  If the user confirms,
    the cart becomes empty; the storage then holds the empty sequence
    under the cart key when it takes that write, and is left as it was
    (with a warning when the write threw) when it does not. *)
Theorem clearCart_spec (w : World) (answer : bool) :
  let w' := exec (clearCart answer) w in
  (cart w = [] -> clearCart answer w = (Normal tt, w)) /\
  (cart w <> [] ->
   (exists rest, trace w' = (trace w ++ Confirm confirmText answer :: rest)%list /\
                 forall msg a, Confirm msg a ∉ rest) /\
   (answer = false ->
    cart w' = cart w /\ storage w' = storage w /\ page w' = page w) /\
   (answer = true ->
    cart w' = [] /\
    (storageUsable (storage w) "[]" ->
     items (storage w') !! cartKey = Some "[]" /\
     persisted (storage w') = StoredArray []) /\
    (~ storageUsable (storage w) "[]" -> storage w' = storage w))).
Proof.
  intros w'. split.
  { intros Hc. unfold clearCart. unfold_monad. simpl. by rewrite Hc. }
  intros Hne. destruct answer.
  - pose proof (clearCart_confirmed w Hne) as (Hcart & Hst & Htr).
    fold w' in Hcart, Hst, Htr.
    set (w1 := {| cart := []; storage := storage w; page := page w;
                  trace := (trace w ++ [Confirm confirmText true])%list |}) in *.
    pose proof (saveCart_frame w1) as (_ & _ & _ & Htrace & Hstore).
    split; [|split; [done|]].
    + rewrite Htr. destruct Htrace as [-> | (msg & args & ->)]; simpl.
      * exists []. split; [done|]. intros ? ?. apply not_elem_of_nil.
      * exists [Warn msg args]. rewrite <- app_assoc. split; [done|].
        intros ? ? H. apply list_elem_of_singleton in H. discriminate.
    + intros _. split; [done|]. split.
      * intros Hus. rewrite Hst.
        pose proof (persisted_after_save w1 Hus) as Hp.
        unfold exec in *. rewrite (saveCart_usable w1 Hus) in Hp |- *.
        simpl in *. by rewrite lookup_insert_eq.
      * intros Hnot. rewrite Hst. by destruct Hstore.
  - subst w'. unfold clearCart, exec. unfold_monad. simpl.
    destruct (cart w) as [|item rest] eqn:Hc; [done|]. simpl.
    split; [|split; [done|done]].
    exists []. split; [done|]. intros ? ?. apply not_elem_of_nil.
Qed.

(** C7 as stated fails: when the write throws, a confirmed clear empties
    the cart but the storage still holds the old item. *)
Lemma clearCart_write_fails :
  cart fullStorageWorld <> [] /\
  cart (exec (clearCart true) fullStorageWorld) = [] /\
  persisted (storage (exec (clearCart true) fullStorageWorld))
    = StoredArray (cart fullStorageWorld) /\
  persisted (storage (exec (clearCart true) fullStorageWorld)) <> StoredArray [].
Proof. by_evaluation. Qed.

(* ===================================================================== *)
(** ** The cart view *)
(* ===================================================================== *)

Lemma rowsFrom_length c : forall k, length (rowsFrom k c) = length c.
Proof. induction c as [|x c IH]; intros k; simpl; [done|by rewrite IH]. Qed.

Lemma renderRows_renderable items : forall index w rows,
  Forall renderable items -> cartTable (page w) = Some rows ->
  renderRows items index w =
  (Normal tt,
   {| cart := cart w; storage := storage w;
      page := withCartTable (Some (rows ++ rowsFrom index items)%list) (page w);
      trace := trace w |}).
Proof.
  induction items as [|item rest IH]; intros index w rows Hall Htable.
  - simpl. unfold_monad. rewrite app_nil_r.
    destruct w as [c st [] t]. simpl in *. by subst.
  - apply Forall_cons in Hall as [Hitem Hrest].
    rewrite renderRows_cons by done. rewrite Htable.
    erewrite IH; [|done|reflexivity]. simpl.
    by rewrite <- app_assoc.
Qed.

Lemma Forall_renderable_priced c : Forall renderable c -> Forall priced c.
Proof. intros H. eapply Forall_impl; [exact H|]. intros item. apply renderable_priced. Qed.

Lemma updateCartUI_renderable w rows t :
  cartTable (page w) = Some rows -> cartTotal (page w) = Some t ->
  Forall renderable (cart w) ->
  updateCartUI w =
  (Normal tt,
   {| cart := cart w; storage := storage w;
      page := withCartTotal (Some (viewTotal (cart w)))
                (withCartTable (Some (viewRows (cart w))) (page w));
      trace := trace w |}).
Proof.
  intros Htable Htotal Hall. unfold updateCartUI. unfold_monad. simpl.
  rewrite Htable. simpl. destruct (cart w) as [|item rest] eqn:Hc.
  - simpl. by rewrite Htotal.
  - remember (item :: rest) as c eqn:Ec.
    erewrite renderRows_renderable; [|done|reflexivity]. simpl.
    rewrite Htotal. rewrite sumPrices_priced by (by apply Forall_renderable_priced).
    simpl. unfold viewTotal, viewRows, sumOfPrices. by subst c.
Qed.

(** *** Two decimals *)

Lemma length_substring s : forall n m,
  (n + m <= String.length s)%nat -> String.length (String.substring n m s) = m.
Proof.
  induction s as [|c s IH]; intros [|n] [|m] H; simpl in *; try lia; try done.
  - by rewrite IH by lia.
  - apply IH. lia.
  - apply IH. lia.
Qed.

Lemma length_zeros n : String.length (zeros n) = n.
Proof. induction n as [|n IH]; simpl; [done|by rewrite IH]. Qed.

Lemma toFixedPos_two_decimals m e :
  belowE21 (S754_finite false m e) = true ->
  exists whole frac,
    toFixedPos 2 m e = whole +:+ "." +:+ frac /\ String.length frac = 2%nat.
Proof.
  unfold belowE21, toFixedPos. destruct (scaled m e 0) as [num1 den1].
  intros Hlt. apply negb_true_iff in Hlt. rewrite Hlt.
  destruct (scaled m e (Z.of_nat 2)) as [num den].
  set (ds := decString ((2 * num + den) / (2 * den))).
  set (ds' := if (String.length ds <=? 2)%nat
              then zeros (2 + 1 - String.length ds) +:+ ds else ds).
  assert (Hlen : (3 <= String.length ds')%nat).
  { subst ds'. destruct (Nat.leb_spec (String.length ds) 2).
    - rewrite length_append, length_zeros. lia.
    - lia. }
  eexists _, _. split; [reflexivity|].
  unfold substring_from. rewrite length_substring by lia. lia.
Qed.

(** Below [10^21] in size, [toFixed(2)] writes exactly two characters
    after the point. *)
Lemma toFixed_two_decimals x :
  belowE21 x = true ->
  exists whole frac,
    toFixed 2 x = whole +:+ "." +:+ frac /\ String.length frac = 2%nat.
Proof.
  destruct x as [s|s| |s m e]; try discriminate; intros Hx.
  - by exists "0", "00".
  - destruct (toFixedPos_two_decimals m e) as (whole & frac & Heq & Hlen); [done|].
    destruct s; simpl; rewrite Heq.
    + by exists (String "-" whole), frac.
    + by exists whole, frac.
Qed.

(** C8, as the script has it.  On a page that has the cart table and
    the total, and for a cart whose items have a number for a price and
    a name with a string form (as every item of the data model has),
    the view [updateCartUI] leaves is the function
    [viewRows]/[viewTotal] of the cart, whatever the table and the
    total showed before and whatever else the state holds; nothing but
    the view changes.  The empty cart gives the single placeholder row
    and "Total: $0.00"; a non-empty cart gives one row per item and the
    sum of the prices written by [toFixed(2)], which is a numeral with
    two decimals when the sum is below [10^21] in size.  On the
    scenario: after items priced 25.00 and 40 the total reads
    "Total: $65.00"; after the Remove button of row 0 it reads
    "Total: $40.00" and one row is left. *)
Theorem updateCartUI_view :
  (forall (w : World) (rows : list Row) (t : string),
     cartTable (page w) = Some rows -> cartTotal (page w) = Some t ->
     Forall renderable (cart w) ->
     updateCartUI w =
     (Normal tt,
      {| cart := cart w; storage := storage w;
         page := withCartTotal (Some (viewTotal (cart w)))
                   (withCartTable (Some (viewRows (cart w))) (page w));
         trace := trace w |})) /\
  (viewRows [] = [EmptyRow "Your cart is empty"] /\ viewTotal [] = "Total: $0.00") /\
  (forall c, c <> [] ->
     length (viewRows c) = length c /\
     viewTotal c = "Total: $" +:+ toFixed 2 (sumOfPrices c) /\
     (belowE21 (sumOfPrices c) = true ->
      exists whole frac,
        viewTotal c = "Total: $" +:+ whole +:+ "." +:+ frac /\
        String.length frac = 2%nat)) /\
  (cartTotal (page twoItemWorld) = Some "Total: $65.00" /\
   let w3 := exec (removeButtonClick 0) twoItemWorld in
   cartTotal (page w3) = Some "Total: $40.00" /\
   cartTable (page w3)
   = Some [ItemRow "Ocean Wave" "$40.00" "0" "Remove Ocean Wave from cart" 0]).
Proof.
  split; [exact updateCartUI_renderable|]. split; [by split|]. split.
  - intros c Hc. split; [|split; [done|]].
    + destruct c; [done|]. apply rowsFrom_length.
    + intros Hb. destruct (toFixed_two_decimals _ Hb) as (whole & frac & Heq & Hlen).
      exists whole, frac. split; [|done]. unfold viewTotal. by rewrite Heq.
  - by_evaluation.
Qed.

Lemma twoItemWorld_renderable : Forall renderable (cart twoItemWorld).
Proof.
  change (Forall renderable
            [cartItem (VStr "Sunset Print") (VNum price25) (newId entropy1);
             cartItem (VStr "Ocean Wave") (VNum price40) (newId entropy2)]).
  repeat constructor; by eexists.
Qed.

Lemma updateCartUI_view_witness :
  cartTable (page twoItemWorld) = Some (viewRows (cart twoItemWorld)) /\
  cartTotal (page twoItemWorld) = Some "Total: $65.00" /\
  Forall renderable (cart twoItemWorld) /\
  updateCartUI twoItemWorld =
  (Normal tt,
   {| cart := cart twoItemWorld; storage := storage twoItemWorld;
      page := withCartTotal (Some (viewTotal (cart twoItemWorld)))
                (withCartTable (Some (viewRows (cart twoItemWorld)))
                   (page twoItemWorld));
      trace := trace twoItemWorld |}).
Proof.
  assert (Htable : cartTable (page twoItemWorld) = Some (viewRows (cart twoItemWorld)))
    by (vm_compute; reflexivity).
  assert (Htotal : cartTotal (page twoItemWorld) = Some "Total: $65.00")
    by (vm_compute; reflexivity).
  split; [exact Htable|]. split; [exact Htotal|].
  split; [exact twoItemWorld_renderable|].
  exact (proj1 updateCartUI_view twoItemWorld _ _ Htable Htotal twoItemWorld_renderable).
Defined.

(** C8 as stated fails: the total is not always written with two
    decimals.  An item added with the price "1e21" gives a row and a
    total in exponent notation. *)
Lemma updateCartUI_total_exponent :
  cartTotal (page (exec (addToCart (VStr "Mural") (VStr "1e21") entropy1) freshWorld))
    = Some "Total: $1e+21" /\
  cartTable (page (exec (addToCart (VStr "Mural") (VStr "1e21") entropy1) freshWorld))
    = Some [ItemRow "Mural" "$1e+21" "0" "Remove Mural from cart" 0] /\
  completion (addToCart (VStr "Mural") (VStr "1e21") entropy1) freshWorld = Normal tt.
Proof. by_evaluation. Qed.

(** Outside the claim's carts: an item whose price is not a number
    stops the rendering with a TypeError, the rows built so far staying
    in the table. *)
Example updateCartUI_unpriced :
  let w := exec loadCart (storedWorld "[null]") in
  completion updateCartUI w = Throw (TypeError "Cannot read properties of null") /\
  cartTable (page (exec updateCartUI w)) = Some [].
Proof. by_evaluation. Qed.

(** So does an item whose name has no string form, though its price is
    a number: a stored object with a property [toString] for a name. *)
Example updateCartUI_unnamed :
  let item := VObj [("name", VObj [("toString", VNum (ofZ 1))]); ("price", VNum (ofZ 1))] in
  let w := exec loadCart (storedWorld (cartText [item])) in
  cart w = [item] /\ priced item /\
  completion updateCartUI w = Throw conversionError /\
  cartTable (page (exec updateCartUI w)) = Some [].
Proof.
  cbv zeta. split; [by vm_compute|]. split; [by eexists|]. by_evaluation.
Qed.

(* ===================================================================== *)
(** ** The gallery modal *)
(* ===================================================================== *)

Lemma closeModal_closes w display :
  modalOverlay (page w) = Some display -> closedFrom w (exec closeModal w).
Proof.
  intros Hov. unfold closedFrom, isOpen, closeModal, exec. unfold_monad. simpl.
  rewrite Hov. simpl. repeat split; try done; by destruct (modalImage (page w)).
Qed.

(** C9.  On a page with the modal overlay, each close event (a click
    on the close button, a click whose target is the overlay itself,
    the Escape key while the modal is open) hides the overlay, restores
    page scrolling and clears the image source, leaving the modal
    closed; the Escape key while the modal is not open changes
    nothing. *)
Theorem modal_close_events (w : World) (display : string) :
  modalOverlay (page w) = Some display ->
  closedFrom w (exec closeButtonClick w) /\
  closedFrom w (exec (overlayClick true) w) /\
  (isOpen w -> closedFrom w (exec (documentKeydown "Escape") w)) /\
  (~ isOpen w -> documentKeydown "Escape" w = (Normal tt, w)).
Proof.
  intros Hov. split; [|split; [|split]].
  - by eapply closeModal_closes.
  - by eapply closeModal_closes.
  - intros Hopen. unfold isOpen in Hopen.
    assert (Hrun : documentKeydown "Escape" w = closeModal w).
    { unfold documentKeydown. unfold_monad. simpl. by rewrite Hopen. }
    unfold exec. rewrite Hrun. by eapply closeModal_closes.
  - intros Hclosed. unfold isOpen in Hclosed.
    unfold documentKeydown. unfold_monad. simpl. rewrite Hov.
    destruct (String.eqb_spec display "flex") as [->|_]; [by rewrite Hov in Hclosed|done].
Qed.

Lemma modal_close_events_witness :
  modalOverlay (page openWorld) = Some "flex" /\
  modalImage (page openWorld) = Some "art1-full.jpg" /\
  modalCaption (page openWorld) = Some ("Autumn", "block") /\
  closedFrom openWorld (exec (documentKeydown "Escape") openWorld) /\
  modalImage (page (exec (documentKeydown "Escape") openWorld)) = Some "".
Proof.
  assert (Hov : modalOverlay (page openWorld) = Some "flex") by reflexivity.
  split; [exact Hov|]. split; [reflexivity|]. split; [reflexivity|].
  split; [|reflexivity].
  exact (proj1 (proj2 (proj2 (modal_close_events openWorld "flex" Hov))) Hov).
Defined.

(** A click inside the overlay that lands on the image leaves the
    modal open; other keys do nothing. *)
Example modal_stays_open :
  overlayClick false openWorld = (Normal tt, openWorld) /\
  documentKeydown "Enter" openWorld = (Normal tt, openWorld).
Proof. split; reflexivity. Qed.

(* ===================================================================== *)
(** ** Checkout *)
(* ===================================================================== *)

(** C10.  [checkout] returns normally and leaves the cart, the storage
    and the page as they were, for every state; all it does is show one
    alert. *)
Theorem checkout_only_alerts (w : World) :
  exists msg,
    checkout w =
    (Normal tt,
     {| cart := cart w; storage := storage w; page := page w;
        trace := (trace w ++ [Alert msg])%list |}).
Proof.
  destruct w as [c st p t]. unfold checkout. unfold_monad. simpl.
  destruct c; by eexists.
Qed.

Example checkout_messages :
  trace (exec checkout freshWorld) = [Alert "Your cart is empty!"] /\
  trace (exec checkout twoItemWorld)
  = (trace twoItemWorld ++ [Alert "Checkout functionality coming soon!"])%list.
Proof. split; reflexivity. Qed.

(* ===================================================================== *)
(** * Further properties *)
(* ===================================================================== *)

(** Properties of the navigation, the forms, the initialization and the
    cart that go beyond what the specification states. *)

(* ===================================================================== *)
(** ** Class lists *)
(* ===================================================================== *)

Lemma contains_spec token l : contains token l = true <-> token ∈ l.
Proof. unfold contains. by rewrite bool_decide_eq_true. Qed.

Lemma contains_false token l : contains token l = false <-> token ∉ l.
Proof. unfold contains. by rewrite bool_decide_eq_false. Qed.

Lemma elem_of_classRemove c token l :
  c ∈ classRemove token l <-> c <> token /\ c ∈ l.
Proof. unfold classRemove. by rewrite list_elem_of_filter. Qed.

Lemma elem_of_classAdd c token l : c ∈ classAdd token l <-> c = token \/ c ∈ l.
Proof.
  unfold classAdd. destruct (contains token l) eqn:H.
  - apply contains_spec in H. naive_solver.
  - rewrite elem_of_app, list_elem_of_singleton. naive_solver.
Qed.

Lemma elem_of_classToggle c token l :
  c ∈ classToggle token l <->
  (c = token /\ token ∉ l) \/ (c <> token /\ c ∈ l).
Proof.
  unfold classToggle. destruct (contains token l) eqn:H.
  - apply contains_spec in H. rewrite elem_of_classRemove. naive_solver.
  - apply contains_false in H. rewrite elem_of_app, list_elem_of_singleton.
    destruct (decide (c = token)); naive_solver.
Qed.

Lemma classRemove_idem token l :
  classRemove token (classRemove token l) = classRemove token l.
Proof.
  unfold classRemove. induction l as [|x l IH]; [done|].
  rewrite filter_cons. destruct (decide (x <> token)) as [Hx|Hx]; [|done].
  rewrite filter_cons_True by done. by rewrite IH.
Qed.

Lemma classRemove_absent token l : token ∉ l -> classRemove token l = l.
Proof.
  unfold classRemove. induction l as [|x l IH]; intros H; [done|].
  apply not_elem_of_cons in H as [H1 H2].
  rewrite filter_cons_True by done. by rewrite IH.
Qed.

Lemma classRemove_classAdd token l :
  classRemove token (classAdd token l) = classRemove token l.
Proof.
  unfold classAdd. destruct (contains token l); [done|].
  unfold classRemove. rewrite filter_app.
  rewrite filter_cons_False by (intros H; by apply H).
  by rewrite filter_nil, app_nil_r.
Qed.
(* ===================================================================== *)
(** ** The mobile menu *)
(* ===================================================================== *)

(** One click on the toggle flips the menu and the toggle, and
    aria-expanded then says what the menu shows; no other class and no
    link changes. *)
Lemma navToggleClick_step (nav : Toggle * Menu) :
  let nav' := navToggleClick nav in
  (menuOpen nav' <-> ~ menuOpen nav) /\
  (togglePressed nav' <-> ~ togglePressed nav) /\
  (announcedOpen nav' <-> menuOpen nav') /\
  (ariaExpanded nav'.1 = Some "false" <-> ~ menuOpen nav') /\
  (forall c, c <> "active" ->
     (c ∈ menuClasses nav'.2 <-> c ∈ menuClasses nav.2) /\
     (c ∈ toggleClasses nav'.1 <-> c ∈ toggleClasses nav.1)) /\
  links nav'.2 = links nav.2.
Proof.
  destruct nav as [t m]. unfold menuOpen, togglePressed, announcedOpen. simpl.
  rewrite !elem_of_classToggle.
  split; [naive_solver|]. split; [naive_solver|].
  destruct (contains "active" (menuClasses m)) eqn:Hc.
  - apply contains_spec in Hc. simpl.
    split; [naive_solver|]. split; [naive_solver|].
    split; [|done]. intros c Hne. rewrite !elem_of_classToggle. naive_solver.
  - apply contains_false in Hc. simpl.
    split; [naive_solver|]. split; [naive_solver|].
    split; [|done]. intros c Hne. rewrite !elem_of_classToggle. naive_solver.
Qed.

Lemma navLinkClick_step (nav : Toggle * Menu) :
  let nav' := navLinkClick nav in
  ~ menuOpen nav' /\
  (menuOpen nav -> ~ togglePressed nav' /\ ariaExpanded nav'.1 = Some "false") /\
  (~ menuOpen nav -> nav' = nav) /\
  (forall c, c <> "active" ->
     (c ∈ menuClasses nav'.2 <-> c ∈ menuClasses nav.2) /\
     (c ∈ toggleClasses nav'.1 <-> c ∈ toggleClasses nav.1)) /\
  links nav'.2 = links nav.2.
Proof.
  destruct nav as [t m]. unfold menuOpen, togglePressed, navLinkClick. simpl.
  destruct (contains "active" (menuClasses m)) eqn:Hc.
  - apply contains_spec in Hc. simpl. rewrite !elem_of_classRemove.
    split; [naive_solver|]. split; [naive_solver|]. split; [naive_solver|].
    split; [|done]. intros c Hne. rewrite !elem_of_classRemove. naive_solver.
  - apply contains_false in Hc. simpl. naive_solver.
Qed.

Lemma navStep_announced nav ev :
  (announcedOpen nav <-> menuOpen nav) ->
  announcedOpen (navStep nav ev) <-> menuOpen (navStep nav ev).
Proof.
  intros H. destruct ev; simpl.
  - apply (navToggleClick_step nav).
  - pose proof (navLinkClick_step nav) as (Hclosed & Hopen & Hsame & _).
    destruct (decide (menuOpen nav)) as [Ho|Ho].
    + destruct (Hopen Ho) as [_ Haria]. unfold announcedOpen. rewrite Haria.
      split; [discriminate|done].
    + by rewrite (Hsame Ho).
Qed.

Lemma navStep_pressed nav ev :
  (togglePressed nav <-> menuOpen nav) ->
  togglePressed (navStep nav ev) <-> menuOpen (navStep nav ev).
Proof.
  intros H. destruct ev; simpl.
  - pose proof (navToggleClick_step nav) as (Hm & Ht & _). rewrite Hm, Ht.
    by rewrite H.
  - pose proof (navLinkClick_step nav) as (Hclosed & Hopen & Hsame & _).
    destruct (decide (menuOpen nav)) as [Ho|Ho].
    + destruct (Hopen Ho) as [Hp _]. naive_solver.
    + by rewrite (Hsame Ho).
Qed.

(** X1. A click on the toggle flips the menu and the toggle between
    shown and hidden, and sets aria-expanded to what the menu then
    shows, whatever it said before; the other classes of both elements
    and the links are left alone.  After a second click each element
    has the classes of the first state again (their order apart). *)
Theorem mobile_menu_toggle (nav : Toggle * Menu) :
  let nav' := navToggleClick nav in
  let nav'' := navToggleClick nav' in
  (menuOpen nav' <-> ~ menuOpen nav) /\
  (togglePressed nav' <-> ~ togglePressed nav) /\
  (announcedOpen nav' <-> menuOpen nav') /\
  (ariaExpanded nav'.1 = Some "false" <-> ~ menuOpen nav') /\
  (forall c, c <> "active" ->
     (c ∈ menuClasses nav'.2 <-> c ∈ menuClasses nav.2) /\
     (c ∈ toggleClasses nav'.1 <-> c ∈ toggleClasses nav.1)) /\
  links nav'.2 = links nav.2 /\
  (forall c, (c ∈ menuClasses nav''.2 <-> c ∈ menuClasses nav.2) /\
             (c ∈ toggleClasses nav''.1 <-> c ∈ toggleClasses nav.1)) /\
  (announcedOpen nav'' <-> menuOpen nav).
Proof.
  intros nav' nav''.
  pose proof (navToggleClick_step nav) as (Hm & Ht & Ha & Hf & Hc & Hl).
  pose proof (navToggleClick_step nav') as (Hm' & Ht' & Ha' & Hf' & Hc' & Hl').
  fold nav' in Hm, Ht, Ha, Hf, Hc, Hl. fold nav'' in Hm', Ht', Ha', Hf', Hc', Hl'.
  do 6 (split; [done|]). split.
  - intros c. destruct (decide (c = "active")) as [->|Hne].
    + unfold menuOpen, togglePressed in *.
      destruct (decide ("active" ∈ menuClasses nav.2));
        destruct (decide ("active" ∈ toggleClasses nav.1)); naive_solver.
    + destruct (Hc c Hne), (Hc' c Hne). naive_solver.
  - rewrite Ha', Hm', Hm. destruct (decide (menuOpen nav)); naive_solver.
Qed.

(** X2. A click on a link of the menu leaves the menu hidden: a menu
    that was shown loses its class active, and so does the toggle, and
    aria-expanded becomes false; a menu that was hidden is left as it
    is, toggle included.  So a link click after a toggle click that
    opened the menu closes it again. *)
Theorem mobile_menu_link_closes (nav : Toggle * Menu) :
  let nav' := navLinkClick nav in
  ~ menuOpen nav' /\
  (menuOpen nav -> ~ togglePressed nav' /\ ariaExpanded nav'.1 = Some "false") /\
  (~ menuOpen nav -> nav' = nav) /\
  (forall c, c <> "active" ->
     (c ∈ menuClasses nav'.2 <-> c ∈ menuClasses nav.2) /\
     (c ∈ toggleClasses nav'.1 <-> c ∈ toggleClasses nav.1)) /\
  links nav'.2 = links nav.2 /\
  (~ menuOpen nav ->
   let closed := navLinkClick (navToggleClick nav) in
   ~ menuOpen closed /\ ~ togglePressed closed /\
   ariaExpanded closed.1 = Some "false").
Proof.
  intros nav'.
  pose proof (navLinkClick_step nav) as (H1 & H2 & H3 & H4 & H5).
  do 5 (split; [done|]). intros Hclosed closed.
  pose proof (navToggleClick_step nav) as (Hm & _).
  pose proof (navLinkClick_step (navToggleClick nav)) as (K1 & K2 & _).
  split; [done|]. apply K2. by apply Hm.
Qed.

(** X3. Through any sequence of clicks on the toggle and on links:
    a menu whose toggle and aria-expanded agreed with it keeps them in
    agreement; and once the toggle has been clicked, aria-expanded
    tells whether the menu is shown even if it did not at the start. *)
Theorem mobile_menu_consistent (events : list NavEvent) (nav : Toggle * Menu) :
  (navConsistent nav -> navConsistent (foldl navStep nav events)) /\
  (ToggleClick ∈ events ->
   announcedOpen (foldl navStep nav events) <-> menuOpen (foldl navStep nav events)).
Proof.
  split.
  - revert nav. induction events as [|ev events IH]; intros nav Hc; [done|].
    simpl. apply IH. destruct Hc as [Hp Ha].
    split; [by apply navStep_pressed|by apply navStep_announced].
  - induction events as [|ev events IH] using rev_ind; [by intros ?%elem_of_nil|].
    intros Hin. rewrite foldl_app. simpl.
    destruct ev.
    + apply (navToggleClick_step (foldl navStep nav events)).
    + apply navStep_announced with (ev := LinkClick). apply IH.
      apply elem_of_app in Hin as [Hin|Hin]; [done|].
      by apply list_elem_of_singleton in Hin.
Qed.

(* ===================================================================== *)
(** ** The active link *)
(* ===================================================================== *)

Lemma split_nonempty sep s : split sep s <> [].
Proof.
  destruct s as [|c t]; simpl; [done|].
  destruct (Ascii.eqb c sep); [done|]. by destruct (split sep t).
Qed.

Lemma split_app sep a b :
  split sep (a +:+ String sep b) = (split sep a ++ split sep b)%list.
Proof.
  induction a as [|c a IH]; simpl.
  - by rewrite Ascii.eqb_refl.
  - destruct (Ascii.eqb c sep); [by rewrite IH|].
    rewrite IH. pose proof (split_nonempty sep a) as Hne.
    by destruct (split sep a).
Qed.

Lemma split_noSlash s : noSlash s = true -> split "/" s = [s].
Proof.
  induction s as [|c t IH]; simpl; [done|].
  intros [Hc Ht]%andb_true_iff. apply negb_true_iff in Hc. rewrite Hc.
  by rewrite (IH Ht).
Qed.

Lemma split_pieces s : Forall (fun piece => noSlash piece = true) (split "/" s).
Proof.
  induction s as [|c t IH]; simpl; [by repeat constructor|].
  destruct (Ascii.eqb c "/") eqn:Hc; [by constructor|].
  destruct (split "/" t) as [|piece pieces].
  { constructor; [simpl; by rewrite Hc|constructor]. }
  inversion IH as [|? ? Hp Hps]; subst. constructor; [|done].
  simpl. by rewrite Hc, Hp.
Qed.

(** The page a path names has no [/] in it and is not empty. *)
Lemma pageName_segment path : noSlash (pageName path) = true /\ pageName path <> "".
Proof.
  unfold pageName. destruct (last (split "/" path)) as [page|] eqn:Hl; [|done].
  destruct page as [|c t]; [done|]. split; [|done].
  apply last_Some_elem_of in Hl.
  pose proof (split_pieces path) as Hf. rewrite Forall_forall in Hf. by apply Hf.
Qed.

Lemma pageName_file dir file :
  noSlash file = true -> file <> "" ->
  pageName (dir +:+ String "/" file) = file /\ pageName file = file.
Proof.
  intros Hs Hne. unfold pageName.
  rewrite split_app, (split_noSlash file Hs). rewrite last_snoc. simpl.
  by destruct file.
Qed.

Lemma pageName_directory dir : pageName (dir +:+ "/") = "index.html".
Proof.
  unfold pageName. rewrite split_app.
  change (split "/" "") with [""]. by rewrite last_snoc.
Qed.

Lemma homePageCase_false path linkPage linkHref :
  homePageCase (pageName path) linkPage linkHref = false.
Proof.
  unfold homePageCase. destruct (pageName_segment path) as [Hs Hne].
  destruct (String.eqb_spec (pageName path) "") as [He|_]; [done|].
  destruct (String.eqb_spec (pageName path) "/") as [He|_]; [|done].
  by rewrite He in Hs.
Qed.

(** What [setActiveLink] makes of a link when the current page comes
    from a path. *)
Lemma setActiveLink_spec path link :
  setActiveLink (pageName path) link =
  {| href := href link;
     linkClasses :=
       if String.eqb (pageName (hrefOf link)) (pageName path)
       then (classRemove "active" (linkClasses link) ++ ["active"])%list
       else classRemove "active" (linkClasses link) |}.
Proof.
  unfold setActiveLink. rewrite homePageCase_false.
  assert (Hh : match href link with Some (String _ _ as h) => h | _ => "" end
               = hrefOf link).
  { unfold hrefOf. by destruct (href link) as [[|c t]|]. }
  rewrite Hh. f_equal.
  destruct (String.eqb _ _); [|done].
  unfold classAdd.
  destruct (contains "active" (classRemove "active" (linkClasses link))) eqn:Hc; [|done].
  apply contains_spec, elem_of_classRemove in Hc. naive_solver.
Qed.

(** X4. The page compared with the links is the last piece of the path
    between slashes, [index.html] standing in for an empty piece: it
    never contains a slash and is never empty, a path that ends in a
    slash (the site root among them) names [index.html], and the
    directories in front of a file name play no part. *)
Theorem pageName_last_segment :
  (forall path, noSlash (pageName path) = true /\ pageName path <> "") /\
  pageName "" = "index.html" /\
  (forall dir, pageName (dir +:+ "/") = "index.html") /\
  (forall dir file, noSlash file = true -> file <> "" ->
     pageName (dir +:+ "/" +:+ file) = file /\ pageName file = file).
Proof.
  split; [apply pageName_segment|]. split; [done|].
  split; [apply pageName_directory|]. apply pageName_file.
Qed.

(** X5. The special case for the home page in [setActiveNav] never
    applies: the current page is never the empty string nor a single
    slash, whatever the path and the link are. *)
Theorem homePageCase_unreachable (path linkPage linkHref : string) :
  pageName path <> "" /\ pageName path <> "/" /\
  homePageCase (pageName path) linkPage linkHref = false.
Proof.
  destruct (pageName_segment path) as [Hs Hne].
  split; [done|]. split; [|apply homePageCase_false].
  intros He. by rewrite He in Hs.
Qed.

Lemma setActiveNav_spec s :
  setActiveNav s =
  (Normal tt,
   match mainNav s with
   | Some menu => withMainNav (Some (markedMenu (pathname s) menu)) s
   | None => s
   end).
Proof.
  unfold setActiveNav, getSite, mbind, SiteM_bind, mret, SiteM_ret, setMainNav.
  destruct s as [w t m p r a g b c cl f ls]. simpl.
  destruct m as [[mc [|l lks]]|]; reflexivity.
Qed.

Lemma setActiveLink_marked path link :
  markedAs (pageName (hrefOf link) = pageName path) link
           (setActiveLink (pageName path) link).
Proof.
  rewrite setActiveLink_spec. unfold markedAs. simpl. split; [done|].
  destruct (String.eqb_spec (pageName (hrefOf link)) (pageName path)) as [He|Hne].
  - split.
    + rewrite elem_of_app, list_elem_of_singleton. naive_solver.
    + intros c Hc. rewrite elem_of_app, list_elem_of_singleton, elem_of_classRemove.
      naive_solver.
  - split.
    + rewrite elem_of_classRemove. naive_solver.
    + intros c Hc. rewrite elem_of_classRemove. naive_solver.
Qed.

Lemma classRemove_snoc token l :
  classRemove token (l ++ [token]) = classRemove token l.
Proof.
  unfold classRemove. rewrite filter_app.
  rewrite filter_cons_False by (intros H; by apply H).
  by rewrite filter_nil, app_nil_r.
Qed.

Lemma setActiveLink_idem path link :
  setActiveLink (pageName path) (setActiveLink (pageName path) link)
  = setActiveLink (pageName path) link.
Proof.
  rewrite !setActiveLink_spec. unfold hrefOf. simpl. f_equal.
  destruct (String.eqb _ _).
  - by rewrite classRemove_snoc, classRemove_idem.
  - by rewrite classRemove_idem.
Qed.

(** X6. [setActiveNav] gives the class active to exactly the links of
    the menu whose href names the page the path names (a link without
    href counting as [index.html]), takes it from the others, and
    changes no other class, no href, and nothing else on the page. *)
Theorem setActiveNav_marks (s : Site) (menu : Menu) :
  mainNav s = Some menu ->
  let s' := execSite setActiveNav s in
  exists menu',
    mainNav s' = Some menu' /\ menuClasses menu' = menuClasses menu /\
    Forall2 (fun link link' =>
               markedAs (pageName (hrefOf link) = pageName (pathname s)) link link')
            (links menu) (links menu') /\
    world s' = world s /\ navToggle s' = navToggle s /\
    listeners s' = listeners s /\ pathname s' = pathname s.
Proof.
  intros Hm s'. unfold s', execSite. rewrite setActiveNav_spec, Hm. simpl.
  exists (markedMenu (pathname s) menu). split; [done|]. split; [done|].
  split; [|done]. simpl.
  induction (links menu) as [|link lks IH]; [constructor|].
  rewrite fmap_cons. constructor; [apply setActiveLink_marked|exact IH].
Qed.

(** X7. Running [setActiveNav] a second time changes nothing. *)
Theorem setActiveNav_idempotent (s : Site) :
  execSite setActiveNav (execSite setActiveNav s) = execSite setActiveNav s.
Proof.
  unfold execSite. rewrite !setActiveNav_spec. simpl.
  destruct (mainNav s) as [menu|] eqn:Hm; simpl; [|by rewrite Hm].
  unfold withMainNav, markedMenu. simpl. do 3 f_equal.
  rewrite <- list_fmap_compose. apply list_fmap_ext.
  intros i link _. simpl. apply setActiveLink_idem.
Qed.

(* ===================================================================== *)
(** ** Form validation *)
(* ===================================================================== *)

Lemma whiteSpaceLen_le s : (whiteSpaceLen s <= String.length s)%nat.
Proof.
  unfold whiteSpaceLen. destruct s as [|c [|c1 [|c2 t]]]; simpl;
    repeat match goal with |- context [if ?b then _ else _] => destruct b end;
    lia.
Qed.

Lemma length_substring_from n s :
  (n <= String.length s)%nat ->
  String.length (substring_from n s) = (String.length s - n)%nat.
Proof. intros H. unfold substring_from. apply length_substring. lia. Qed.

Lemma trimStartFuel_stops fuel : forall s,
  (String.length s <= fuel)%nat -> whiteSpaceLen (trimStartFuel fuel s) = 0%nat.
Proof.
  induction fuel as [|fuel IH]; intros s Hlen.
  - destruct s; [done|simpl in Hlen; lia].
  - simpl. destruct (whiteSpaceLen s) as [|n] eqn:Hw; [done|].
    apply IH. pose proof (whiteSpaceLen_le s) as Hle.
    rewrite length_substring_from by lia. lia.
Qed.

Lemma trimStartFuel_done fuel s :
  whiteSpaceLen s = 0%nat -> trimStartFuel fuel s = s.
Proof. intros H. destruct fuel; simpl; [done|by rewrite H]. Qed.

Lemma trimStart_idem s : trimStart (trimStart s) = trimStart s.
Proof.
  unfold trimStart at 1. apply trimStartFuel_done.
  unfold trimStart. by apply trimStartFuel_stops.
Qed.

(** [s.trim()] is empty exactly when [s] is white space only. *)
Lemma trim_empty s : trim s = "" <-> allWhiteSpace s = true.
Proof.
  unfold trim, allWhiteSpace. pose proof (trimStart_idem s) as Hi.
  destruct (trimStart s) as [|c t] eqn:Ht; [done|].
  split; [|done]. simpl trimEnd.
  unfold allWhiteSpace. rewrite Hi. done.
Qed.

Lemma isBlank_string s : isBlank (VStr s) = Normal (allWhiteSpace s).
Proof.
  unfold isBlank. f_equal. simpl.
  destruct (allWhiteSpace s) eqn:Ha.
  - apply trim_empty in Ha. by rewrite Ha.
  - destruct (trim s) eqn:Ht; [|done].
    apply trim_empty in Ht. congruence.
Qed.

Lemma isBlankField_spec field : isBlankField field = true <-> blankField field.
Proof.
  unfold isBlankField, blankField. destruct (required field); simpl; [|naive_solver].
  destruct (fieldValue field); naive_solver.
Qed.

Lemma checkFields_text fields : forall isValid,
  textFields fields ->
  checkFields fields isValid =
  (Normal (isValid && negb (existsb isBlankField fields)), validate <$> fields).
Proof.
  induction fields as [|field rest IH]; intros isValid Ht.
  - simpl. by rewrite andb_true_r.
  - inversion Ht as [|? ? Hf Hrest]; subst. simpl.
    unfold validate at 1, isBlankField at 1.
    destruct (required field) eqn:Hr; simpl.
    + specialize (Hf eq_refl). destruct (fieldValue field) as [| | | |s| |] eqn:Hv;
        try discriminate.
      rewrite isBlank_string. destruct (allWhiteSpace s); simpl.
      * rewrite (IH false Hrest). simpl. by rewrite andb_false_r.
      * by rewrite (IH isValid Hrest).
    + by rewrite (IH isValid Hrest).
Qed.

Lemma validate_validated field :
  (required field = true -> isString (fieldValue field) = true) ->
  validated field (validate field).
Proof.
  intros Hs. unfold validated, validate, blankField.
  destruct (required field) eqn:Hr; [|done].
  specialize (Hs eq_refl).
  destruct (fieldValue field) as [| | | |s| |] eqn:Hv; try discriminate.
  simpl. rewrite Hr, Hv. do 3 (split; [done|]). intros _.
  destruct (allWhiteSpace s) eqn:Ha.
  - split.
    + rewrite elem_of_classAdd. naive_solver.
    + intros c Hc. rewrite elem_of_classAdd. naive_solver.
  - split.
    + rewrite elem_of_classRemove. split; [naive_solver|].
      intros (_ & s' & Hs' & Ha'). congruence.
    + intros c Hc. rewrite elem_of_classRemove. naive_solver.
Qed.

Lemma validate_all fields :
  textFields fields -> Forall2 validated fields (validate <$> fields).
Proof.
  induction 1 as [|field rest Hf _ IH]; [constructor|].
  rewrite fmap_cons. constructor; [by apply validate_validated|done].
Qed.

Lemma existsb_blank fields :
  existsb isBlankField fields = true <-> Exists blankField fields.
Proof.
  rewrite existsb_exists, Exists_exists. split.
  - intros (f & Hin & Hb). exists f. split; [by apply list_elem_of_In|].
    by apply isBlankField_spec.
  - intros (f & Hin & Hb). exists f. split; [by apply list_elem_of_In|].
    by apply isBlankField_spec.
Qed.

Lemma formSubmit_text fields :
  textFields fields ->
  formSubmit fields =
  (Normal
     (if existsb isBlankField fields then
        {| defaultPrevented := true;
           focusedElement := firstError (validate <$> fields) |}
      else {| defaultPrevented := false; focusedElement := None |}),
   validate <$> fields).
Proof.
  intros Ht. unfold formSubmit. rewrite (checkFields_text fields true Ht). simpl.
  by destruct (existsb isBlankField fields).
Qed.

(** X8. On a form whose required elements have string values, the
    submit listener returns normally and stops the submission exactly
    when some required field holds nothing but white space (the empty
    string included); when it does not stop it, it moves no focus. *)
Theorem formSubmit_prevents_blank (fields : list Field) :
  textFields fields ->
  exists sub,
    fst (formSubmit fields) = Normal sub /\
    (defaultPrevented sub = true <-> Exists blankField fields) /\
    (defaultPrevented sub = false -> focusedElement sub = None).
Proof.
  intros Ht. rewrite (formSubmit_text fields Ht). simpl. eexists. split; [done|].
  destruct (existsb isBlankField fields) eqn:He; simpl.
  - apply existsb_blank in He. naive_solver.
  - split; [|done]. split; [done|]. intros Hex. apply existsb_blank in Hex. congruence.
Qed.

(** X9. After the submit listener every required field carries the
    class error exactly when it is blank, its other classes are as
    before, and the elements that are not required are untouched;
    values and the attribute required never change. *)
Theorem formSubmit_marks (fields : list Field) :
  textFields fields -> Forall2 validated fields (snd (formSubmit fields)).
Proof.
  intros Ht. rewrite (formSubmit_text fields Ht). simpl. by apply validate_all.
Qed.

(** X10. When the submission is stopped the listener focuses the first
    element of the form that has the class error once the fields are
    marked.  If no element that is not required had that class, this
    is the first blank required field; otherwise such an element that
    comes first takes the focus. *)
Theorem formSubmit_focus (fields : list Field) :
  textFields fields -> Exists blankField fields ->
  let fields' := snd (formSubmit fields) in
  exists sub i field',
    fst (formSubmit fields) = Normal sub /\ focusedElement sub = Some i /\
    fields' !! i = Some field' /\ "error" ∈ fieldClasses field' /\
    (forall j other, (j < i)%nat -> fields' !! j = Some other ->
                     "error" ∉ fieldClasses other) /\
    (Forall (fun field => required field = false -> "error" ∉ fieldClasses field)
            fields ->
     (exists field, fields !! i = Some field /\ blankField field) /\
     (forall j other, (j < i)%nat -> fields !! j = Some other -> ~ blankField other)).
Proof.
  intros Ht Hex fields'. unfold fields'. rewrite (formSubmit_text fields Ht). simpl.
  pose proof (validate_all fields Ht) as Hv.
  apply existsb_blank in Hex as He. rewrite He.
  assert (Hsome : is_Some (list_find (fun field => "error" ∈ fieldClasses field)
                                     (validate <$> fields))).
  { apply Exists_exists in Hex as (f & Hin & Hb).
    apply list_elem_of_lookup in Hin as [k Hk].
    destruct (Forall2_lookup_l _ _ _ _ _ Hv Hk) as (f' & Hk' & Hval).
    destruct Hval as (_ & _ & _ & Hreq). destruct (Hreq (proj1 Hb)) as [Herr _].
    destruct (list_find (fun field => "error" ∈ fieldClasses field)
                        (validate <$> fields)) eqn:Hfind; [done|].
    exfalso. rewrite list_find_None in Hfind. rewrite Forall_forall in Hfind.
    apply (Hfind f'); [by eapply list_elem_of_lookup_2|]. by apply Herr. }
  destruct Hsome as [[i field'] Hfind].
  apply list_find_Some in Hfind as Hspec. destruct Hspec as (Hi & Herr & Hmin).
  eexists _, i, field'. split; [done|]. simpl. unfold firstError. rewrite Hfind.
  split; [done|]. split; [done|]. split; [done|].
  split; [intros j other Hj Ho; by apply (Hmin j other)|].
  intros Hstale. rewrite Forall_forall in Hstale.
  destruct (Forall2_lookup_r _ _ _ _ _ Hv Hi) as (field & Hfield & Hval).
  split.
  - exists field. split; [done|].
    destruct Hval as (_ & _ & Hsame & Hreq).
    destruct (required field) eqn:Hr.
    + destruct (Hreq eq_refl) as [Herr' _]. by apply Herr'.
    + exfalso. rewrite (Hsame eq_refl) in Herr.
      apply (Hstale field); [by eapply list_elem_of_lookup_2|done|done].
  - intros j other Hj Ho Hb.
    destruct (Forall2_lookup_l _ _ _ _ _ Hv Ho) as (other' & Ho' & Hval').
    destruct Hval' as (_ & _ & _ & Hreq).
    apply (Hmin j other' Ho' Hj). destruct (Hreq (proj1 Hb)) as [Herr' _].
    by apply Herr'.
Qed.

(* ===================================================================== *)
(** ** Rendering a cart that was not made by [addToCart] *)
(* ===================================================================== *)

Lemma updateCartUI_renders w :
  Forall renderable (cart w) ->
  updateCartUI w =
  (Normal tt,
   {| cart := cart w; storage := storage w;
      page := renderedPage (cart w) (page w); trace := trace w |}).
Proof.
  intros Hall. unfold renderedPage.
  destruct (cartTable (page w)) as [rows|] eqn:Htable.
  - destruct (cartTotal (page w)) as [t|] eqn:Htotal.
    + by apply (updateCartUI_renderable w rows t).
    + unfold updateCartUI. unfold_monad. simpl. rewrite Htable. simpl.
      destruct (cart w) as [|item rest] eqn:Hc.
      * simpl. by rewrite Htotal.
      * remember (item :: rest) as c eqn:Ec.
        erewrite renderRows_renderable; [|done|reflexivity]. simpl.
        rewrite Htotal. unfold viewRows. by subst c.
  - unfold updateCartUI. unfold_monad. rewrite Htable. by destruct w.
Qed.

Lemma renderRows_app pre : forall items index w rows,
  Forall renderable pre -> cartTable (page w) = Some rows ->
  renderRows (pre ++ items) index w =
  renderRows items (index + length pre)
    {| cart := cart w; storage := storage w;
       page := withCartTable (Some (rows ++ rowsFrom index pre)%list) (page w);
       trace := trace w |}.
Proof.
  induction pre as [|item pre IH]; intros items index w rows Hall Htable.
  - simpl. rewrite app_nil_r, Nat.add_0_r.
    destruct w as [c st [] t]. simpl in *. by subst.
  - apply Forall_cons in Hall as [Hitem Hrest].
    cbn [app]. rewrite renderRows_cons by done. rewrite Htable.
    erewrite IH; [|done|reflexivity]. simpl.
    rewrite <- app_assoc. simpl. by rewrite Nat.add_succ_r.
Qed.

Lemma updateCartUI_throws w rows pre bad post :
  cartTable (page w) = Some rows ->
  cart w = (pre ++ bad :: post)%list -> Forall renderable pre -> ~ renderable bad ->
  exists msg,
    updateCartUI w =
    (Throw (TypeError msg),
     {| cart := cart w; storage := storage w;
        page := withCartTable (Some (rowsFrom 0 pre)) (page w);
        trace := trace w |}).
Proof.
  intros Htable Hc Hpre Hbad. unfold updateCartUI. unfold_monad. simpl.
  rewrite Htable. simpl. rewrite Hc.
  destruct (pre ++ bad :: post)%list as [|item rest] eqn:Hl.
  { by destruct pre. }
  rewrite <- Hl. clear Hl.
  erewrite renderRows_app; [|done|reflexivity].
  match goal with |- context [renderRows (bad :: post) ?k ?w1] =>
    destruct (renderRows_bad bad post k w1 Hbad) as [msg Hr]; rewrite Hr end.
  by exists msg.
Qed.

Lemma all_renderable_or_not c : Forall renderable c \/ ~ Forall renderable c.
Proof.
  induction c as [|item rest IH]; [by left|].
  destruct (renderable_or_not item) as [Hp|Hp].
  - destruct IH as [IH|IH]; [left; by constructor|].
    right. intros H. apply IH. by inversion H.
  - right. intros H. apply Hp. by inversion H.
Qed.

Lemma first_unrenderable c :
  ~ Forall renderable c ->
  exists pre bad post,
    c = (pre ++ bad :: post)%list /\ Forall renderable pre /\ ~ renderable bad.
Proof.
  induction c as [|item rest IH]; intros Hn; [by destruct Hn|].
  destruct (renderable_or_not item) as [Hp|Hp].
  - destruct IH as (pre & bad & post & -> & Hpre & Hbad).
    { intros Hrest. apply Hn. by constructor. }
    exists (item :: pre), bad, post. split; [done|]. split; [by constructor|done].
  - exists [], item, rest. split; [done|]. split; [constructor|done].
Qed.

(** X11. [updateCartUI] throws exactly when the page has the cart table
    and some item of the cart cannot be shown: its price is no number,
    or its name has no string form (items read from the storage may be
    so).  It then stops at the first such item with a TypeError: the
    table holds the rows of the items before it, and the total, the
    cart, the storage and the console are as they were. *)
Theorem updateCartUI_throws_iff (w : World) :
  ((exists e, completion updateCartUI w = Throw e) <->
   is_Some (cartTable (page w)) /\ ~ Forall renderable (cart w)) /\
  (forall rows pre bad post,
     cartTable (page w) = Some rows ->
     cart w = (pre ++ bad :: post)%list -> Forall renderable pre -> ~ renderable bad ->
     let w' := exec updateCartUI w in
     (exists msg, completion updateCartUI w = Throw (TypeError msg)) /\
     cartTable (page w') = Some (rowsFrom 0 pre) /\
     cartTotal (page w') = cartTotal (page w) /\
     cart w' = cart w /\ storage w' = storage w /\ trace w' = trace w).
Proof.
  split.
  - split.
    + intros [e He]. destruct (all_renderable_or_not (cart w)) as [Hall|Hn].
      { unfold completion in He. by rewrite (updateCartUI_renders w Hall) in He. }
      split; [|done]. destruct (cartTable (page w)) as [rows|] eqn:Ht; [done|].
      exfalso. unfold completion, updateCartUI in He. unfold_monad.
      by rewrite Ht in He.
    + intros [[rows Ht] Hn].
      destruct (first_unrenderable _ Hn) as (pre & bad & post & Hc & Hpre & Hbad).
      destruct (updateCartUI_throws w rows pre bad post Ht Hc Hpre Hbad) as [msg Hu].
      exists (TypeError msg). unfold completion. by rewrite Hu.
  - intros rows pre bad post Ht Hc Hpre Hbad w'. unfold w', exec, completion.
    destruct (updateCartUI_throws w rows pre bad post Ht Hc Hpre Hbad) as [msg Hu].
    rewrite Hu. simpl. split; [by exists msg|done].
Qed.

(* ===================================================================== *)
(** ** The page under a sequence of events *)
(* ===================================================================== *)

Lemma saveCart_exec w : saveCart w = (Normal tt, exec saveCart w).
Proof.
  pose proof (saveCart_frame w) as [Hc _]. unfold exec, completion in *.
  destruct (saveCart w) as [r w']. simpl in *. by subst.
Qed.

Lemma commit_run c w : commit c w = updateCartUI (exec saveCart (withCart c w)).
Proof.
  unfold commit. unfold mbind, M_bind, bind, setCart, modify. simpl.
  fold (withCart c w). by rewrite saveCart_exec.
Qed.

Lemma commit_exec c w :
  exec (commit c) w = exec updateCartUI (exec saveCart (withCart c w)).
Proof. unfold exec at 1. by rewrite commit_run. Qed.

Lemma commit_frame c w :
  let w' := exec (commit c) w in
  cart w' = c /\ storage w' = storage (exec saveCart (withCart c w)) /\
  trace w' = trace (exec saveCart (withCart c w)).
Proof.
  cbv zeta. rewrite commit_exec.
  rewrite updateCartUI_cart, updateCartUI_storage, updateCartUI_trace.
  by rewrite saveCart_cart.
Qed.

Lemma commit_renderable c w :
  Forall renderable c ->
  completion (commit c) w = Normal tt /\
  page (exec (commit c) w) = renderedPage c (page w).
Proof.
  intros Hall. unfold completion, exec. rewrite commit_run.
  rewrite updateCartUI_renders by (by rewrite saveCart_cart).
  simpl. by rewrite saveCart_cart, saveCart_page.
Qed.

Lemma saveCart_storage w :
  storage (exec saveCart w) = savedStorage (cart w) (storage w).
Proof.
  destruct w as [c [si ac its er] p t].
  unfold saveCart, readLocalStorage, setItem, savedStorage, exec.
  unfold_monad. simpl.
  destruct si; simpl; [|done]. destruct ac; simpl; try done.
  by destruct er.
Qed.

Lemma commit_spec c u :
  let u' := exec (commit c) u in
  cart u' = c /\ storage u' = savedStorage c (storage u) /\
  (Forall renderable c ->
   page u' = renderedPage c (page u) /\ completion (commit c) u = Normal tt).
Proof.
  cbv zeta. destruct (commit_frame c u) as (Hc & Hs & _).
  split; [done|]. split; [by rewrite Hs, saveCart_storage|].
  intros Hall. destruct (commit_renderable c u Hall). done.
Qed.

Lemma untouched_trace w t :
  cartUntouched w {| cart := cart w; storage := storage w; page := page w; trace := t |}.
Proof. by repeat split. Qed.

Lemma addToCart_run name price en w :
  let parsedPrice := match price with VStr s => VNum (parseFloat s) | _ => price end in
  toBoolean name = true -> invalidPrice parsedPrice = Some false ->
  addToCart name price en w =
  (commit (cart w ++ [cartItem name parsedPrice (newId en)]) ≫= fun _ => showCartFeedback name) w.
Proof.
  intros parsedPrice Hn Hp. unfold addToCart. fold parsedPrice. rewrite Hn, Hp. simpl.
  unfold commit. unfold_monad. simpl.
  destruct (saveCart _) as [[[]|e] w1]; [|done].
  by destruct (updateCartUI w1) as [[[]|e] w2].
Qed.

Lemma addToCart_committed name price en w :
  let parsedPrice := match price with VStr s => VNum (parseFloat s) | _ => price end in
  toBoolean name = true -> invalidPrice parsedPrice = Some false ->
  committed (cart w ++ [cartItem name parsedPrice (newId en)]) (addToCart name price en) w.
Proof.
  intros parsedPrice Hn Hp. unfold committed, exec, completion.
  rewrite (addToCart_run name price en w Hn Hp). fold parsedPrice.
  set (c := (cart w ++ [cartItem name parsedPrice (newId en)])%list).
  destruct (commit_spec c w) as (Hc & Hs & Hpage).
  unfold exec, completion in Hc, Hs, Hpage.
  unfold mbind, M_bind, bind.
  destruct (commit c w) as [[[]|e] w1]; simpl in *.
  - split; [done|]. split; [done|]. intros Hall.
    destruct (Hpage Hall) as [Hp1 _]. rewrite Hp1. by eauto.
  - split; [done|]. split; [done|]. intros Hall.
    by destruct (Hpage Hall) as [_ ?].
Qed.

Lemma addToCartClick_cases dataName dataPrice en w :
  (cartUntouched w (exec (addToCartClick dataName dataPrice en) w) /\
   completion (addToCartClick dataName dataPrice en) w = Normal tt) \/
  (exists name price,
     dataName = Some name /\ dataPrice = Some price /\ name <> "" /\
     is_nan (parseFloat price) = false /\ ltb (parseFloat price) zero = false /\
     committed (cart w ++ [cartItem (VStr name) (VNum (parseFloat price)) (newId en)])
               (addToCartClick dataName dataPrice en) w).
Proof.
  unfold addToCartClick.
  destruct dataName as [[|c name]|]; try (left; split; [apply untouched_trace|done]).
  destruct dataPrice as [[|c' price]|]; try (left; split; [apply untouched_trace|done]).
  set (n := String c name). set (p := String c' price).
  pose proof (invalidPrice_number (parseFloat p)) as Hinv.
  destruct (is_nan (parseFloat p) || ltb (parseFloat p) zero) eqn:Hp.
  - left. unfold addToCart. simpl toBoolean. cbv iota. simpl negb. cbv iota.
    rewrite Hinv. split; [apply untouched_trace|done].
  - right. exists n, p. do 3 (split; [done|]).
    apply orb_false_iff in Hp as Hp'. destruct Hp' as [Hnan Hlt].
    split; [done|]. split; [done|].
    by apply (addToCart_committed (VStr n) (VStr p) en w).
Qed.

Lemma removeItem_run x w :
  ltb x zero || geb x (ofZ (Z.of_nat (length (cart w)))) = false ->
  removeItem (VNum x) w = commit (spliceOne x (cart w)) w.
Proof.
  intros Hx. unfold removeItem, commit. unfold_monad. simpl. by rewrite Hx.
Qed.

Lemma commit_committed c w : committed c (commit c) w.
Proof.
  unfold committed. destruct (commit_spec c w) as (Hc & Hs & Hpage).
  split; [done|]. split; [done|]. intros Hall.
  destruct (Hpage Hall) as [Hp Hn]. rewrite Hp. by eauto.
Qed.

Lemma removeItem_cases index w :
  (cartUntouched w (exec (removeItem index) w) /\
   completion (removeItem index) w = Normal tt) \/
  (exists x, index = VNum x /\ committed (spliceOne x (cart w)) (removeItem index) w).
Proof.
  destruct index as [| | |x| | |];
    try (left; split; [apply untouched_trace|done]).
  destruct (ltb x zero || geb x (ofZ (Z.of_nat (length (cart w))))) eqn:Hx.
  - left. unfold removeItem, exec, completion. unfold_monad. simpl.
    rewrite Hx. split; [apply untouched_trace|done].
  - right. exists x. split; [done|].
    unfold committed, exec, completion. rewrite (removeItem_run x w Hx).
    apply commit_committed.
Qed.

Lemma clearCart_run w :
  cart w <> [] ->
  clearCart true w =
  commit [] {| cart := cart w; storage := storage w; page := page w;
               trace := (trace w ++ [Confirm confirmText true])%list |}.
Proof.
  intros Hc. unfold clearCart, commit. unfold_monad. simpl.
  by destruct (cart w).
Qed.

Lemma clearCart_cases answer w :
  (cartUntouched w (exec (clearCart answer) w) /\
   completion (clearCart answer) w = Normal tt) \/
  committed [] (clearCart answer) w.
Proof.
  destruct (cart w) as [|item rest] eqn:Hc.
  - left. unfold clearCart, exec, completion. unfold_monad. simpl.
    rewrite Hc. by repeat split.
  - destruct answer.
    + right. unfold committed, exec, completion.
      rewrite clearCart_run by (by rewrite Hc).
      apply (commit_committed []
               {| cart := cart w; storage := storage w; page := page w;
                  trace := (trace w ++ [Confirm confirmText true])%list |}).
    + left. unfold clearCart, exec, completion. unfold_monad. simpl.
      rewrite Hc. simpl. split; [apply untouched_trace|done].
Qed.

Lemma openModal_untouched imageSrc caption w :
  cartUntouched w (exec (openModal imageSrc caption) w) /\
  completion (openModal imageSrc caption) w = Normal tt.
Proof.
  unfold openModal, exec, completion. unfold_monad. simpl.
  destruct (modalOverlay (page w)); [|by repeat split].
  destruct (modalImage (page w)); by repeat split.
Qed.

Lemma closeModal_untouched w :
  cartUntouched w (exec closeModal w) /\ completion closeModal w = Normal tt.
Proof.
  unfold closeModal, exec, completion. unfold_monad. simpl.
  destruct (modalOverlay (page w)); by repeat split.
Qed.

Lemma untouched_refl w : cartUntouched w w.
Proof. by repeat split. Qed.

Lemma spliceOne_next x c : nextCart c (spliceOne x c).
Proof. right. left. apply spliceOne_delete. Qed.

Lemma act_remove row w :
  act (ClickRemove row) w =
  match cartTable (page w) with
  | Some rows =>
      match rows !! row with
      | Some (ItemRow _ _ _ _ index) => removeButtonClick index w
      | _ => (Normal tt, w)
      end
  | None => (Normal tt, w)
  end.
Proof.
  unfold act. unfold_monad. simpl.
  destruct (cartTable (page w)) as [rows|]; [|done].
  by destruct (rows !! row) as [[]|].
Qed.

Lemma escape_run w :
  (d ← gets page;
   match modalOverlay d with
   | Some display => if String.eqb display "flex" then closeModal else ret tt
   | None => ret tt
   end) w =
  match modalOverlay (page w) with
  | Some display => if String.eqb display "flex" then closeModal w else (Normal tt, w)
  | None => (Normal tt, w)
  end.
Proof.
  unfold_monad. simpl. destruct (modalOverlay (page w)) as [display|]; [|done].
  by destruct (String.eqb display "flex").
Qed.

(** Every listener either leaves the cart alone and returns normally,
    or goes through [commit] with one of the next carts. *)
Lemma act_cases a w :
  (cartUntouched w (exec (act a) w) /\ completion (act a) w = Normal tt) \/
  (exists c', nextCart (cart w) c' /\ committed c' (act a) w).
Proof.
  destruct a as [dataName dataPrice en|row|answer| |dataFull dataCaption| |onOverlay|key];
    [cbn [act]|idtac|cbn [act]..].
  - destruct (addToCartClick_cases dataName dataPrice en w)
      as [H|(name & price & _ & _ & _ & _ & _ & H)]; [by left|].
    right. eexists. split; [|exact H]. right. right. by eexists _, _, _.
  - unfold committed, exec, completion. rewrite act_remove.
    destruct (cartTable (page w)) as [rows|]; [|left; split; [apply untouched_refl|done]].
    destruct (rows !! row) as [[text|n p d l index]|];
      try (left; split; [apply untouched_refl|done]).
    unfold removeButtonClick.
    destruct (removeItem_cases (VNum (ofZ (Z.of_nat index))) w) as [H|(x & Hx & H)];
      [by left|].
    right. exists (spliceOne x (cart w)). split; [apply spliceOne_next|exact H].
  - destruct (clearCart_cases answer w) as [H|H]; [by left|].
    right. exists []. split; [by left|exact H].
  - left. unfold checkout, exec, completion. unfold_monad. simpl.
    destruct (cart w); split; try done; apply untouched_trace.
  - left. unfold galleryItemClick.
    destruct dataFull as [[|c t]|]; try (split; [apply untouched_trace|done]).
    apply openModal_untouched.
  - left. apply closeModal_untouched.
  - left. unfold overlayClick. destruct onOverlay; [apply closeModal_untouched|].
    split; [apply untouched_refl|done].
  - left. unfold documentKeydown. destruct (String.eqb key "Escape");
      [|split; [apply untouched_refl|done]].
    unfold exec, completion. rewrite escape_run.
    destruct (modalOverlay (page w)) as [display|];
      [|split; [apply untouched_refl|done]].
    destruct (String.eqb display "flex"); [apply closeModal_untouched|].
    split; [apply untouched_refl|done].
Qed.

Lemma nextCart_renderable c c' : Forall renderable c -> nextCart c c' -> Forall renderable c'.
Proof.
  intros Hall [->|[[k ->]|(name & p & id & ->)]].
  - constructor.
  - by apply Forall_delete.
  - apply Forall_app. split; [done|]. constructor; [|constructor].
    split; [by exists p|by eexists].
Qed.

Lemma rendered_view c d :
  match cartTable (renderedPage c d) with
  | Some rows =>
      rows = viewRows c /\
      match cartTotal (renderedPage c d) with
      | Some t => t = viewTotal c
      | None => True
      end
  | None => True
  end /\
  (is_Some (cartTable (renderedPage c d)) <-> is_Some (cartTable d)).
Proof.
  unfold renderedPage. destruct (cartTable d) as [rows|] eqn:Ht; [|by rewrite Ht].
  destruct (cartTotal d) as [t|] eqn:Hc; simpl; [done|]. by rewrite Hc.
Qed.

(** One event on a page whose cart items can all be shown. *)
Lemma act_view a w :
  Forall renderable (cart w) ->
  let w' := exec (act a) w in
  Forall renderable (cart w') /\ (viewMatches w -> viewMatches w') /\
  (cart w' <> cart w -> viewMatches w') /\
  (is_Some (cartTable (page w')) <-> is_Some (cartTable (page w))) /\
  completion (act a) w = Normal tt.
Proof.
  intros Hall w'. subst w'.
  destruct (act_cases a w) as [[(Hc & Hs & Ht & Htot) Hn]|(c' & Hnext & Hcart & Hst & Hview)].
  - rewrite Hc. split; [done|]. unfold viewMatches. rewrite Hc, Ht, Htot.
    split; [done|]. split; [done|]. split; [done|exact Hn].
  - pose proof (nextCart_renderable _ _ Hall Hnext) as Hall'.
    destruct (Hview Hall') as (Ht & Htot & [[] Hn]).
    rewrite Hcart. split; [done|].
    destruct (rendered_view c' (page w)) as [Hv Hsome].
    assert (Hm : viewMatches (exec (act a) w)).
    { unfold viewMatches. by rewrite Hcart, Ht, Htot. }
    split; [done|]. split; [done|]. split; [by rewrite Ht|exact Hn].
Qed.

(** X12. On a page whose cart items can all be shown (a number for a
    price, a name with a string form), and whose table and total show
    the cart, every sequence of clicks and key presses keeps it so:
    the items can still be shown, the table and the total are those of
    the cart after each event, and no listener throws. *)
Theorem view_follows_cart (actions : list Action) (w : World) :
  Forall renderable (cart w) -> viewMatches w ->
  let w' := after actions w in
  Forall renderable (cart w') /\ viewMatches w' /\
  (is_Some (cartTable (page w')) <-> is_Some (cartTable (page w))) /\
  (forall a, completion (act a) w' = Normal tt).
Proof.
  revert w. induction actions as [|a actions IH]; intros w Hall Hview; simpl.
  - do 3 (split; [done|]). intros a. by apply act_view.
  - destruct (act_view a w Hall) as (Hall' & Hv & _ & Hsome & _).
    destruct (IH (exec (act a) w) Hall' (Hv Hview)) as (H1 & H2 & H3 & H4).
    unfold after in *. split; [done|]. split; [done|]. split; [|done].
    by rewrite H3.
Qed.

Lemma savedStorage_usable c st :
  storageUsable st (cartText c) ->
  items (savedStorage c st) !! cartKey = Some (cartText c).
Proof.
  destruct st as [si ac its er]. intros (Hi & Ha & He). simpl in *. subst.
  unfold savedStorage. cbn_world. rewrite He. cbn_world.
  by rewrite lookup_insert_eq.
Qed.

Lemma savedStorage_refused c st :
  ~ storageUsable st (cartText c) -> savedStorage c st = st.
Proof.
  destruct st as [si ac its er]. unfold storageUsable, savedStorage. cbn_world.
  intros Hn. destruct si; [|done]. destruct ac; try done.
  destruct (er cartKey (cartText c) its) eqn:He; [done|].
  by destruct Hn.
Qed.

Lemma storageUsable_or_not st text :
  storageUsable st text \/ ~ storageUsable st text.
Proof.
  destruct st as [si ac its er]. unfold storageUsable. cbn_world.
  destruct si; [|right; by intros [? _]].
  destruct ac; try (right; by intros (_ & ? & _)).
  destruct (er cartKey text its) eqn:He; [right; by intros (_ & _ & ?)|by left].
Qed.

Lemma savedStorage_other c st :
  (forall k, k <> cartKey -> items (savedStorage c st) !! k = items st !! k) /\
  (is_Some (items st !! cartKey) -> is_Some (items (savedStorage c st) !! cartKey)).
Proof.
  destruct (storageUsable_or_not st (cartText c)) as [Hu|Hn].
  - destruct st as [si ac its er]. destruct Hu as (Hi & Ha & He).
    simpl in Hi, Ha, He. subst. unfold savedStorage. cbn_world. rewrite He.
    cbn_world. split.
    + intros k Hk. by rewrite lookup_insert_ne.
    + intros _. by rewrite lookup_insert_eq.
  - by rewrite savedStorage_refused.
Qed.

(** One event, seen from the storage. *)
Lemma act_storage a w :
  let w' := exec (act a) w in
  (cart w' = cart w /\ storage w' = storage w) \/
  storage w' = savedStorage (cart w') (storage w).
Proof.
  cbv zeta. destruct (act_cases a w) as [[(Hc & Hs & _) _]|(c' & _ & Hcart & Hst & _)].
  - by left.
  - right. by rewrite Hcart.
Qed.

Lemma after_cons a actions w :
  after (a :: actions) w = after actions (exec (act a) w).
Proof. reflexivity. Qed.

(** One event, seen from the stored text. *)
Lemma act_saves a w :
  let w' := exec (act a) w in
  (cart w' <> cart w ->
   (storageUsable (storage w) (cartText (cart w')) -> synced w') /\
   (~ storageUsable (storage w) (cartText (cart w')) -> storage w' = storage w)) /\
  (cart w' = cart w -> synced w -> synced w').
Proof.
  cbv zeta. destruct (act_storage a w) as [[Hc Hs]|Hs].
  - split; [by intros Hne|]. intros _ Hsync. unfold synced. by rewrite Hc, Hs.
  - split.
    + intros _. split.
      * intros Hu. unfold synced. rewrite Hs. by apply savedStorage_usable.
      * intros Hn. rewrite Hs. by apply savedStorage_refused.
    + intros Hc Hsync. unfold synced. rewrite Hs.
      destruct (storageUsable_or_not (storage w) (cartText (cart (exec (act a) w))))
        as [Hu|Hn].
      * by apply savedStorage_usable.
      * rewrite savedStorage_refused by done. by rewrite Hc.
Qed.

(** X13. What an event does to the stored cart.  When the event
    changes the cart and the storage takes the write of the new cart's
    text, the storage holds that text under the cart key; when the
    storage does not take it, the storage stays as it was and keeps the
    old text.  An event that leaves the cart as it is leaves a stored
    text that was the cart's in place. *)
Theorem storage_follows_cart (a : Action) (w : World) :
  let w' := exec (act a) w in
  (cart w' <> cart w ->
   (storageUsable (storage w) (cartText (cart w')) -> synced w') /\
   (~ storageUsable (storage w) (cartText (cart w')) -> storage w' = storage w)) /\
  (cart w' = cart w -> synced w -> synced w').
Proof. exact (act_saves a w). Qed.

(** The stored text depends on the writes before it: on a host with a
    quota the first item is stored, the second is not, and the storage
    keeps the text of the one-item cart while the cart holds two. *)
Example storage_quota_reached :
  synced (after (take 1 twoAdds) quotaWorld) /\
  ~ synced (after twoAdds quotaWorld) /\
  length (cart (after twoAdds quotaWorld)) = 2%nat /\
  items (storage (after twoAdds quotaWorld))
  = items (storage (after (take 1 twoAdds) quotaWorld)).
Proof.
  split; [by vm_compute|]. split; [|split; by vm_compute].
  unfold synced. vm_compute. discriminate.
Qed.

(** X14. No listener of the cart or the modal touches any key of the
    storage but the cart key, or removes the cart key: this holds after
    every sequence of events. *)
Theorem storage_other_keys (actions : list Action) (w : World) (k : string) :
  k <> cartKey ->
  let w' := after actions w in
  items (storage w') !! k = items (storage w) !! k /\
  (is_Some (items (storage w) !! cartKey) ->
   is_Some (items (storage w') !! cartKey)).
Proof.
  intros Hk. revert w. induction actions as [|a actions IH]; intros w; [done|].
  cbv zeta. rewrite after_cons.
  destruct (IH (exec (act a) w)) as (H1 & H2).
  rewrite H1.
  destruct (act_storage a w) as [[_ Hs]|Hs].
  - rewrite Hs in H2. by rewrite Hs.
  - rewrite Hs in H2. rewrite Hs.
    destruct (savedStorage_other (cart (exec (act a) w)) (storage w)) as (G4 & G5).
    rewrite (G4 k Hk). split; [done|].
    intros Hsome. apply H2. by apply G5.
Qed.

(* ===================================================================== *)
(** ** Reloading the page *)
(* ===================================================================== *)

Lemma substring_from_append a t : substring_from (String.length a) (a +:+ t) = t.
Proof.
  unfold substring_from. induction a as [|c a IH]; simpl.
  - rewrite Nat.sub_0_r. apply substring_whole.
  - exact IH.
Qed.

Lemma parseValue_null f tail :
  skipWs ("null" +:+ String "," tail) = "null" +:+ String "," tail /\
  parseValue (S f) ("null" +:+ String "," tail) = Some (VNull, String "," tail).
Proof.
  split; [reflexivity|].
  change (parseValue (S f) ("null" +:+ String "," tail))
    with (Some (VNull, substring_from (String.length "null")
                         ("null" +:+ String "," tail))).
  by rewrite substring_from_append.
Qed.

Lemma parseValue_nullPrice k name id tail :
  wellEncoded name = true -> wellEncoded id = true ->
  parseValue (S (S (S (S (S k))))) (nullPriceText name id +:+ tail)
  = Some (cartItem (VStr name) VNull id, tail).
Proof.
  intros Hname Hid. unfold nullPriceText.
  rewrite !append_assoc.
  change ("{" +:+ ?x) with (String "{" x).
  rewrite (quote_append "name"). rewrite parseValue_brace.
  rewrite <- (quote_append "name").
  rewrite (quote_append "price").
  erewrite parseMembers_comma; [|done|by rewrite quote_append|].
  2:{ rewrite parseValue_string by done. reflexivity. }
  rewrite <- (quote_append "price").
  rewrite (quote_append "id").
  destruct (parseValue_null (S k)
              (String dquote (quoteChars "id" +:+ String dquote (":" +:+ quote id +:+ "}" +:+ tail))))
    as [Hskip Hnull].
  erewrite parseMembers_comma; [|done|exact Hskip|exact Hnull].
  rewrite <- (quote_append "id").
  erewrite parseMembers_brace; [|done|by rewrite quote_append|].
  2:{ rewrite parseValue_string by done. reflexivity. }
  reflexivity.
Qed.

(** An array of object texts reads as the array of what they read as. *)
Lemma parse_array texts items :
  Forall2 readsAs texts items -> texts <> [] ->
  Js.parse (String "[" (join "," texts +:+ "]")) = Some (VArr items).
Proof.
  intros Htexts Hne.
  destruct (join_readsAs _ _ Htexts Hne) as [t Ht].
  pose proof (length_join _ _ Htexts) as Hlen.
  unfold Js.parse.
  change (skipWs (String "[" ?x)) with (String "[" x).
  set (n := length items) in *.
  assert (Hfuel : exists k, (2 * String.length (String "[" (join "," texts +:+ "]")) + 2
                             = S (n + 5 + k))%nat).
  { exists (2 * String.length (String "[" (join "," texts +:+ "]")) + 1 - (n + 5))%nat.
    cbn [String.length]. rewrite length_append. cbn [String.length]. lia. }
  destruct Hfuel as [k ->].
  rewrite Ht, append_cons, parseValue_bracket, <- append_cons, <- Ht.
  subst n. by rewrite parseElements_join.
Qed.

Lemma wellFormed_texts c :
  Forall wellFormedItem c ->
  Forall2 readsAs (map (fun e => default "null" (serialize e)) c) c.
Proof.
  induction 1 as [|item c Hitem Hc IH]; constructor; [|done].
  by apply wellFormedItem_readsAs.
Qed.

Lemma wellFormed_renderable item : wellFormedItem item -> renderable item.
Proof. intros (name & p & id & -> & _). split; [by exists p|by eexists]. Qed.

(** What [loadCart] finds after [saveCart] wrote the cart [c] to a
    storage that takes writes. *)
Lemma savedStorage_access c st :
  storageInterface (savedStorage c st) = storageInterface st /\
  access (savedStorage c st) = access st.
Proof.
  destruct (storageUsable_or_not st (cartText c)) as [Hu|Hn].
  - destruct st as [si ac its er]. destruct Hu as (Hi & Ha & He).
    simpl in Hi, Ha, He. subst. unfold savedStorage. cbn_world. by rewrite He.
  - by rewrite savedStorage_refused.
Qed.

Lemma loadCart_after_save c st l :
  storageUsable st (cartText c) -> Js.parse (cartText c) = Some (VArr l) ->
  loadedCart (persisted (savedStorage c st)) = l.
Proof.
  intros Hu Hparse. pose proof (savedStorage_usable c st Hu) as Hk.
  destruct (savedStorage_access c st) as [Hi Ha]. destruct Hu as (Hi' & Ha' & _).
  unfold persisted. rewrite Hi, Ha, Hi', Ha', Hk.
  destruct (cartText_cons c) as [rest Hrest]. rewrite Hrest in *.
  by rewrite Hparse.
Qed.

Lemma addToCart_parsed w name price p en :
  name <> "" -> parsesTo price p -> is_nan p = false -> ltb p zero = false ->
  committed (cart w ++ [cartItem (VStr name) (VNum p) (newId en)])
            (addToCart (VStr name) price en) w.
Proof.
  intros Hne Hparse Hnan Hlt.
  assert (Hn : toBoolean (VStr name) = true) by (by destruct name).
  destruct Hparse as [x|s].
  - apply (addToCart_committed (VStr name) (VNum x) en w Hn).
    by rewrite invalidPrice_number, Hnan, Hlt.
  - apply (addToCart_committed (VStr name) (VStr s) en w Hn).
    by rewrite invalidPrice_number, Hnan, Hlt.
Qed.


Lemma serialize_nullPrice name id :
  map (fun e => default "null" (serialize e)) [cartItem (VStr name) (VNum Infinity) id]
  = [nullPriceText name id].
Proof.
  unfold cartItem, nullPriceText.
  cbn [map serialize omap list_omap fst snd join is_finite Infinity default
       mbind option_bind].
  by rewrite !append_assoc.
Qed.

(** X16. A price that is not finite poisons the stored cart.  On a
    page with the cart table, a cart of well-formed items and a
    storage that takes the write, [addToCart] takes the price Infinity
    (also as the string "Infinity") under a non-empty name and returns
    normally, [saveCart] writes the price as [null], and after a
    reload the item has the price [null]: [updateCartUI] then throws a
    TypeError at that item, after the rows of the items before it. *)
Theorem infinite_price_breaks_reload (w : World) (rows : list Row) (name : string)
    (price : value) (en : Entropy) :
  storageUsable (storage w)
    (cartText (cart w ++ [cartItem (VStr name) (VNum Infinity) (newId en)])) ->
  Forall wellFormedItem (cart w) ->
  cartTable (page w) = Some rows ->
  name <> "" -> wellEncoded name = true -> wellEncoded (newId en) = true ->
  parsesTo price Infinity ->
  let w1 := exec (addToCart (VStr name) price en) w in
  let w2 := exec loadCart w1 in
  completion (addToCart (VStr name) price en) w = Normal tt /\
  cart w1 = (cart w ++ [cartItem (VStr name) (VNum Infinity) (newId en)])%list /\
  cart w2 = (cart w ++ [cartItem (VStr name) VNull (newId en)])%list /\
  (exists msg, completion updateCartUI w2 = Throw (TypeError msg)) /\
  cartTable (page (exec updateCartUI w2)) = Some (rowsFrom 0 (cart w)).
Proof.
  intros Hu Hwf Htable Hne Hname Hid Hparse w1 w2.
  set (c1 := (cart w ++ [cartItem (VStr name) (VNum Infinity) (newId en)])%list).
  set (c2 := (cart w ++ [cartItem (VStr name) VNull (newId en)])%list).
  assert (Hpriced : Forall renderable (cart w)).
  { eapply Forall_impl; [exact Hwf|]. apply wellFormed_renderable. }
  destruct (addToCart_parsed w name price Infinity en Hne Hparse eq_refl eq_refl)
    as (Hcart & Hst & Hview).
  fold w1 in Hcart, Hst. fold c1 in Hcart, Hst, Hview.
  assert (Hall1 : Forall renderable c1).
  { apply Forall_app. split; [done|]. constructor; [|constructor].
    split; [by exists Infinity|by eexists]. }
  destruct (Hview Hall1) as (_ & _ & [[] Hnormal]).
  split; [done|]. split; [done|].
  assert (Hload : cart w2 = c2).
  { unfold w2, exec. rewrite loadCart_spec. simpl. rewrite Hst.
    apply loadCart_after_save; [done|].
    assert (Htext : cartText c1 =
              String "[" (join "," (map (fun e => default "null" (serialize e)) (cart w)
                                    ++ [nullPriceText name (newId en)]) +:+ "]")).
    { unfold cartText, c1, stringify. cbn [serialize default].
      by rewrite map_app, serialize_nullPrice. }
    rewrite Htext. apply parse_array; [|by destruct (map _ (cart w))].
    apply Forall2_app; [by apply wellFormed_texts|].
    constructor; [|constructor]. split; [|by eexists].
    intros k tail. by apply parseValue_nullPrice. }
  split; [done|].
  assert (Htable2 : cartTable (page w2) = cartTable (page w1)).
  { unfold w2, exec. by rewrite loadCart_spec. }
  assert (Htable1 : is_Some (cartTable (page w1))).
  { destruct (Hview Hall1) as (Ht & _). fold w1 in Ht. rewrite Ht.
    apply rendered_view. by rewrite Htable. }
  destruct Htable1 as [rows1 Hrows1].
  assert (Hbad : ~ renderable (cartItem (VStr name) VNull (newId en))).
  { intros [[q Hq] _]. discriminate. }
  destruct (updateCartUI_throws w2 rows1 (cart w) _ [] (eq_trans Htable2 Hrows1)
              Hload Hpriced Hbad) as [msg Hu2].
  unfold completion, exec. rewrite Hu2. simpl. split; [by exists msg|done].
Qed.

(* ===================================================================== *)
(** ** The Remove button of a row *)
(* ===================================================================== *)

Lemma rowsFrom_lookup c : forall k i,
  rowsFrom k c !! i = rowFor (k + i) <$> c !! i.
Proof.
  induction c as [|item c IH]; intros k i; [done|].
  destruct i as [|i]; simpl.
  - by rewrite Nat.add_0_r.
  - rewrite IH. by rewrite Nat.add_succ_r.
Qed.

(** X17. On a page that shows a cart whose items can all be shown (a
    number for a price, a name with a string form) and are fewer than
    2^53, the Remove button of row [i] removes item [i] and nothing
    else: the cart loses exactly that item, the table and the total
    are those of the shorter cart, and a storage that takes the write
    holds its text.  Rows the table does not have answer no click. *)
Theorem remove_button_removes_its_item (w : World) (rows : list Row) (i : nat) :
  Forall renderable (cart w) -> cartTable (page w) = Some rows -> viewMatches w ->
  Z.of_nat (length (cart w)) < 2 ^ 53 ->
  let w' := exec (act (ClickRemove i)) w in
  ((i < length (cart w))%nat ->
   cart w' = delete i (cart w) /\ S (length (cart w')) = length (cart w) /\
   viewMatches w' /\
   (storageUsable (storage w) (cartText (delete i (cart w))) -> synced w')) /\
  ((length (cart w) <= i)%nat -> act (ClickRemove i) w = (Normal tt, w)).
Proof.
  intros Hall Htable Hview Hlen w'.
  assert (Hrows : rows = viewRows (cart w)).
  { unfold viewMatches in Hview. rewrite Htable in Hview. by destruct Hview. }
  split.
  - intros Hi.
    assert (Hrow : exists item, rows !! i = Some (rowFor i item)).
    { destruct (lookup_lt_is_Some_2 (cart w) i Hi) as [item Hitem].
      exists item. rewrite Hrows. unfold viewRows.
      destruct (cart w) as [|x c] eqn:Hc; [done|].
      rewrite rowsFrom_lookup, Hitem. done. }
    destruct Hrow as [item Hrow].
    assert (Hact : act (ClickRemove i) w = removeButtonClick i w).
    { rewrite act_remove, Htable, Hrow. done. }
    assert (Hw' : w' = exec (removeButtonClick i) w).
    { unfold w', exec. by rewrite Hact. }
    destruct (removeButtonClick_spec w i Hlen) as [Hcart Hshort]; [lia|].
    rewrite Hw'. split; [done|]. split; [by apply Hshort|].
    destruct (act_view (ClickRemove i) w Hall) as (_ & Hv & _).
    fold w' in Hv. rewrite Hw' in Hv. split; [by apply Hv|].
    intros Hu.
    destruct (act_saves (ClickRemove i) w) as (Hs & _).
    fold w' in Hs. rewrite Hw' in Hs. apply Hs; [|by rewrite Hcart].
    rewrite Hcart.
    intros Heq. apply (f_equal length) in Heq.
    rewrite length_delete in Heq by (by apply lookup_lt_is_Some_2). lia.
  - intros Hi. rewrite act_remove, Htable, Hrows.
    assert (Hnone : viewRows (cart w) !! i = None \/
                    exists text, viewRows (cart w) !! i = Some (EmptyRow text)).
    { unfold viewRows. destruct (cart w) as [|x c] eqn:Hc.
      - destruct i; [right; by eexists|by left].
      - left. rewrite rowsFrom_lookup. rewrite lookup_ge_None_2; [done|].
        exact Hi. }
    destruct Hnone as [->|[text ->]]; done.
Qed.

(* ===================================================================== *)
(** ** Initialization *)
(* ===================================================================== *)

Ltac unfold_site :=
  unfold mbind, SiteM_bind, mret, SiteM_ret, getSite, addEventListener,
    addNamedListener, addEventListeners, setMainNav, onWorld in *.

Lemma withListeners_same s : withListeners (listeners s) s = s.
Proof. by destruct s. Qed.

Lemma initMobileNav_spec s :
  initMobileNav s = (Normal tt, withListeners (listeners s ++ navListeners s) s).
Proof.
  unfold initMobileNav, navListeners. unfold_site.
  destruct (navToggle s) as [t|] eqn:Ht; [|by rewrite app_nil_r, withListeners_same].
  destruct (mainNav s) as [m|] eqn:Hm; [|by rewrite app_nil_r, withListeners_same].
  simpl. unfold withListeners. simpl. by rewrite <- app_assoc.
Qed.

Lemma initSmoothScroll_spec s :
  initSmoothScroll s = (Normal tt, withListeners (listeners s ++ scrollListeners s) s).
Proof.
  unfold initSmoothScroll, scrollListeners. unfold_site.
  destruct (reducedMotion s); [by rewrite app_nil_r, withListeners_same|].
  destruct (anchorLinks s) as [|n] eqn:Hn; [|done].
  by rewrite app_nil_r, withListeners_same.
Qed.

Lemma addNamedListener_new l s :
  l ∉ listeners s ->
  addNamedListener l s = (Normal tt, withListeners (listeners s ++ [l]) s).
Proof.
  intros Hl. unfold addNamedListener. by rewrite bool_decide_eq_false_2.
Qed.

Lemma setupModalCloseHandlers_spec s :
  OnCloseClick ∉ listeners s ->
  setupModalCloseHandlers s =
  (Normal tt, withListeners (listeners s ++ closeListeners s) s).
Proof.
  intros Hl. unfold setupModalCloseHandlers, closeListeners.
  unfold mbind, SiteM_bind, getSite.
  destruct (modalClose (page (world s))) eqn:Hc.
  - rewrite (addNamedListener_new _ _ Hl). unfold_site. simpl.
    destruct (modalOverlay (page (world s))); simpl; unfold withListeners; simpl;
      by rewrite <- !app_assoc.
  - unfold_site. simpl.
    destruct (modalOverlay (page (world s))); simpl; unfold withListeners; simpl;
      by rewrite <- ?app_assoc.
Qed.

Lemma not_elem_of_indexed (l : Listener) (f : nat -> Listener) n :
  (forall i, f i <> l) -> l ∉ f <$> seq 0 n.
Proof. intros Hf (i & Hi & _)%list_elem_of_fmap. by apply (Hf i). Qed.

Lemma initGalleryModal_spec s :
  OnCloseClick ∉ listeners s ->
  initGalleryModal s =
  (Normal tt, withListeners (listeners s ++ galleryListeners s) s).
Proof.
  intros Hl. unfold initGalleryModal, galleryListeners.
  unfold mbind at 1, SiteM_bind at 1, getSite.
  destruct (galleryItems s) as [|n] eqn:Hn.
  - unfold_site. by rewrite app_nil_r, withListeners_same.
  - unfold mbind, SiteM_bind, addEventListeners. cbn [fst snd].
    rewrite setupModalCloseHandlers_spec.
    + unfold withListeners, closeListeners. simpl. by rewrite <- !app_assoc.
    + simpl. rewrite not_elem_of_app. split; [done|].
      apply (not_elem_of_indexed OnCloseClick OnGalleryItemClick (S n)). done.
Qed.

Lemma initCartButtons_spec s :
  initCartButtons s =
  (Normal tt,
   withListeners (listeners s ++ (OnAddToCartClick <$> seq 0 (addToCartButtons s))) s).
Proof.
  unfold initCartButtons. unfold_site.
  destruct (addToCartButtons s) as [|n] eqn:Hn; [|done].
  by rewrite app_nil_r, withListeners_same.
Qed.

Lemma initCheckoutButton_spec s :
  OnCheckoutClick ∉ listeners s -> OnClearCartClick ∉ listeners s ->
  initCheckoutButton s =
  (Normal tt,
   withListeners
     (listeners s ++ (if checkoutButton s then [OnCheckoutClick] else []) ++
      (if clearCartButton s then [OnClearCartClick] else [])) s).
Proof.
  intros H1 H2. unfold initCheckoutButton. unfold mbind, SiteM_bind, getSite.
  destruct (checkoutButton s) eqn:Hc.
  - rewrite (addNamedListener_new _ _ H1).
    destruct (clearCartButton s) eqn:Hcl.
    + rewrite addNamedListener_new.
      * unfold withListeners. simpl. by rewrite <- app_assoc.
      * simpl. rewrite not_elem_of_app, not_elem_of_cons. split; [done|].
        split; [done|apply not_elem_of_nil].
    + done.
  - unfold mret, SiteM_ret.
    destruct (clearCartButton s) eqn:Hcl.
    + by rewrite (addNamedListener_new _ _ H2).
    + simpl. by rewrite app_nil_r, withListeners_same.
Qed.

Lemma initFormValidation_spec s :
  initFormValidation s =
  (Normal tt, withListeners (listeners s ++ formListeners s) s).
Proof. reflexivity. Qed.

Lemma bindSite_normal {A B} (m : SiteM A) (k : A -> SiteM B) s a s' :
  m s = (Normal a, s') -> (m ≫= k) s = k a s'.
Proof. intros H. unfold mbind, SiteM_bind. by rewrite H. Qed.

Lemma early_not_named s :
  (OnCloseClick ∉ (navListeners s ++ scrollListeners s)%list) /\
  (OnCheckoutClick ∉ earlyListeners s) /\ (OnClearCartClick ∉ earlyListeners s).
Proof.
  unfold earlyListeners, navListeners, scrollListeners, galleryListeners, closeListeners.
  rewrite !not_elem_of_app.
  assert (Hnav : forall l, l <> OnNavToggleClick -> (forall i, OnNavLinkClick i <> l) ->
            l ∉ match navToggle s, mainNav s with
                | Some _, Some menu =>
                    OnNavToggleClick :: (OnNavLinkClick <$> seq 0 (length (links menu)))
                | _, _ => []
                end).
  { intros l H1 H2. destruct (navToggle s); [|apply not_elem_of_nil].
    destruct (mainNav s); [|apply not_elem_of_nil].
    rewrite not_elem_of_cons. split; [done|]. by apply not_elem_of_indexed. }
  assert (Hscroll : forall l, (forall i, OnAnchorClick i <> l) ->
            l ∉ (if reducedMotion s then [] else OnAnchorClick <$> seq 0 (anchorLinks s))).
  { intros l H. destruct (reducedMotion s); [apply not_elem_of_nil|].
    by apply not_elem_of_indexed. }
  assert (Hgal : forall l, (forall i, OnGalleryItemClick i <> l) ->
            l <> OnCloseClick -> l <> OnOverlayClick -> l <> OnKeydown ->
            l ∉ match galleryItems s with
                | O => []
                | n => ((OnGalleryItemClick <$> seq 0 n) ++
                        (if modalClose (page (world s)) then [OnCloseClick] else []) ++
                        (match modalOverlay (page (world s)) with
                         | Some _ => [OnOverlayClick]
                         | None => []
                         end) ++ [OnKeydown])%list
                end).
  { intros l H1 H2 H3 H4. destruct (galleryItems s) as [|n]; [apply not_elem_of_nil|].
    rewrite !not_elem_of_app. split; [by apply not_elem_of_indexed|].
    split; [destruct (modalClose _); [|apply not_elem_of_nil];
            rewrite not_elem_of_cons; split; [done|apply not_elem_of_nil]|].
    split; [destruct (modalOverlay _); [|apply not_elem_of_nil];
            rewrite not_elem_of_cons; split; [done|apply not_elem_of_nil]|].
    rewrite not_elem_of_cons; split; [done|apply not_elem_of_nil]. }
  split; [split; [by apply Hnav|by apply Hscroll]|].
  split; (split; [by apply Hnav|split; [by apply Hscroll|by apply Hgal]]).
Qed.

Lemma setActiveNav_marked s : setActiveNav s = (Normal tt, markedSite s).
Proof. by rewrite setActiveNav_spec. Qed.

Lemma initNavigationAndGallery_spec s :
  listeners s = [] ->
  initNavigationAndGallery s =
  (Normal tt, withListeners (earlyListeners s) (markedSite s)).
Proof.
  intros Hl. unfold initNavigationAndGallery.
  erewrite bindSite_normal by apply initMobileNav_spec.
  erewrite bindSite_normal by apply setActiveNav_marked.
  erewrite bindSite_normal by apply initSmoothScroll_spec.
  destruct (early_not_named s) as [Hclose _].
  rewrite initGalleryModal_spec.
  - rewrite Hl. unfold earlyListeners, markedSite.
    destruct (mainNav s) as [menu|] eqn:Hm; unfold withListeners, withMainNav; simpl;
      rewrite ?Hm; unfold navListeners, scrollListeners, galleryListeners, closeListeners;
      simpl; rewrite ?Hm; by rewrite <- ?app_assoc.
  - rewrite Hl. unfold markedSite.
    destruct (mainNav s) as [menu|] eqn:Hm; simpl; rewrite ?Hm; simpl;
      unfold scrollListeners in *; simpl; exact Hclose.
Qed.

Lemma initButtonsAndForms_spec s :
  OnCheckoutClick ∉ listeners s -> OnClearCartClick ∉ listeners s ->
  initButtonsAndForms s =
  (Normal tt,
   withWorld {| cart := cart (world s); storage := storage (world s);
                page := page (world s);
                trace := (trace (world s) ++ [initializedLog])%list |}
     (withListeners (listeners s ++ cartListeners s ++ formListeners s) s)).
Proof.
  intros H1 H2. unfold initButtonsAndForms.
  erewrite bindSite_normal by apply initCartButtons_spec.
  erewrite bindSite_normal.
  2:{ apply initCheckoutButton_spec; simpl; rewrite not_elem_of_app;
        (split; [done|by apply not_elem_of_indexed]). }
  erewrite bindSite_normal by apply initFormValidation_spec.
  unfold onWorld, cartListeners, formListeners, withWorld, withListeners. simpl.
  by rewrite <- !app_assoc.
Qed.

(** [domContentLoaded], cut at the two calls that concern the cart. *)
Lemma domContentLoaded_run s :
  domContentLoaded s =
  (initNavigationAndGallery ;; onWorld loadCart ;; onWorld updateCartUI ;;
   initButtonsAndForms) s.
Proof.
  unfold domContentLoaded, initNavigationAndGallery, initButtonsAndForms.
  unfold mbind, SiteM_bind.
  destruct (initMobileNav s) as [[[]|e] s1]; [|done].
  destruct (setActiveNav s1) as [[[]|e] s2]; [|done].
  destruct (initSmoothScroll s2) as [[[]|e] s3]; [|done].
  by destruct (initGalleryModal s3) as [[[]|e] s4].
Qed.

Lemma onWorld_loadCart s :
  onWorld loadCart s =
  (Normal tt,
   withWorld {| cart := loadedCart (persisted (storage (world s)));
                storage := storage (world s); page := page (world s);
                trace := (trace (world s)
                          ++ loadWarnings (persisted (storage (world s))))%list |} s).
Proof. unfold onWorld. by rewrite loadCart_spec. Qed.

(** The page when [updateCartUI] is called by [domContentLoaded]. *)
Lemma domContentLoaded_until_render s :
  listeners s = [] ->
  domContentLoaded s =
  (onWorld updateCartUI ;; initButtonsAndForms)
    (withWorld {| cart := loadedCart (persisted (storage (world s)));
                  storage := storage (world s); page := page (world s);
                  trace := (trace (world s)
                            ++ loadWarnings (persisted (storage (world s))))%list |}
       (withListeners (earlyListeners s) (markedSite s))).
Proof.
  intros Hl. rewrite domContentLoaded_run.
  erewrite bindSite_normal by (by apply initNavigationAndGallery_spec).
  erewrite bindSite_normal by apply onWorld_loadCart.
  unfold markedSite. by destruct (mainNav s).
Qed.

Lemma onWorld_bind {A B} (m : M A) (k : A -> SiteM B) s :
  (onWorld m ≫= k) s =
  match m (world s) with
  | (Normal a, w) => k a (withWorld w s)
  | (Throw e, w) => (Throw e, withWorld w s)
  end.
Proof.
  unfold mbind, SiteM_bind, onWorld. by destruct (m (world s)) as [[a|e] w].
Qed.

(** The two ways [domContentLoaded] can end. *)
Lemma domContentLoaded_outcome s :
  listeners s = [] ->
  let w2 := {| cart := loadedCart (persisted (storage (world s)));
               storage := storage (world s); page := page (world s);
               trace := (trace (world s)
                         ++ loadWarnings (persisted (storage (world s))))%list |} in
  let s2 := withListeners (earlyListeners s) (markedSite s) in
  match updateCartUI w2 with
  | (Normal _, w3) =>
      domContentLoaded s =
      (Normal tt,
       withWorld {| cart := cart w3; storage := storage w3; page := page w3;
                    trace := (trace w3 ++ [initializedLog])%list |}
         (withListeners (earlyListeners s ++ cartListeners s ++ formListeners s) s2))
  | (Throw e, w3) => domContentLoaded s = (Throw e, withWorld w3 s2)
  end.
Proof.
  intros Hl w2 s2. rewrite (domContentLoaded_until_render s Hl).
  fold w2. fold s2. rewrite onWorld_bind.
  assert (Hw : world (withWorld w2 s2) = w2) by done. rewrite Hw.
  destruct (updateCartUI w2) as [[[]|e] w3]; [|done].
  destruct (early_not_named s) as (_ & H1 & H2).
  rewrite initButtonsAndForms_spec.
  - unfold s2, markedSite. by destruct (mainNav s).
  - unfold s2, markedSite. by destruct (mainNav s).
  - unfold s2, markedSite. by destruct (mainNav s).
Qed.

Lemma markedSite_fields s :
  world (markedSite s) = world s /\ navToggle (markedSite s) = navToggle s /\
  mainNav (markedSite s) = markedMenu (pathname s) <$> mainNav s /\
  listeners (markedSite s) = listeners s.
Proof. unfold markedSite. by destruct (mainNav s) eqn:Hm. Qed.

(** X18. On a page that has just loaded, if the page has no cart table
    or every item of the stored cart can be shown (a number for a
    price, a name with a string form), [domContentLoaded] returns
    normally: every listener is registered
    (navigation, scrolling, gallery, cart buttons, forms, in this
    order), the cart is the stored one and the table and total show
    it, and the console ends with the line of [loadCart]'s warning, if
    any, and then [Art Studio site initialized]. *)
Theorem domContentLoaded_completes (s : Site) :
  listeners s = [] ->
  cartTable (page (world s)) = None \/
  Forall renderable (loadedCart (persisted (storage (world s)))) ->
  let s' := execSite domContentLoaded s in
  fst (domContentLoaded s) = Normal tt /\
  listeners s' = (earlyListeners s ++ cartListeners s ++ formListeners s)%list /\
  cart (world s') = loadedCart (persisted (storage (world s))) /\
  storage (world s') = storage (world s) /\
  viewMatches (world s') /\
  trace (world s')
  = (trace (world s) ++ loadWarnings (persisted (storage (world s)))
     ++ [initializedLog])%list /\
  mainNav s' = markedMenu (pathname s) <$> mainNav s /\
  navToggle s' = navToggle s.
Proof.
  intros Hl Hok s'. pose proof (domContentLoaded_outcome s Hl) as Hout.
  cbv zeta in Hout.
  set (w2 := {| cart := loadedCart (persisted (storage (world s)));
                storage := storage (world s); page := page (world s);
                trace := (trace (world s)
                          ++ loadWarnings (persisted (storage (world s))))%list |}) in *.
  destruct (markedSite_fields s) as (_ & Htoggle & Hnav & _).
  assert (Hu : updateCartUI w2 =
               (Normal tt, {| cart := cart w2; storage := storage w2;
                              page := renderedPage (cart w2) (page w2);
                              trace := trace w2 |}) \/
               (updateCartUI w2 = (Normal tt, w2) /\ cartTable (page w2) = None)).
  { destruct Hok as [Hnone|Hall].
    - right. split; [|done]. unfold updateCartUI. unfold_monad. simpl. by rewrite Hnone.
    - left. by apply updateCartUI_renders. }
  destruct Hu as [Hu|[Hu Hnone]]; rewrite Hu in Hout; unfold s', execSite;
    rewrite Hout; simpl; rewrite ?Hnav, ?Htoggle.
  - do 4 (split; [done|]). split; [|by rewrite <- app_assoc].
    unfold viewMatches. simpl. apply rendered_view.
  - do 4 (split; [done|]). split; [|by rewrite <- app_assoc].
    unfold viewMatches. simpl. simpl in Hnone. by rewrite Hnone.
Qed.

Lemma gallery_elem_of l s :
  l ∈ galleryListeners s <->
  galleryItems s <> 0%nat /\
  ((exists i, (i < galleryItems s)%nat /\ l = OnGalleryItemClick i) \/
   (l = OnCloseClick /\ modalClose (page (world s)) = true) \/
   (l = OnOverlayClick /\ is_Some (modalOverlay (page (world s)))) \/
   l = OnKeydown).
Proof.
  unfold galleryListeners, closeListeners.
  destruct (galleryItems s) as [|n] eqn:Hn.
  { split; [by intros ?%elem_of_nil|by intros [? _]]. }
  rewrite !elem_of_app, list_elem_of_fmap, list_elem_of_singleton.
  split.
  - intros [(i & -> & Hi)|[H|[H|H]]]; (split; [done|]).
    + left. exists i. split; [|done]. apply elem_of_seq in Hi. lia.
    + destruct (modalClose _); [|by apply elem_of_nil in H].
      apply list_elem_of_singleton in H. by right; left.
    + destruct (modalOverlay _) eqn:Ho; [|by apply elem_of_nil in H].
      apply list_elem_of_singleton in H. right; right; left. by split.
    + by right; right; right.
  - intros [_ [(i & Hi & ->)|[[-> H]|[[-> H]| ->]]]].
    + left. exists i. split; [done|]. apply elem_of_seq. lia.
    + right; left. rewrite H. by apply list_elem_of_singleton.
    + right; right; left. destruct H as [d ->]. by apply list_elem_of_singleton.
    + by right; right; right.
Qed.

Lemma nav_scroll_elem_of l s :
  l ∈ (navListeners s ++ scrollListeners s)%list ->
  l = OnNavToggleClick \/ (exists i, l = OnNavLinkClick i) \/
  (exists i, l = OnAnchorClick i).
Proof.
  unfold navListeners, scrollListeners. rewrite elem_of_app. intros [H|H].
  - destruct (navToggle s); [|by apply elem_of_nil in H].
    destruct (mainNav s); [|by apply elem_of_nil in H].
    apply elem_of_cons in H as [->|(i & -> & _)%list_elem_of_fmap]; [by left|].
    right; left. by exists i.
  - destruct (reducedMotion s); [by apply elem_of_nil in H|].
    apply list_elem_of_fmap in H as (i & -> & _). right; right. by exists i.
Qed.

Lemma early_elem_of l s :
  l ∈ earlyListeners s <->
  l ∈ (navListeners s ++ scrollListeners s)%list \/ l ∈ galleryListeners s.
Proof. unfold earlyListeners. rewrite !elem_of_app. tauto. Qed.

Lemma early_not_cart s :
  (forall i, OnAddToCartClick i ∉ earlyListeners s) /\
  (forall i, OnSubmit i ∉ earlyListeners s).
Proof.
  split; intros i [H|H]%early_elem_of.
  - apply nav_scroll_elem_of in H as [H|[[j H]|[j H]]]; discriminate.
  - apply gallery_elem_of in H as [_ [(j & _ & H)|[[H _]|[[H _]|H]]]]; discriminate.
  - apply nav_scroll_elem_of in H as [H|[[j H]|[j H]]]; discriminate.
  - apply gallery_elem_of in H as [_ [(j & _ & H)|[[H _]|[[H _]|H]]]]; discriminate.
Qed.

(** X19. On a page with the cart table, a stored cart with an item
    that cannot be shown (its price is no number, or its name has no
    string form) stops [domContentLoaded]: the TypeError of
    [updateCartUI] leaves it.  The listeners registered
    before (navigation, scrolling, gallery) stay, but no add-to-cart
    button, neither the checkout nor the clear-cart button and no form
    gets its listener, and the line [Art Studio site initialized] is
    not written; the cart holds the stored items and the table the
    rows of those before the first such item, which can all be
    shown. *)
Theorem domContentLoaded_aborts (s : Site) (rows : list Row)
    (pre : list value) (bad : value) (post : list value) :
  listeners s = [] ->
  cartTable (page (world s)) = Some rows ->
  loadedCart (persisted (storage (world s))) = (pre ++ bad :: post)%list ->
  Forall renderable pre -> ~ renderable bad ->
  let s' := execSite domContentLoaded s in
  (exists msg, fst (domContentLoaded s) = Throw (TypeError msg)) /\
  listeners s' = earlyListeners s /\
  (forall i, OnAddToCartClick i ∉ listeners s') /\
  (OnCheckoutClick ∉ listeners s') /\ (OnClearCartClick ∉ listeners s') /\
  (forall i, OnSubmit i ∉ listeners s') /\
  cart (world s') = (pre ++ bad :: post)%list /\
  cartTable (page (world s')) = Some (rowsFrom 0 pre) /\
  trace (world s') = trace (world s).
Proof.
  intros Hl Htable Hcart Hpre Hbad s'.
  pose proof (domContentLoaded_outcome s Hl) as Hout. cbv zeta in Hout.
  set (w2 := {| cart := loadedCart (persisted (storage (world s)));
                storage := storage (world s); page := page (world s);
                trace := (trace (world s)
                          ++ loadWarnings (persisted (storage (world s))))%list |}) in *.
  destruct (updateCartUI_throws w2 rows pre bad post Htable Hcart Hpre Hbad) as [msg Hu].
  rewrite Hu in Hout. unfold s', execSite. rewrite Hout. simpl.
  split; [by exists msg|]. split; [done|].
  assert (Hwarn : loadWarnings (persisted (storage (world s))) = []).
  { destruct (persisted (storage (world s))); simpl in Hcart; try done;
      by destruct pre. }
  rewrite Hwarn, app_nil_r.
  split; [|split; [|split; [|split; [|by rewrite Hcart]]]].
  - apply early_not_cart.
  - apply early_not_named.
  - apply early_not_named.
  - apply early_not_cart.
Qed.

Lemma late_elem_of l s :
  l ∈ (cartListeners s ++ formListeners s)%list ->
  (exists i, l = OnAddToCartClick i) \/ l = OnCheckoutClick \/
  l = OnClearCartClick \/ (exists i, l = OnSubmit i).
Proof.
  unfold cartListeners, formListeners. rewrite !elem_of_app.
  intros [[(i & -> & _)%list_elem_of_fmap|[H|H]]|(i & -> & _)%list_elem_of_fmap].
  - left. by exists i.
  - destruct (checkoutButton s); [|by apply elem_of_nil in H].
    apply list_elem_of_singleton in H. by right; left.
  - destruct (clearCartButton s); [|by apply elem_of_nil in H].
    apply list_elem_of_singleton in H. by right; right; left.
  - right; right; right. by exists i.
Qed.

Lemma domContentLoaded_listeners s :
  listeners s = [] ->
  listeners (execSite domContentLoaded s) = earlyListeners s \/
  listeners (execSite domContentLoaded s)
  = (earlyListeners s ++ cartListeners s ++ formListeners s)%list.
Proof.
  intros Hl. pose proof (domContentLoaded_outcome s Hl) as Hout. cbv zeta in Hout.
  unfold execSite.
  destruct (updateCartUI _) as [[[]|e] w3]; rewrite Hout; [by right|by left].
Qed.

(** X20. The three ways to close the modal are set up only on a page
    that has a gallery item: after [domContentLoaded] has run on a
    page that has just loaded, the keydown listener of the document is
    there exactly when the page has a [.gallery-item], and the
    listeners of the close button and of the overlay exactly when it
    has one and the element as well; whether the cart loads or not
    makes no difference. *)
Theorem close_listeners_need_gallery (s : Site) :
  listeners s = [] ->
  let s' := execSite domContentLoaded s in
  (OnKeydown ∈ listeners s' <-> galleryItems s <> 0%nat) /\
  (OnCloseClick ∈ listeners s' <->
   galleryItems s <> 0%nat /\ modalClose (page (world s)) = true) /\
  (OnOverlayClick ∈ listeners s' <->
   galleryItems s <> 0%nat /\ is_Some (modalOverlay (page (world s)))) /\
  (forall i, OnGalleryItemClick i ∈ listeners s' <-> (i < galleryItems s)%nat).
Proof.
  intros Hl s'.
  assert (Hin : forall l,
            (forall i, l <> OnAddToCartClick i) -> l <> OnCheckoutClick ->
            l <> OnClearCartClick -> (forall i, l <> OnSubmit i) ->
            l <> OnNavToggleClick -> (forall i, l <> OnNavLinkClick i) ->
            (forall i, l <> OnAnchorClick i) ->
            l ∈ listeners s' <-> l ∈ galleryListeners s).
  { intros l H1 H2 H3 H4 H5 H6 H7.
    assert (Hearly : l ∈ earlyListeners s <-> l ∈ galleryListeners s).
    { rewrite early_elem_of. split; [|by right].
      intros [H|H]; [|done].
      apply nav_scroll_elem_of in H as [H|[[i H]|[i H]]]; naive_solver. }
    unfold s'. destruct (domContentLoaded_listeners s Hl) as [-> | ->]; [done|].
    rewrite elem_of_app, Hearly. split; [|by left].
    intros [H|H]; [done|].
    apply late_elem_of in H as [[i H]|[H|[H|[i H]]]]; naive_solver. }
  split; [|split; [|split]].
  - rewrite Hin by done. rewrite gallery_elem_of. naive_solver.
  - rewrite Hin by done. rewrite gallery_elem_of. naive_solver.
  - rewrite Hin by done. rewrite gallery_elem_of. naive_solver.
  - intros i. rewrite Hin by done. rewrite gallery_elem_of.
    split; [naive_solver lia|]. intros Hi. split; [lia|]. left. by exists i.
Qed.

(* ===================================================================== *)
(** ** Opening the modal, then closing it *)
(* ===================================================================== *)

(** X21. [openModal] shows the modal only on a page that has both the
    overlay and the image: the overlay is displayed, the image gets
    the source, the page stops scrolling, the close button, if there
    is one, gets the focus, and the caption is shown with the new text
    or hidden with its old text.  Escape then closes it: the overlay
    is hidden, scrolling is back and the source is cleared, while the
    focus and the caption stay as [openModal] left them, and closing
    again changes nothing.  Without the overlay or the image
    [openModal] only warns. *)
Theorem openModal_then_escape (w : World) (imageSrc : string) (caption : option string) :
  let w1 := exec (openModal imageSrc caption) w in
  (is_Some (modalOverlay (page w)) -> is_Some (modalImage (page w)) ->
   isOpen w1 /\ modalImage (page w1) = Some imageSrc /\
   bodyOverflow (page w1) = "hidden" /\
   (modalClose (page w) = true -> focused (page w1) = Some "modal-close") /\
   (forall text display, modalCaption (page w) = Some (text, display) ->
      modalCaption (page w1)
      = Some (if truthyAttr caption then (default "" caption, "block")
              else (text, "none"))) /\
   trace w1 = trace w /\
   let w2 := exec (documentKeydown "Escape") w1 in
   closedFrom w1 w2 /\ modalImage (page w2) = Some "" /\
   focused (page w2) = focused (page w1) /\
   modalCaption (page w2) = modalCaption (page w1) /\
   exec closeModal w2 = w2) /\
  (modalOverlay (page w) = None \/ modalImage (page w) = None ->
   page w1 = page w /\ cart w1 = cart w /\ storage w1 = storage w /\
   exists msg, trace w1 = (trace w ++ [Warn msg []])%list).
Proof.
  intros w1. split.
  - intros [overlay Ho] [image Hi].
    assert (Hw1 : w1 =
      {| cart := cart w; storage := storage w;
         page := withModal (Some "flex") (Some imageSrc)
                   (match modalCaption (page w) with
                    | Some (text, _) =>
                        match caption with
                        | Some (String _ _ as c) => Some (c, "block")
                        | _ => Some (text, "none")
                        end
                    | None => None
                    end) "hidden"
                   (if modalClose (page w) then Some "modal-close"
                    else focused (page w)) (page w);
         trace := trace w |}).
    { unfold w1, openModal, exec. unfold_monad. simpl. by rewrite Ho, Hi. }
    rewrite Hw1. simpl. split; [done|]. split; [done|]. split; [done|].
    split; [by intros ->|]. split.
    { intros text display ->. by destruct caption as [[|c t]|]. }
    split; [done|]. unfold exec, documentKeydown. simpl. unfold_monad. simpl.
    split; [|done]. unfold closedFrom, isOpen. simpl. by repeat split.
  - intros Hmissing. unfold w1, openModal, exec. unfold_monad. simpl.
    destruct (modalOverlay (page w)) as [overlay|]; [|by eauto 10].
    destruct Hmissing as [?|Hi]; [done|]. rewrite Hi. by eauto 10.
Qed.

(* ===================================================================== *)
(** ** Submitting a form again *)
(* ===================================================================== *)

Lemma classAdd_idem token l : classAdd token (classAdd token l) = classAdd token l.
Proof.
  unfold classAdd at 1.
  assert (H : contains token (classAdd token l) = true).
  { apply contains_spec, elem_of_classAdd. by left. }
  by rewrite H.
Qed.

Lemma validate_idem field : validate (validate field) = validate field.
Proof.
  unfold validate. destruct (required field) eqn:Hr; [|by rewrite Hr].
  destruct (fieldValue field) as [| | | |s| |] eqn:Hv; try (by rewrite Hr, Hv).
  simpl. rewrite Hr, Hv. unfold withClasses. simpl. f_equal.
  destruct (allWhiteSpace s); [apply classAdd_idem|apply classRemove_idem].
Qed.

Lemma validate_blank field : isBlankField (validate field) = isBlankField field.
Proof.
  unfold validate, isBlankField. destruct (required field) eqn:Hr; [|by rewrite Hr].
  destruct (fieldValue field) eqn:Hv; simpl; by rewrite ?Hr, ?Hv.
Qed.

Lemma validate_blank_all fields :
  existsb isBlankField (validate <$> fields) = existsb isBlankField fields.
Proof.
  induction fields as [|f rest IH]; [done|].
  rewrite fmap_cons. cbn [existsb]. by rewrite validate_blank, IH.
Qed.

Lemma validate_textFields fields : textFields fields -> textFields (validate <$> fields).
Proof.
  unfold textFields. rewrite Forall_fmap. intros H.
  eapply Forall_impl; [exact H|].
  intros field Hf. simpl in *. unfold validate.
  destruct (required field) eqn:Hr; [|by rewrite Hr].
  specialize (Hf eq_refl).
  destruct (fieldValue field) eqn:Hv; try discriminate. simpl. by rewrite Hv.
Qed.

(** X22. Submitting a form a second time without editing it gives the
    same answer and leaves the fields as the first submission left
    them. *)
Theorem formSubmit_again (fields : list Field) :
  textFields fields ->
  formSubmit (snd (formSubmit fields))
  = (fst (formSubmit fields), snd (formSubmit fields)).
Proof.
  intros Ht. rewrite (formSubmit_text fields Ht). simpl.
  rewrite (formSubmit_text _ (validate_textFields fields Ht)).
  assert (Hv : validate <$> (validate <$> fields) = validate <$> fields).
  { rewrite <- list_fmap_compose. apply list_fmap_ext. intros i f _. apply validate_idem. }
  by rewrite Hv, validate_blank_all.
Qed.

(* ===================================================================== *)
(** ** The properties on the sample pages *)
(* ===================================================================== *)

Lemma setActiveNav_marks_witness :
  mainNav storeSite = Some sampleMenu /\
  exists menu',
    mainNav (execSite setActiveNav storeSite) = Some menu' /\
    menuClasses menu' = menuClasses sampleMenu /\
    Forall2 (fun link link' =>
               markedAs (pageName (hrefOf link) = pageName (pathname storeSite))
                        link link')
            (links sampleMenu) (links menu') /\
    world (execSite setActiveNav storeSite) = world storeSite /\
    navToggle (execSite setActiveNav storeSite) = navToggle storeSite /\
    listeners (execSite setActiveNav storeSite) = listeners storeSite /\
    pathname (execSite setActiveNav storeSite) = pathname storeSite.
Proof.
  split; [reflexivity|]. exact (setActiveNav_marks storeSite sampleMenu eq_refl).
Defined.

(** On the store page the link to [/shop/store.html] is the one marked:
    the directory plays no part. *)
Example setActiveNav_sample :
  (linkClasses <$> default [] (links <$> mainNav (execSite setActiveNav storeSite)))
  = [[]; []; ["button"; "active"]; []].
Proof. vm_compute. reflexivity. Qed.

Lemma contactForm_text : textFields contactForm.
Proof. repeat constructor. Defined.

Lemma contactForm_blank : Exists blankField contactForm.
Proof.
  apply Exists_cons_tl, Exists_cons_tl, Exists_cons_hd.
  split; [reflexivity|]. exists "  ". split; reflexivity.
Defined.

Lemma formSubmit_prevents_blank_witness :
  textFields contactForm /\
  exists sub,
    fst (formSubmit contactForm) = Normal sub /\
    (defaultPrevented sub = true <-> Exists blankField contactForm) /\
    (defaultPrevented sub = false -> focusedElement sub = None).
Proof.
  split; [exact contactForm_text|].
  exact (formSubmit_prevents_blank contactForm contactForm_text).
Defined.

Lemma formSubmit_marks_witness :
  textFields contactForm /\
  Forall2 validated contactForm (snd (formSubmit contactForm)).
Proof.
  split; [exact contactForm_text|].
  exact (formSubmit_marks contactForm contactForm_text).
Defined.

Lemma formSubmit_focus_witness :
  textFields contactForm /\ Exists blankField contactForm /\
  exists sub i field',
    fst (formSubmit contactForm) = Normal sub /\ focusedElement sub = Some i /\
    snd (formSubmit contactForm) !! i = Some field' /\
    "error" ∈ fieldClasses field' /\
    (forall j other, (j < i)%nat -> snd (formSubmit contactForm) !! j = Some other ->
                     "error" ∉ fieldClasses other) /\
    (Forall (fun field => required field = false -> "error" ∉ fieldClasses field)
            contactForm ->
     (exists field, contactForm !! i = Some field /\ blankField field) /\
     (forall j other, (j < i)%nat -> contactForm !! j = Some other -> ~ blankField other)).
Proof.
  split; [exact contactForm_text|]. split; [exact contactForm_blank|].
  exact (formSubmit_focus contactForm contactForm_text contactForm_blank).
Defined.

Lemma formSubmit_again_witness :
  textFields contactForm /\
  formSubmit (snd (formSubmit contactForm))
  = (fst (formSubmit contactForm), snd (formSubmit contactForm)).
Proof.
  split; [exact contactForm_text|].
  exact (formSubmit_again contactForm contactForm_text).
Defined.

(** The name keeps its class input and loses the stale error, the note
    is untouched, the two blank fields are marked and the first of
    them is focused. *)
Example formSubmit_sample :
  fst (formSubmit contactForm)
  = Normal {| defaultPrevented := true; focusedElement := Some 2%nat |} /\
  (fieldClasses <$> snd (formSubmit contactForm))
  = [["input"]; []; ["input"; "error"]; ["error"]].
Proof. by_evaluation. Qed.

Lemma twoItemWorld_view : viewMatches twoItemWorld.
Proof. unfold viewMatches. vm_compute. split; reflexivity. Defined.

Lemma twoItemWorld_usable text : storageUsable (storage twoItemWorld) text.
Proof. repeat split. Defined.

Lemma view_follows_cart_witness :
  Forall renderable (cart twoItemWorld) /\ viewMatches twoItemWorld /\
  let w' := after sampleActions twoItemWorld in
  Forall renderable (cart w') /\ viewMatches w' /\
  (is_Some (cartTable (page w')) <-> is_Some (cartTable (page twoItemWorld))) /\
  (forall a, completion (act a) w' = Normal tt).
Proof.
  split; [exact twoItemWorld_renderable|]. split; [exact twoItemWorld_view|].
  exact (view_follows_cart sampleActions twoItemWorld twoItemWorld_renderable
           twoItemWorld_view).
Defined.

Lemma storage_follows_cart_witness :
  cart (exec (act (ClickRemove 0)) twoItemWorld) <> cart twoItemWorld /\
  storageUsable (storage twoItemWorld)
    (cartText (cart (exec (act (ClickRemove 0)) twoItemWorld))) /\
  synced (exec (act (ClickRemove 0)) twoItemWorld).
Proof.
  assert (Hne : cart (exec (act (ClickRemove 0)) twoItemWorld) <> cart twoItemWorld)
    by (vm_compute; discriminate).
  split; [exact Hne|]. split; [apply twoItemWorld_usable|].
  exact (proj1 (proj1 (storage_follows_cart (ClickRemove 0) twoItemWorld) Hne)
           (twoItemWorld_usable _)).
Defined.

Lemma storage_other_keys_witness :
  "theme" <> cartKey /\
  let w' := after sampleActions themedWorld in
  items (storage w') !! "theme" = items (storage themedWorld) !! "theme" /\
  (is_Some (items (storage themedWorld) !! cartKey) ->
   is_Some (items (storage w') !! cartKey)).
Proof.
  assert (Hk : "theme" <> cartKey) by discriminate.
  split; [exact Hk|].
  exact (storage_other_keys sampleActions themedWorld "theme" Hk).
Defined.

(** After the sample clicks the cart is empty, the table shows the
    placeholder row and the storage holds the empty array. *)
Example sampleActions_result :
  let w' := after sampleActions twoItemWorld in
  cart w' = [] /\
  cartTable (page w') = Some [EmptyRow "Your cart is empty"] /\
  cartTotal (page w') = Some "Total: $0.00" /\
  items (storage w') !! cartKey = Some "[]".
Proof. by_evaluation. Qed.



Lemma twoItemWorld_table :
  cartTable (page twoItemWorld) = Some (viewRows (cart twoItemWorld)).
Proof. vm_compute. reflexivity. Defined.

Lemma infinite_price_breaks_reload_witness :
  storageUsable (storage twoItemWorld)
    (cartText (cart twoItemWorld
               ++ [cartItem (VStr "Mural") (VNum Infinity) (newId entropy3)])) /\
  Forall wellFormedItem (cart twoItemWorld) /\
  cartTable (page twoItemWorld) = Some (viewRows (cart twoItemWorld)) /\
  "Mural" <> "" /\ wellEncoded "Mural" = true /\
  wellEncoded (newId entropy3) = true /\ parsesTo (VStr "Infinity") Infinity /\
  let w1 := exec (addToCart (VStr "Mural") (VStr "Infinity") entropy3) twoItemWorld in
  let w2 := exec loadCart w1 in
  completion (addToCart (VStr "Mural") (VStr "Infinity") entropy3) twoItemWorld
  = Normal tt /\
  cart w1 = (cart twoItemWorld
             ++ [cartItem (VStr "Mural") (VNum Infinity) (newId entropy3)])%list /\
  cart w2 = (cart twoItemWorld
             ++ [cartItem (VStr "Mural") VNull (newId entropy3)])%list /\
  (exists msg, completion updateCartUI w2 = Throw (TypeError msg)) /\
  cartTable (page (exec updateCartUI w2)) = Some (rowsFrom 0 (cart twoItemWorld)).
Proof.
  assert (Hname : "Mural" <> "") by discriminate.
  assert (Hs1 : wellEncoded "Mural" = true) by reflexivity.
  assert (Hs2 : wellEncoded (newId entropy3) = true) by (vm_compute; reflexivity).
  assert (Hp : parsesTo (VStr "Infinity") Infinity) by exact (parses_string "Infinity").
  split; [exact (twoItemWorld_usable _)|]. split; [exact twoItemWorld_wellFormed|].
  split; [exact twoItemWorld_table|].
  split; [exact Hname|]. split; [exact Hs1|]. split; [exact Hs2|]. split; [exact Hp|].
  exact (infinite_price_breaks_reload twoItemWorld (viewRows (cart twoItemWorld))
           "Mural" (VStr "Infinity") entropy3 (twoItemWorld_usable _)
           twoItemWorld_wellFormed twoItemWorld_table Hname Hs1 Hs2 Hp).
Defined.

Lemma twoItemWorld_short : Z.of_nat (length (cart twoItemWorld)) < 2 ^ 53.
Proof. vm_compute. reflexivity. Defined.

Lemma remove_button_removes_its_item_witness :
  Forall renderable (cart twoItemWorld) /\
  cartTable (page twoItemWorld) = Some (viewRows (cart twoItemWorld)) /\
  viewMatches twoItemWorld /\ Z.of_nat (length (cart twoItemWorld)) < 2 ^ 53 /\
  let w' := exec (act (ClickRemove 1)) twoItemWorld in
  ((1 < length (cart twoItemWorld))%nat ->
   cart w' = delete 1%nat (cart twoItemWorld) /\
   S (length (cart w')) = length (cart twoItemWorld) /\
   viewMatches w' /\
   (storageUsable (storage twoItemWorld) (cartText (delete 1%nat (cart twoItemWorld))) ->
    synced w')) /\
  ((length (cart twoItemWorld) <= 1)%nat ->
   act (ClickRemove 1) twoItemWorld = (Normal tt, twoItemWorld)).
Proof.
  split; [exact twoItemWorld_renderable|]. split; [exact twoItemWorld_table|].
  split; [exact twoItemWorld_view|]. split; [exact twoItemWorld_short|].
  exact (remove_button_removes_its_item twoItemWorld (viewRows (cart twoItemWorld)) 1
           twoItemWorld_renderable twoItemWorld_table twoItemWorld_view twoItemWorld_short).
Defined.

(** The second row's button leaves the first item, the third row does
    not exist, and the placeholder row of an empty table has no
    button. *)
Example remove_button_sample :
  cart (exec (act (ClickRemove 1)) twoItemWorld) = take 1 (cart twoItemWorld) /\
  act (ClickRemove 2) twoItemWorld = (Normal tt, twoItemWorld) /\
  act (ClickRemove 0) (exec updateCartUI freshWorld)
  = (Normal tt, exec updateCartUI freshWorld).
Proof. by_evaluation. Qed.

Example storage_other_keys_sample :
  let w' := after sampleActions themedWorld in
  items (storage w') !! "theme" = Some "dark" /\
  items (storage w') !! cartKey = Some "[]".
Proof. by_evaluation. Qed.

Lemma storeSite_renderable :
  cartTable (page (world storeSite)) = None \/
  Forall renderable (loadedCart (persisted (storage (world storeSite)))).
Proof.
  right.
  assert (H : loadedCart (persisted (storage (world storeSite))) = cart twoItemWorld)
    by (vm_compute; reflexivity).
  rewrite H. exact twoItemWorld_renderable.
Defined.

Lemma domContentLoaded_completes_witness :
  listeners storeSite = [] /\
  (cartTable (page (world storeSite)) = None \/
   Forall renderable (loadedCart (persisted (storage (world storeSite))))) /\
  let s' := execSite domContentLoaded storeSite in
  fst (domContentLoaded storeSite) = Normal tt /\
  listeners s' = (earlyListeners storeSite ++ cartListeners storeSite
                  ++ formListeners storeSite)%list /\
  cart (world s') = loadedCart (persisted (storage (world storeSite))) /\
  storage (world s') = storage (world storeSite) /\
  viewMatches (world s') /\
  trace (world s')
  = (trace (world storeSite) ++ loadWarnings (persisted (storage (world storeSite)))
     ++ [initializedLog])%list /\
  mainNav s' = markedMenu (pathname storeSite) <$> mainNav storeSite /\
  navToggle s' = navToggle storeSite.
Proof.
  split; [reflexivity|]. split; [exact storeSite_renderable|].
  exact (domContentLoaded_completes storeSite eq_refl storeSite_renderable).
Defined.

(** The store page after it has loaded. *)
Example domContentLoaded_sample :
  let s' := execSite domContentLoaded storeSite in
  listeners s'
  = [OnNavToggleClick; OnNavLinkClick 0; OnNavLinkClick 1; OnNavLinkClick 2;
     OnNavLinkClick 3; OnAnchorClick 0; OnAddToCartClick 0; OnAddToCartClick 1;
     OnAddToCartClick 2; OnCheckoutClick; OnClearCartClick] /\
  cart (world s') = cart twoItemWorld /\
  cartTotal (page (world s')) = Some "Total: $65.00" /\
  trace (world s') = [initializedLog].
Proof. by_evaluation. Qed.

Lemma brokenSite_stored :
  loadedCart (persisted (storage (world brokenSite)))
  = ([] ++ VObj [("name", VStr "Dune")] :: [])%list.
Proof. vm_compute. reflexivity. Defined.

Lemma dune_not_renderable : ~ renderable (VObj [("name", VStr "Dune")]).
Proof. intros [[p Hp] _]. discriminate Hp. Defined.

Lemma domContentLoaded_aborts_witness :
  listeners brokenSite = [] /\
  cartTable (page (world brokenSite)) = Some [] /\
  loadedCart (persisted (storage (world brokenSite)))
  = ([] ++ VObj [("name", VStr "Dune")] :: [])%list /\
  Forall renderable [] /\ ~ renderable (VObj [("name", VStr "Dune")]) /\
  let s' := execSite domContentLoaded brokenSite in
  (exists msg, fst (domContentLoaded brokenSite) = Throw (TypeError msg)) /\
  listeners s' = earlyListeners brokenSite /\
  (forall i, OnAddToCartClick i ∉ listeners s') /\
  (OnCheckoutClick ∉ listeners s') /\ (OnClearCartClick ∉ listeners s') /\
  (forall i, OnSubmit i ∉ listeners s') /\
  cart (world s') = ([] ++ VObj [("name", VStr "Dune")] :: [])%list /\
  cartTable (page (world s')) = Some (rowsFrom 0 []) /\
  trace (world s') = trace (world brokenSite).
Proof.
  split; [reflexivity|]. split; [reflexivity|]. split; [exact brokenSite_stored|].
  split; [exact (Forall_nil_2 renderable)|]. split; [exact dune_not_renderable|].
  exact (domContentLoaded_aborts brokenSite [] [] (VObj [("name", VStr "Dune")]) []
           eq_refl eq_refl brokenSite_stored (Forall_nil_2 renderable) dune_not_renderable).
Defined.

(** The store page with the broken storage: the buttons of the cart
    are left without listeners. *)
Example domContentLoaded_broken_sample :
  let s' := execSite domContentLoaded brokenSite in
  fst (domContentLoaded brokenSite)
  = Throw (TypeError "Cannot read properties of undefined") /\
  listeners s'
  = [OnNavToggleClick; OnNavLinkClick 0; OnNavLinkClick 1; OnNavLinkClick 2;
     OnNavLinkClick 3; OnAnchorClick 0] /\
  trace (world s') = [].
Proof. by_evaluation. Qed.

Lemma close_listeners_need_gallery_witness :
  listeners gallerySite = [] /\
  let s' := execSite domContentLoaded gallerySite in
  (OnKeydown ∈ listeners s' <-> galleryItems gallerySite <> 0%nat) /\
  (OnCloseClick ∈ listeners s' <->
   galleryItems gallerySite <> 0%nat /\ modalClose (page (world gallerySite)) = true) /\
  (OnOverlayClick ∈ listeners s' <->
   galleryItems gallerySite <> 0%nat /\
   is_Some (modalOverlay (page (world gallerySite)))) /\
  (forall i, OnGalleryItemClick i ∈ listeners s' <-> (i < galleryItems gallerySite)%nat).
Proof.
  split; [reflexivity|].
  exact (close_listeners_need_gallery gallerySite eq_refl).
Defined.

Example gallery_listeners_sample :
  listeners (execSite domContentLoaded gallerySite)
  = [OnNavToggleClick; OnNavLinkClick 0; OnNavLinkClick 1; OnNavLinkClick 2;
     OnNavLinkClick 3; OnGalleryItemClick 0; OnGalleryItemClick 1;
     OnCloseClick; OnOverlayClick; OnKeydown] /\
  listeners (execSite domContentLoaded storeSite) ## [OnCloseClick; OnOverlayClick; OnKeydown].
Proof.
  split; [vm_compute; reflexivity|].
  intros l Hl Hr. vm_compute in Hl.
  repeat (apply elem_of_cons in Hr as [->|Hr];
          [repeat (apply elem_of_cons in Hl as [Hl|Hl]; [discriminate Hl|]);
           by apply elem_of_nil in Hl|]).
  by apply elem_of_nil in Hr.
Qed.

Lemma sampleNav_consistent : navConsistent (sampleToggle, sampleMenu).
Proof.
  unfold navConsistent, togglePressed, menuOpen, announcedOpen. simpl.
  split; split; intros H; try discriminate H;
    apply list_elem_of_singleton in H; discriminate H.
Defined.

Lemma mobile_menu_consistent_witness :
  navConsistent (sampleToggle, sampleMenu) /\
  ToggleClick ∈ [ToggleClick; LinkClick; ToggleClick] /\
  navConsistent (foldl navStep (sampleToggle, sampleMenu)
                   [ToggleClick; LinkClick; ToggleClick]) /\
  (announcedOpen (foldl navStep (sampleToggle, sampleMenu)
                    [ToggleClick; LinkClick; ToggleClick]) <->
   menuOpen (foldl navStep (sampleToggle, sampleMenu)
               [ToggleClick; LinkClick; ToggleClick])).
Proof.
  assert (Hin : ToggleClick ∈ [ToggleClick; LinkClick; ToggleClick])
    by apply list_elem_of_here.
  split; [exact sampleNav_consistent|]. split; [exact Hin|].
  destruct (mobile_menu_consistent [ToggleClick; LinkClick; ToggleClick]
              (sampleToggle, sampleMenu)) as [Hc Ha].
  split; [exact (Hc sampleNav_consistent)|exact (Ha Hin)].
Defined.

(** The menu after a click on the toggle, a click on a link and a
    second click on the toggle: it is shown. *)
Example mobile_menu_sample :
  foldl navStep (sampleToggle, sampleMenu) [ToggleClick; LinkClick; ToggleClick]
  = ({| toggleClasses := ["hamburger"; "active"]; ariaExpanded := Some "true" |},
     {| menuClasses := ["nav"; "active"]; links := links sampleMenu |}).
Proof. vm_compute. reflexivity. Qed.

Lemma pageName_last_segment_witness :
  noSlash "store.html" = true /\ "store.html" <> "" /\
  pageName ("/tkchi-art-studio" +:+ "/" +:+ "store.html") = "store.html" /\
  pageName "store.html" = "store.html" /\
  pageName ("/tkchi-art-studio" +:+ "/") = "index.html".
Proof.
  assert (Hs : noSlash "store.html" = true) by reflexivity.
  assert (Hne : "store.html" <> "") by discriminate.
  destruct pageName_last_segment as (_ & _ & Hdir & Hfile).
  split; [exact Hs|]. split; [exact Hne|].
  destruct (Hfile "/tkchi-art-studio" "store.html" Hs Hne) as [H1 H2].
  split; [exact H1|]. split; [exact H2|]. exact (Hdir "/tkchi-art-studio").
Defined.

Lemma updateCartUI_throws_iff_witness :
  let w := exec loadCart (storedWorld "[null]") in
  cartTable (page w) = Some [] /\ cart w = ([] ++ VNull :: [])%list /\
  Forall renderable [] /\ ~ renderable VNull /\
  (exists msg, completion updateCartUI w = Throw (TypeError msg)) /\
  cartTable (page (exec updateCartUI w)) = Some (rowsFrom 0 []) /\
  cartTotal (page (exec updateCartUI w)) = cartTotal (page w) /\
  cart (exec updateCartUI w) = cart w /\
  storage (exec updateCartUI w) = storage w /\
  trace (exec updateCartUI w) = trace w.
Proof.
  cbv zeta.
  assert (Ht : cartTable (page (exec loadCart (storedWorld "[null]"))) = Some [])
    by (vm_compute; reflexivity).
  assert (Hc : cart (exec loadCart (storedWorld "[null]")) = ([] ++ VNull :: [])%list)
    by (vm_compute; reflexivity).
  assert (Hbad : ~ renderable VNull) by (intros [[p Hp] _]; discriminate Hp).
  split; [exact Ht|]. split; [exact Hc|]. split; [exact (Forall_nil_2 renderable)|].
  split; [exact Hbad|].
  destruct (updateCartUI_throws_iff (exec loadCart (storedWorld "[null]"))) as [_ H].
  exact (H [] [] VNull [] Ht Hc (Forall_nil_2 renderable) Hbad).
Defined.

Lemma openModal_then_escape_witness :
  is_Some (modalOverlay (page galleryWorld)) /\
  is_Some (modalImage (page galleryWorld)) /\
  let w1 := exec (openModal "art1-full.jpg" (Some "Autumn")) galleryWorld in
  isOpen w1 /\ modalImage (page w1) = Some "art1-full.jpg" /\
  bodyOverflow (page w1) = "hidden" /\
  closedFrom w1 (exec (documentKeydown "Escape") w1) /\
  focused (page (exec (documentKeydown "Escape") w1)) = focused (page w1).
Proof.
  assert (Ho : is_Some (modalOverlay (page galleryWorld))) by (by eexists).
  assert (Hi : is_Some (modalImage (page galleryWorld))) by (by eexists).
  split; [exact Ho|]. split; [exact Hi|]. cbv zeta.
  destruct (openModal_then_escape galleryWorld "art1-full.jpg" (Some "Autumn"))
    as [Hopen _].
  destruct (Hopen Ho Hi) as (H1 & H2 & H3 & _ & _ & _ & H4 & _ & H5 & _).
  split; [exact H1|]. split; [exact H2|]. split; [exact H3|].
  split; [exact H4|exact H5].
Defined.
